(** * cJSON: a shallow embedding of cJSON.c and its verified properties

    The development follows the C source function by function.  Bytes and
    [size_t] values are integers ([Z]) with the wrap-around written out,
    C strings are lists of bytes, and the node store is a finite map from
    addresses to node records. *)

From Stdlib Require Import ZArith Zbitwise Lia List Bool Ascii String.
From Stdlib Require Import Uint63 PrimFloat FloatOps.
From stdpp Require Import base option list gmap.

Local Open Scope Z_scope.

Set Warnings "-inexact-float,-register-all".

(** ** Bytes and C strings *)

(** An [unsigned char]. *)
Abbreviation byte := Z.

(** The bytes of a C string, terminator excluded. *)
Abbreviation bytes := (list byte).

(** The byte a pointer [i] into the text [s] points at; the terminator sits
    at index [length s]. *)
Definition byte_at (s : bytes) (i : nat) : byte := default 0 (s !! i).

Definition bytes_of_string (s : string) : bytes :=
  map (fun c => Z.of_nat (nat_of_ascii c)) (list_ascii_of_string s).

(** Character constants of the source. *)
Definition ch (c : ascii) : byte := Z.of_nat (nat_of_ascii c).
Definition QUOTE : byte := 34.      (* the double-quote character *)
Definition BACKSLASH : byte := 92.  (* the backslash character *)

(** [hooks->malloc_fn]: a block of the requested size with indeterminate
    contents, or NULL. *)
Definition malloc_hook := Z -> option bytes.

(** ** Outcomes *)

(** How a run that touches memory ends: normally, by an access through a
    pointer that points outside every live block (for a byte pointer the
    index it had, for a node pointer its address, 0 for NULL), or by
    exhausting the step budget of the model. *)
Inductive run (A : Type) : Type :=
| Done (a : A)
| Fault (at_index : nat)
| Timeout.
Arguments Done {A} a.
Arguments Fault {A} at_index.
Arguments Timeout {A}.

Definition bind {A B : Type} (m : run A) (k : A -> run B) : run B :=
  match m with
  | Done a => k a
  | Fault i => Fault i
  | Timeout => Timeout
  end.

Notation "'let*' x ':=' m 'in' k" := (bind m (fun x => k))
  (at level 10, x pattern, m at level 100, k at level 200).

(** The C string held in a byte list: the bytes in front of the first
    terminator. *)
Fixpoint cstring (str : bytes) : bytes :=
  match str with
  | [] => []
  | c :: rest => if c =? 0 then [] else c :: cstring rest
  end.

(** ** The print buffer ([printbuffer], [ensure]) *)

Module PrintBuffer.

(** [typedef struct { unsigned char *buffer; size_t length; size_t offset;
    cjbool noalloc; } printbuffer;]  The buffer pointer is [None] for NULL
    and otherwise carries the bytes of the block it points to. *)
Record printbuffer := mkPB {
  buffer : option bytes;
  length : Z;
  offset : Z;
  noalloc : bool
}.

Section Ensure.

(** Width of [size_t] in bits. *)
Variable w : N.

(** [hooks->malloc_fn]: a block of the requested size with indeterminate
    contents, or NULL. *)
Variable malloc_fn : Z -> option bytes.

Definition size_modulus : Z := 2 ^ Z.of_N w.

(** Unsigned [size_t] arithmetic. *)
Definition wrap (x : Z) : Z := x mod size_modulus.

(** [#define max(a, b) ((a > b) ? a : b)] *)
Definition max (a b : Z) : Z := if a >? b then a else b.

(** [memcpy(newbuffer, p->buffer, p->length)] *)
Definition memcpy (dst src : bytes) (n : Z) : bytes :=
  take (Z.to_nat n) src ++ drop (Z.to_nat n) dst.

(** What [ensure] hands back: the updated [printbuffer] and the returned
    pointer, as an index into [buffer] ([None] for NULL). *)
Definition ensure (p : printbuffer) (needed : Z) : printbuffer * option Z :=
  match buffer p with
  | None => (p, None)
  | Some old =>
    let needed := wrap (needed + offset p) in
    if needed <=? length p then (p, Some (offset p))
    else if noalloc p then (p, None)
    else
      let newsize := wrap (max (length p) needed * 2) in
      if newsize <=? needed then (p, None)
      else
        match malloc_fn newsize with
        | None => (mkPB None 0 (offset p) (noalloc p), None)
        | Some newbuffer =>
          (mkPB (Some (memcpy newbuffer old (length p))) newsize
                (offset p) (noalloc p),
           Some (offset p))
        end
  end.

End Ensure.

End PrintBuffer.

(** ** The string codec ([parse_hex4], [parse_string], [print_string_ptr]) *)

Module StringCodec.

(** Arithmetic on [unsigned int]. *)
Definition u32 (x : Z) : Z := x mod 2 ^ 32.

(** The three digit ranges tested by [parse_hex4]. *)
Definition hex_digit (c : byte) : option Z :=
  if (ch "0" <=? c) && (c <=? ch "9") then Some (c - ch "0")
  else if (ch "A" <=? c) && (c <=? ch "F") then Some (10 + c - ch "A")
  else if (ch "a" <=? c) && (c <=? ch "f") then Some (10 + c - ch "a")
  else None.

(** The [for (i = 0; i < 4; i++)] loop of [parse_hex4]; [n] counts the
    iterations that remain. *)
Fixpoint parse_hex4_loop (s : bytes) (str : nat) (h : Z) (i n : nat) : Z :=
  match n with
  | O => h
  | S n' =>
    match hex_digit (byte_at s str) with
    | None => 0
    | Some d =>
      let h := u32 (h + d) in
      if (i <? 3)%nat
      then parse_hex4_loop s (str + 1) (u32 (Z.shiftl h 4)) (i + 1) n'
      else parse_hex4_loop s str h (i + 1) n'
    end
  end.

Definition parse_hex4 (s : bytes) (str : nat) : Z :=
  parse_hex4_loop s str 0 0 4.

(** [firstByteMark] *)
Definition firstByteMark (len : nat) : Z :=
  match len with
  | 2%nat => 192
  | 3%nat => 224
  | 4%nat => 240
  | _ => 0
  end.

(** The fall-through cases 4, 3, 2 of the encoding switch: each writes one
    continuation byte in front of the ones already written. *)
Fixpoint utf8_continuation (n : nat) (uc : Z) (acc : bytes) : Z * bytes :=
  match n with
  | O => (uc, acc)
  | S n' =>
    utf8_continuation n' (Z.shiftr uc 6)
      (Z.land (Z.lor uc 128) 191 :: acc)
  end.

Definition utf8_length (uc : Z) : nat :=
  if uc <? 128 then 1%nat
  else if uc <? 2048 then 2%nat
  else if uc <? 65536 then 3%nat
  else 4%nat.

(** The bytes [parse_string] writes for the code point [uc]. *)
Definition utf8_encode (uc : Z) : bytes :=
  let len := utf8_length uc in
  let '(uc', tail) := utf8_continuation (len - 1) uc [] in
  Z.land (Z.lor uc' (firstByteMark len)) 255 :: tail.

(** Outcome of a parsing function: the returned pointer with what was
    produced, or NULL together with the assignment made to [*ep], if any. *)
Inductive presult (A : Type) : Type :=
| POk (a : A) (end_ptr : nat)
| PFail (ep : option nat).
Arguments POk {A} a end_ptr.
Arguments PFail {A} ep.

(** The first loop of [parse_string]: find the closing quote and count the
    units.  [None] is the [goto fail] on a trailing backslash. *)
Fixpoint scan_end (fuel : nat) (s : bytes) (end_ptr : nat) (len : Z)
  : option (nat * Z) :=
  match fuel with
  | O => Some (end_ptr, len)
  | S fuel' =>
    let c := byte_at s end_ptr in
    if negb (c =? QUOTE) && negb (c =? 0) then
      if c =? BACKSLASH then
        if byte_at s (end_ptr + 1) =? 0 then None
        else scan_end fuel' s (end_ptr + 2) (len + 1)
      else scan_end fuel' s (end_ptr + 1) (len + 1)
    else Some (end_ptr, len)
  end.

(** [case 'u'] of the decoding switch.  The result is the bytes written
    and the value of [ptr] before the final [ptr++], or the failure. *)
Definition decode_u (s : bytes) (str ptr end_ptr : nat)
  : presult bytes :=
  let uc := parse_hex4 s (ptr + 1) in
  let ptr := (ptr + 4)%nat in
  if (end_ptr <=? ptr)%nat then PFail (Some str)
  else if ((56320 <=? uc) && (uc <=? 57343)) || (uc =? 0)
  then PFail (Some str)
  else if (55296 <=? uc) && (uc <=? 56319) then
    if (end_ptr <? ptr + 6)%nat then PFail (Some str)
    else if negb (byte_at s (ptr + 1) =? BACKSLASH)
            || negb (byte_at s (ptr + 2) =? ch "u")
    then PFail (Some str)
    else
      let uc2 := parse_hex4 s (ptr + 3) in
      let ptr := (ptr + 6)%nat in
      if (uc2 <? 56320) || (uc2 >? 57343) then PFail (Some str)
      else
        let uc := u32 (65536 + Z.lor (Z.shiftl (Z.land uc 1023) 10)
                                     (Z.land uc2 1023)) in
        POk (utf8_encode uc) ptr
  else POk (utf8_encode uc) ptr.

(** The escape switch; [ptr] points at the byte after the backslash. *)
Definition decode_escape (s : bytes) (str ptr end_ptr : nat)
  : presult bytes :=
  let c := byte_at s ptr in
  if c =? ch "b" then POk [8] ptr
  else if c =? ch "f" then POk [12] ptr
  else if c =? ch "n" then POk [10] ptr
  else if c =? ch "r" then POk [13] ptr
  else if c =? ch "t" then POk [9] ptr
  else if (c =? QUOTE) || (c =? BACKSLASH) || (c =? ch "/") then POk [c] ptr
  else if c =? ch "u" then decode_u s str ptr end_ptr
  else PFail (Some str).

(** The loop [while (ptr < end_ptr)]; [out] is what has been written
    through [ptr2] so far. *)
Fixpoint decode_loop (fuel : nat) (s : bytes) (str ptr end_ptr : nat)
    (out : bytes) : presult bytes :=
  match fuel with
  | O => POk out ptr
  | S fuel' =>
    if (ptr <? end_ptr)%nat then
      if negb (byte_at s ptr =? BACKSLASH)
      then decode_loop fuel' s str (ptr + 1) end_ptr (out ++ [byte_at s ptr])
      else
        match decode_escape s str (ptr + 1) end_ptr with
        | PFail ep => PFail ep
        | POk written ptr' =>
          decode_loop fuel' s str (ptr' + 1) end_ptr (out ++ written)
        end
    else POk out ptr
  end.

Section ParseString.

Variable malloc_fn : malloc_hook.

(** [parse_string]: on success the unescaped payload stored in
    [item->string] (with [item->type = cJSON_String]) and the returned
    pointer. *)
Definition parse_string (s : bytes) (str : nat) : presult bytes :=
  if negb (byte_at s str =? QUOTE) then PFail (Some str)
  else
    match scan_end (S (List.length s)) s (str + 1) 0 with
    | None => PFail None
    | Some (end_ptr, len) =>
      match malloc_fn (len + 1) with
      | None => PFail None
      | Some _ =>
        match decode_loop (S (List.length s)) s str (str + 1) end_ptr [] with
        | PFail ep => PFail ep
        | POk out ptr =>
          if byte_at s ptr =? QUOTE then POk out (ptr + 1) else POk out ptr
        end
      end
    end.

End ParseString.

(** *** Printing *)

(** The test of the first loop of [print_string_ptr]. *)
Definition needs_escape (c : byte) : bool :=
  ((c >? 0) && (c <? 32)) || (c =? QUOTE) || (c =? BACKSLASH).

(** [for (ptr = str; *ptr; ptr++) flag |= ...], with the final value of
    [ptr - str]. *)
Fixpoint escape_flag (str : bytes) (flag : bool) (n : Z) : bool * Z :=
  match str with
  | [] => (flag, n)
  | c :: rest =>
    if c =? 0 then (flag, n)
    else escape_flag rest (flag || needs_escape c) (n + 1)
  end.

(** The seven characters of the [strchr] set, a terminator aside. *)
Definition has_shortcut (token : byte) : bool :=
  (token =? QUOTE) || (token =? BACKSLASH) || (token =? 8) || (token =? 12)
  || (token =? 10) || (token =? 13) || (token =? 9).

(** One lowercase hexadecimal digit, as [printf] writes it. *)
Definition hex_char (d : Z) : byte :=
  if d <? 10 then ch "0" + d else ch "a" + (d - 10).

(** [sprintf(ptr2, "u%04x", token)] for a [token] below 65536: the letter
    and four digits. *)
Definition sprintf_u04x (token : Z) : bytes :=
  [ch "u"; hex_char (token / 4096 mod 16); hex_char (token / 256 mod 16);
   hex_char (token / 16 mod 16); hex_char (token mod 16)].

(** What the escaping branch writes for one byte. *)
Definition escape_byte (token : byte) : bytes :=
  BACKSLASH ::
  (if token =? BACKSLASH then [BACKSLASH]
   else if token =? QUOTE then [QUOTE]
   else if token =? 8 then [ch "b"]
   else if token =? 12 then [ch "f"]
   else if token =? 10 then [ch "n"]
   else if token =? 13 then [ch "r"]
   else if token =? 9 then [ch "t"]
   else sprintf_u04x token).

(** The copying loop [while ( *ptr )]. *)
Fixpoint print_escaped (str : bytes) : bytes :=
  match str with
  | [] => []
  | c :: rest =>
    if c =? 0 then []
    else if (c >? 31) && negb (c =? QUOTE) && negb (c =? BACKSLASH)
    then c :: print_escaped rest
    else escape_byte c ++ print_escaped rest
  end.

(** Writing [data] through a pointer [off] bytes into a block. *)
Definition store (buf : bytes) (off : nat) (data : bytes) : bytes :=
  take off buf ++ data ++ drop (off + List.length data) buf.

Section PrintString.

Import PrintBuffer.

Variable w : N.
Variable malloc_fn : malloc_hook.

(** The loop that computes the space needed for escaping. *)
Fixpoint escaped_length (str : bytes) (len : Z) : Z :=
  match str with
  | [] => len
  | token :: rest =>
    if token =? 0 then len
    else
      let len := wrap w (len + 1) in
      let len :=
        if has_shortcut token then wrap w (len + 1)
        else if token <? 32 then wrap w (len + 5)
        else len in
      escaped_length rest len
  end.

(** [if (p) out = ensure(p, size, hooks); else out = malloc_fn(size);]
    followed, when [out] is not NULL, by writing the C string [text]
    through it.  The result is the print buffer afterwards and the string
    [out] points at. *)
Definition emit (p : option printbuffer) (size : Z) (text : bytes)
  : option printbuffer * option bytes :=
  match p with
  | Some pb =>
    match ensure w malloc_fn pb size with
    | (pb', Some off) =>
      (Some (mkPB (option_map
                     (fun b => store b (Z.to_nat off) (text ++ [0]))
                     (buffer pb'))
                  (length pb') (offset pb') (noalloc pb')),
       Some text)
    | (pb', None) => (Some pb', None)
    end
  | None =>
    match malloc_fn size with
    | Some _ => (None, Some text)
    | None => (None, None)
    end
  end.

(** [print_string_ptr]; [str] is [None] for a NULL pointer. *)
Definition print_string_ptr (str : option bytes) (p : option printbuffer)
  : option printbuffer * option bytes :=
  match str with
  | None => emit p 3 [QUOTE; QUOTE]
  | Some str =>
    let '(flag, len) := escape_flag str false 0 in
    if negb flag then
      emit p (wrap w (len + 3)) ([QUOTE] ++ cstring str ++ [QUOTE])
    else
      let len := escaped_length str 0 in
      emit p (wrap w (len + 3)) ([QUOTE] ++ print_escaped str ++ [QUOTE])
  end.

End PrintString.

(** *** Vocabulary for the properties of the codec *)



(** A byte of a C string: an [unsigned char] other than the terminator. *)
Definition valid_byte (c : byte) : Prop := 0 < c < 256.

Definition plain_on_print (c : byte) : bool :=
  (c >? 31) && negb (c =? QUOTE) && negb (c =? BACKSLASH).

(** What the printer writes for one byte. *)
Definition printed_unit (c : byte) : bytes :=
  if plain_on_print c then [c] else escape_byte c.









End StringCodec.

(** ** The number printer ([print_number]) *)

Module NumberCodec.

Import PrintBuffer.

(** [double] is IEEE-754 binary64. *)
Definition double := float.

Definition DBL_EPSILON : double := 0x1p-52%float.
Definition INT_MAX : double := 2147483647%float.
Definition INT_MIN : double := (-2147483648)%float.

(** [fabs] of the C library. *)
Definition fabs (d : double) : double := PrimFloat.abs d.

(** [floor] of the C library.  A binary64 of magnitude 2^52 or more (and a
    NaN) is its own floor; below that, adding and subtracting 2^52 rounds to
    an integer, which is one too high when it exceeds [d]. *)
Definition floor (d : double) : double :=
  let two52 := 0x1p52%float in
  if PrimFloat.ltb (PrimFloat.abs d) two52 then
    let r := if PrimFloat.ltb d 0%float
             then PrimFloat.add (PrimFloat.sub d two52) two52
             else PrimFloat.sub (PrimFloat.add d two52) two52 in
    if PrimFloat.ltb d r then PrimFloat.sub r 1%float else r
  else d.

(** The conversion [(int)d] for a [d] between [INT_MIN] and [INT_MAX]:
    the integer part, rounding toward zero. *)
Definition int_of_double (d : double) : Z :=
  let f := floor (fabs d) in
  let '(m, e) := PrimFloat.frshiftexp f in
  let n := Uint63.to_Z (PrimFloat.normfr_mantissa m) in
  let sh := Uint63.to_Z e - FloatOps.shift - 53 in
  let a := if 0 <=? sh then Z.shiftl n sh else Z.shiftr n (- sh) in
  if PrimFloat.ltb d 0%float then - a else a.

(** The formatted conversions [print_number] asks of [sprintf]. *)
Inductive format : Type :=
| Fmt_d (value : Z)        (* "%d" *)
| Fmt_0f (d : double)      (* "%.0f" *)
| Fmt_e (d : double)       (* "%e" *)
| Fmt_f (d : double).      (* "%f" *)

Section PrintNumber.

Variable w : N.
Variable malloc_fn : malloc_hook.

(** [sprintf] of the C library, by the text it writes. *)
Variable sprintf : format -> bytes.

(** [print_number]; [d] is [item->number]. *)
Definition print_number (d : double) (p : option printbuffer)
  : option printbuffer * option bytes :=
  if PrimFloat.eqb d 0%float then
    StringCodec.emit w malloc_fn p 2 (bytes_of_string "0")
  else if PrimFloat.leb (fabs (PrimFloat.sub (floor d) d)) DBL_EPSILON
          && PrimFloat.leb d INT_MAX && PrimFloat.leb INT_MIN d then
    let value := int_of_double d in
    StringCodec.emit w malloc_fn p 21 (sprintf (Fmt_d value))
  else
    StringCodec.emit w malloc_fn p 64
      (if negb (PrimFloat.eqb (PrimFloat.mul d 0%float) 0%float)
       then bytes_of_string "null"
       else if PrimFloat.leb (fabs (PrimFloat.sub (floor d) d)) DBL_EPSILON
               && PrimFloat.ltb (fabs d) 1.0e60%float
       then sprintf (Fmt_0f d)
       else if PrimFloat.ltb (fabs d) 1.0e-6%float
               || PrimFloat.ltb 1.0e9%float (fabs d)
       then sprintf (Fmt_e d)
       else sprintf (Fmt_f d)).

End PrintNumber.

(** The cases of the number printer, in the order the specification lists
    them. *)
Inductive number_case : Type :=
| CaseZero | CaseInt32 | CaseNull | CaseInteger | CaseScientific | CaseFixed.

Definition is_zero (d : double) : bool := PrimFloat.eqb d 0%float.

(** [|floor(d) - d| <= DBL_EPSILON] *)
Definition integer_valued (d : double) : bool :=
  PrimFloat.leb (fabs (PrimFloat.sub (floor d) d)) DBL_EPSILON.

Definition in_int32 (d : double) : bool :=
  PrimFloat.leb d INT_MAX && PrimFloat.leb INT_MIN d.

(** [d * 0 != 0] *)
Definition nan_or_infinite (d : double) : bool :=
  negb (PrimFloat.eqb (PrimFloat.mul d 0%float) 0%float).

(** The selection as the specification words it: the first case that
    applies. *)
Definition select_case (d : double) : number_case :=
  if is_zero d then CaseZero
  else if integer_valued d && in_int32 d then CaseInt32
  else if nan_or_infinite d then CaseNull
  else if integer_valued d && PrimFloat.ltb (fabs d) 1.0e60%float
  then CaseInteger
  else if PrimFloat.ltb (fabs d) 1.0e-6%float
          || PrimFloat.ltb 1.0e9%float (fabs d)
  then CaseScientific
  else CaseFixed.

(** The text of each case and the room the printer asks for. *)
Definition case_text (sprintf : format -> bytes) (d : double)
    (c : number_case) : bytes :=
  match c with
  | CaseZero => bytes_of_string "0"
  | CaseInt32 => sprintf (Fmt_d (int_of_double d))
  | CaseNull => bytes_of_string "null"
  | CaseInteger => sprintf (Fmt_0f d)
  | CaseScientific => sprintf (Fmt_e d)
  | CaseFixed => sprintf (Fmt_f d)
  end.

Definition case_room (c : number_case) : Z :=
  match c with
  | CaseZero => 2
  | CaseInt32 => 21
  | _ => 64
  end.

End NumberCodec.

(** ** The minifier ([cJSON_Minify]) *)

Module Minify.

(** The state of the function: the block [json] was handed, and the two
    cursors into it. *)
Record cursors := mkCursors {
  block : bytes;
  json : nat;
  into : nat
}.

(** [*into++ = *json++] *)
Definition copy_byte (st : cursors) : run cursors :=
  match block st !! json st with
  | None => Fault (json st)
  | Some c =>
    Done (mkCursors (<[into st := c]> (block st)) (S (json st)) (S (into st)))
  end.

(** [while ( *json && ( *json != '\n')) json++;] *)
Fixpoint skip_line_comment (fuel : nat) (buf : bytes) (json : nat)
  : run nat :=
  match fuel with
  | O => Timeout
  | S fuel' =>
    match buf !! json with
    | None => Fault json
    | Some c =>
      if negb (c =? 0) && negb (c =? 10)
      then skip_line_comment fuel' buf (S json)
      else Done json
    end
  end.

(** [while ( *json && !(( *json == '*') && (json[1] == '/'))) json++;] *)
Fixpoint skip_block_comment (fuel : nat) (buf : bytes) (json : nat)
  : run nat :=
  match fuel with
  | O => Timeout
  | S fuel' =>
    match buf !! json with
    | None => Fault json
    | Some c =>
      if c =? 0 then Done json
      else if c =? ch "*" then
        match buf !! S json with
        | None => Fault (S json)
        | Some c1 =>
          if c1 =? ch "/" then Done json
          else skip_block_comment fuel' buf (S json)
        end
      else skip_block_comment fuel' buf (S json)
    end
  end.

(** The loop that copies the inside of a string literal. *)
Fixpoint copy_string_body (fuel : nat) (st : cursors) : run cursors :=
  match fuel with
  | O => Timeout
  | S fuel' =>
    match block st !! json st with
    | None => Fault (json st)
    | Some c =>
      if negb (c =? 0) && negb (c =? QUOTE) then
        match (if c =? BACKSLASH then copy_byte st else Done st) with
        | Done st1 =>
          match copy_byte st1 with
          | Done st2 => copy_string_body fuel' st2
          | Fault i => Fault i
          | Timeout => Timeout
          end
        | Fault i => Fault i
        | Timeout => Timeout
        end
      else Done st
    end
  end.

(** The test [( *json == '/') && (json[1] == x)]; [c] is [*json]. *)
Definition slash_then (st : cursors) (c x : byte) : run bool :=
  if c =? ch "/" then
    match block st !! S (json st) with
    | None => Fault (S (json st))
    | Some c1 => Done (c1 =? x)
    end
  else Done false.

(** The branch for a string literal. *)
Definition copy_string_literal (st : cursors) : run cursors :=
  match copy_byte st with
  | Done st1 =>
    match copy_string_body (S (List.length (block st))) st1 with
    | Done st2 => copy_byte st2
    | Fault i => Fault i
    | Timeout => Timeout
    end
  | Fault i => Fault i
  | Timeout => Timeout
  end.

(** One turn of the outer loop on the byte [c = *json], which is not the
    terminator. *)
Definition minify_step (st : cursors) (c : byte) : run cursors :=
  if (c =? ch " ") || (c =? 9) || (c =? 13) || (c =? 10) then
    Done (mkCursors (block st) (S (json st)) (into st))
  else
    match slash_then st c (ch "/") with
    | Done true =>
      match skip_line_comment (S (List.length (block st))) (block st)
                               (json st)
      with
      | Done j => Done (mkCursors (block st) j (into st))
      | Fault i => Fault i
      | Timeout => Timeout
      end
    | Done false =>
      match slash_then st c (ch "*") with
      | Done true =>
        match skip_block_comment (S (List.length (block st))) (block st)
                                (json st)
        with
        | Done j => Done (mkCursors (block st) (j + 2) (into st))
        | Fault i => Fault i
        | Timeout => Timeout
        end
      | Done false =>
        if c =? QUOTE then copy_string_literal st else copy_byte st
      | Fault i => Fault i
      | Timeout => Timeout
      end
    | Fault i => Fault i
    | Timeout => Timeout
    end.

(** The outer loop [while ( *json)]. *)
Fixpoint minify_loop (fuel : nat) (st : cursors) : run cursors :=
  match fuel with
  | O => Timeout
  | S fuel' =>
    match block st !! json st with
    | None => Fault (json st)
    | Some c =>
      if c =? 0 then Done st
      else
        match minify_step st c with
        | Done st' => minify_loop fuel' st'
        | Fault i => Fault i
        | Timeout => Timeout
        end
    end
  end.

(** [cJSON_Minify]: the block afterwards.  [json] is the block the argument
    points to, terminator included. *)
Definition cJSON_Minify (json : bytes) : run bytes :=
  match minify_loop (S (List.length json)) (mkCursors json 0 0) with
  | Done st => Done (<[into st := 0]> (block st))
  | Fault i => Fault i
  | Timeout => Timeout
  end.

(** The block that holds the text [T]. *)
Definition c_block (T : bytes) : bytes := T ++ [0].

(** *** The same scan, on the text that is still to be read

    The functions below follow the loops of [cJSON_Minify] on the part of
    the block from [json] on and collect what is written through [into].
    [None] stands for a run that does not end inside the block (or within
    the step budget). *)

(** The rest of the text where the loop over a line comment stops. *)
Fixpoint after_line_comment (R : bytes) : option bytes :=
  match R with
  | [] => None
  | c :: R' =>
    if negb (c =? 0) && negb (c =? 10) then after_line_comment R' else Some R
  end.

(** The rest of the text where the loop over a block comment stops: at the
    terminator, or at the star of a star-slash pair. *)
Fixpoint after_block_comment (R : bytes) : option bytes :=
  match R with
  | [] => None
  | c :: R' =>
    if c =? 0 then Some R
    else if c =? ch "*" then
      match R' with
      | [] => None
      | c1 :: _ => if c1 =? ch "/" then Some R else after_block_comment R'
      end
    else after_block_comment R'
  end.

(** The bytes copied by the loop inside a string literal, and the rest of
    the text where it stops. *)
Fixpoint string_body (R : bytes) : option (bytes * bytes) :=
  match R with
  | [] => None
  | c :: R' =>
    if negb (c =? 0) && negb (c =? QUOTE) then
      if c =? BACKSLASH then
        match R' with
        | [] => None
        | c1 :: R'' =>
          option_map (fun '(body, rest) => (c :: c1 :: body, rest))
                     (string_body R'')
        end
      else option_map (fun '(body, rest) => (c :: body, rest))
                      (string_body R')
    else Some ([], R)
  end.

Definition is_space (c : byte) : bool :=
  (c =? ch " ") || (c =? 9) || (c =? 13) || (c =? 10).

(** The bytes written by the outer loop from the rest [R] on. *)
Fixpoint minify_rest (fuel : nat) (R : bytes) : option bytes :=
  match fuel with
  | O => None
  | S fuel' =>
    match R with
    | [] => None
    | c :: R' =>
      if c =? 0 then Some []
      else if is_space c then minify_rest fuel' R'
      else if (c =? ch "/") && (byte_at R' 0 =? ch "/") then
        match after_line_comment R with
        | Some R2 => minify_rest fuel' R2
        | None => None
        end
      else if (c =? ch "/") && (byte_at R' 0 =? ch "*") then
        match after_block_comment R with
        | Some R2 => minify_rest fuel' (drop 2 R2)
        | None => None
        end
      else if c =? QUOTE then
        match string_body R' with
        | Some (body, c2 :: R3) =>
          option_map (fun out => c :: body ++ c2 :: out)
                     (minify_rest fuel' R3)
        | _ => None
        end
      else option_map (cons c) (minify_rest fuel' R')
    end
  end.

(** The minified form of the text [T]. *)
Definition minify_text (T : bytes) : option bytes :=
  minify_rest (S (S (List.length T))) (T ++ [0]).

(** The cursors at work on a block: [W] has been written, [G] has been read
    but not overwritten, [R] is still to be read. *)
Definition reading (st : cursors) (W G R : bytes) : Prop :=
  block st = W ++ G ++ R
  /\ into st = List.length W
  /\ json st = (List.length W + List.length G)%nat.

(** *** Shapes of text *)

(** The inside of a terminated string literal: bytes other than the quote,
    the backslash and the terminator, and backslashes each followed by one
    more byte. *)
Inductive string_units : bytes -> Prop :=
| units_nil : string_units []
| units_plain (c : byte) (body : bytes) :
    c <> 0 -> c <> QUOTE -> c <> BACKSLASH ->
    string_units body -> string_units (c :: body)
| units_escape (c : byte) (body : bytes) :
    c <> 0 -> string_units body -> string_units (BACKSLASH :: c :: body).

(** No terminator, and no star followed at once by a slash. *)
Inductive star_slash_free : bytes -> Prop :=
| ssf_nil : star_slash_free []
| ssf_one (c : byte) : c <> 0 -> star_slash_free [c]
| ssf_cons (c c1 : byte) (L : bytes) :
    c <> 0 -> ~ (c = ch "*" /\ c1 = ch "/") ->
    star_slash_free (c1 :: L) -> star_slash_free (c :: c1 :: L).

(** A byte that is copied as it is and starts nothing: not the terminator,
    not whitespace, not a quote, not a slash. *)
Definition plain_byte (c : byte) : Prop :=
  c <> 0 /\ is_space c = false /\ c <> QUOTE /\ c <> ch "/".

(** Text with nothing to strip: terminated string literals, plain bytes,
    and slashes that start no comment. *)
Inductive clean : bytes -> Prop :=
| clean_nil : clean []
| clean_string (body T : bytes) :
    string_units body -> clean T -> clean (QUOTE :: body ++ QUOTE :: T)
| clean_plain (c : byte) (T : bytes) :
    plain_byte c -> clean T -> clean (c :: T)
| clean_slash (T : bytes) :
    byte_at T 0 <> ch "/" -> byte_at T 0 <> ch "*" ->
    clean T -> clean (ch "/" :: T).

(** Text made of whitespace, terminated comments, terminated string
    literals and plain bytes.  A line comment runs up to a newline or the
    end of the text. *)
Inductive tidy : bytes -> Prop :=
| tidy_nil : tidy []
| tidy_space (c : byte) (T : bytes) :
    is_space c = true -> tidy T -> tidy (c :: T)
| tidy_line (body T : bytes) :
    Forall (fun c => c <> 0 /\ c <> 10) body ->
    T = [] \/ (exists T', T = 10 :: T') ->
    tidy T -> tidy (ch "/" :: ch "/" :: body ++ T)
| tidy_block (body T : bytes) :
    star_slash_free (ch "*" :: body ++ [ch "*"]) ->
    tidy T -> tidy (ch "/" :: ch "*" :: body ++ ch "*" :: ch "/" :: T)
| tidy_string (body T : bytes) :
    string_units body -> tidy T -> tidy (QUOTE :: body ++ QUOTE :: T)
| tidy_plain (c : byte) (T : bytes) :
    plain_byte c -> tidy T -> tidy (c :: T).

(** *** The text of scenario S7 and its minified form *)

Definition scenario_text : bytes :=
  bytes_of_string "{ " ++ [QUOTE] ++ bytes_of_string "a" ++ [QUOTE]
  ++ bytes_of_string " : 1, // c" ++ [10] ++ bytes_of_string " /* x */ "
  ++ [QUOTE] ++ bytes_of_string "b" ++ [QUOTE] ++ bytes_of_string ":"
  ++ [QUOTE] ++ bytes_of_string "x // y" ++ [QUOTE] ++ bytes_of_string " }".

Definition scenario_minified : bytes :=
  bytes_of_string "{" ++ [QUOTE] ++ bytes_of_string "a" ++ [QUOTE]
  ++ bytes_of_string ":1," ++ [QUOTE] ++ bytes_of_string "b" ++ [QUOTE]
  ++ bytes_of_string ":" ++ [QUOTE] ++ bytes_of_string "x // y" ++ [QUOTE]
  ++ bytes_of_string "}".

(** *** What every run keeps

    [b0] is the block as it was handed in: the block keeps its length, the
    write cursor never passes the read cursor, and from the write cursor on
    the block is still as it was. *)
Definition in_place (b0 : bytes) (st : cursors) : Prop :=
  List.length (block st) = List.length b0
  /\ (into st <= json st)%nat
  /\ forall k, (into st <= k)%nat -> block st !! k = b0 !! k.

End Minify.

(** ** Items and the item store *)

Module Tree.

(** Modelled from the spec: the type constants of cJSON.h, which is not
    among the sources, as the kinds the specification lists.
    [cJSON_Invalid] is the zeroed [type] field of a fresh item. *)
Inductive cJSON_type : Type :=
| cJSON_Invalid | cJSON_False | cJSON_True | cJSON_NULL | cJSON_Number
| cJSON_String | cJSON_Array | cJSON_Object | cJSON_Raw.

(** A [cJSON *]: [None] is NULL. *)
Definition ptr := option nat.

(** [struct cJSON], with the fields the source uses.  Strings are held by
    value. *)
Record cJSON := mkItem {
  next : ptr;
  child : ptr;
  type : cJSON_type;
  string : option bytes;
  number : NumberCodec.double;
  name : option bytes;
  is_reference : bool;
  string_is_const : bool
}.

Definition set_next (v : ptr) (c : cJSON) : cJSON :=
  mkItem v (child c) (type c) (string c) (number c) (name c)
         (is_reference c) (string_is_const c).
Definition set_child (v : ptr) (c : cJSON) : cJSON :=
  mkItem (next c) v (type c) (string c) (number c) (name c)
         (is_reference c) (string_is_const c).
Definition set_type (v : cJSON_type) (c : cJSON) : cJSON :=
  mkItem (next c) (child c) v (string c) (number c) (name c)
         (is_reference c) (string_is_const c).
Definition set_string (v : option bytes) (c : cJSON) : cJSON :=
  mkItem (next c) (child c) (type c) v (number c) (name c)
         (is_reference c) (string_is_const c).
Definition set_number (v : NumberCodec.double) (c : cJSON) : cJSON :=
  mkItem (next c) (child c) (type c) (string c) v (name c)
         (is_reference c) (string_is_const c).
Definition set_name (v : option bytes) (c : cJSON) : cJSON :=
  mkItem (next c) (child c) (type c) (string c) (number c) v
         (is_reference c) (string_is_const c).
Definition set_is_reference (v : bool) (c : cJSON) : cJSON :=
  mkItem (next c) (child c) (type c) (string c) (number c) (name c)
         v (string_is_const c).
Definition set_string_is_const (v : bool) (c : cJSON) : cJSON :=
  mkItem (next c) (child c) (type c) (string c) (number c) (name c)
         (is_reference c) v.

(** [memset(node, 0, sizeof(cJSON))] *)
Definition zero_item : cJSON :=
  mkItem None None cJSON_Invalid None 0%float None false false.

(** The live items, by address.  Address 0 is never handed out. *)
Abbreviation heap := (gmap nat cJSON).

(** Reading through an item pointer. *)
Definition load (h : heap) (p : ptr) : run cJSON :=
  match p with
  | None => Fault 0
  | Some a =>
    match h !! a with
    | Some c => Done c
    | None => Fault a
    end
  end.

(** Assigning to fields through an item pointer. *)
Definition modify (h : heap) (p : ptr) (f : cJSON -> cJSON) : run heap :=
  match p with
  | None => Fault 0
  | Some a =>
    match h !! a with
    | Some c => Done (<[a := f c]> h)
    | None => Fault a
    end
  end.

Definition ptr_eqb (p q : ptr) : bool :=
  match p, q with
  | None, None => true
  | Some a, Some b => (a =? b)%nat
  | _, _ => false
  end.

Definition is_null (p : ptr) : bool :=
  match p with None => true | Some _ => false end.

(** [strcmp(a, b) != 0] *)
Definition strcmp_differs (a b : bytes) : bool :=
  negb (bool_decide (cstring a = cstring b)).

Section Store.

Variable malloc_fn : malloc_hook.

(** [sizeof(cJSON)] *)
Variable sizeof_cJSON : Z.

(** [cJSON_strdup] *)
Definition cJSON_strdup (str : option bytes) : option bytes :=
  match str with
  | None => None
  | Some s =>
    let len := Z.of_nat (List.length (cstring s)) + 1 in
    match malloc_fn len with
    | None => None
    | Some _ => Some (cstring s)
    end
  end.

(** [cJSON_New_Item] *)
Definition cJSON_New_Item (h : heap) : heap * ptr :=
  match malloc_fn sizeof_cJSON with
  | None => (h, None)
  | Some _ =>
    let a := fresh ({[ 0%nat ]} ∪ dom h) in
    (<[a := zero_item]> h, Some a)
  end.

(** [internal_cJSON_Delete]; releasing an item removes it from the store. *)
Fixpoint internal_cJSON_Delete (fuel : nat) (h : heap) (c : ptr) : run heap :=
  match fuel with
  | O => Timeout
  | S fuel' =>
    match c with
    | None => Done h
    | Some a =>
      let* it := load h c in
      let* h1 :=
        (if negb (is_reference it) && negb (is_null (child it))
         then internal_cJSON_Delete fuel' h (child it)
         else Done h) in
      let* _ := load h1 c in
      internal_cJSON_Delete fuel' (delete a h1) (next it)
    end
  end.

(** [cJSON_Delete]; every turn of the loop and every nested call releases
    an item, so the number of live items bounds the depth. *)
Definition cJSON_Delete (h : heap) (c : ptr) : run heap :=
  internal_cJSON_Delete (S (size h)) h c.

(** *** Duplication *)



End Store.

(** *** Detaching *)

(** The loop [while (c && (which > 0))] of [cJSON_DetachItemFromArray]:
    the final [c] and [previous]. *)
Fixpoint detach_walk (h : heap) (c previous : ptr) (which : nat)
  : run (ptr * ptr) :=
  match c, which with
  | Some _, S which' =>
    let* it := load h c in
    detach_walk h (next it) c which'
  | _, _ => Done (c, previous)
  end.

(** [cJSON_DetachItemFromArray] *)
Definition cJSON_DetachItemFromArray (h : heap) (array : ptr) (which : nat)
  : run (heap * ptr) :=
  let* arr := load h array in
  let* (c, previous) := detach_walk h (child arr) None which in
  match c with
  | None => Done (h, None)
  | Some _ =>
    let* it := load h c in
    let* h1 :=
      (if ptr_eqb c (child arr)
       then modify h array (set_child (next it))
       else modify h previous (set_next (next it))) in
    let* h2 := modify h1 c (set_next None) in
    Done (h2, c)
  end.

(** The loop [while (c && strcmp(c->name, name))] of
    [cJSON_DetachItemFromObject]: the final [c] and [i]. *)
Fixpoint find_name (fuel : nat) (h : heap) (c : ptr) (key : bytes) (i : nat)
  : run (ptr * nat) :=
  match fuel with
  | O => Timeout
  | S fuel' =>
    match c with
    | None => Done (None, i)
    | Some _ =>
      let* it := load h c in
      match name it with
      | None => Fault 0
      | Some n =>
        if strcmp_differs n key
        then find_name fuel' h (next it) key (S i)
        else Done (c, i)
      end
    end
  end.

(** [cJSON_DetachItemFromObject]; [fuel] bounds the turns of its loop. *)
Definition cJSON_DetachItemFromObject (fuel : nat) (h : heap) (object : ptr)
    (key : bytes) : run (heap * ptr) :=
  let* obj := load h object in
  let* (c, i) := find_name fuel h (child obj) key 0 in
  match c with
  | Some _ => cJSON_DetachItemFromArray h object i
  | None => Done (h, None)
  end.

(** *** Reading a store *)

(** [chain h c l]: following [next] from [c] visits the items at the
    addresses [l], in this order, and then reaches NULL. *)
Fixpoint chain (h : heap) (c : ptr) (l : list nat) : Prop :=
  match l with
  | [] => c = None
  | a :: l' => c = Some a /\ exists it, h !! a = Some it /\ chain h (next it) l'
  end.

(** Two items that differ at most in their links. *)
Definition same_payload (c d : cJSON) : Prop :=
  type c = type d /\ string c = string d /\ number c = number d
  /\ name c = name d /\ is_reference c = is_reference d
  /\ string_is_const c = string_is_const d.

(** The item at [a] answers to the key [key] / to another key. *)
Definition has_key (h : heap) (key : bytes) (a : nat) : Prop :=
  exists it n, h !! a = Some it /\ name it = Some n /\ cstring n = cstring key.
Definition has_other_key (h : heap) (key : bytes) (a : nat) : Prop :=
  exists it n, h !! a = Some it /\ name it = Some n /\ cstring n <> cstring key.

(** What detaching the [i]-th of the children [l] of the item at [parent]
    must leave behind: the returned item [a] with a NULL [next], the other
    children in their order, no item created, released or changed in its
    payload, and nothing touched outside the parent and its children. *)
Definition detached (h h' : heap) (parent : nat) (l : list nat) (i a : nat)
  : Prop :=
  (exists it, h' !! a = Some it /\ next it = None)
  /\ (exists par, h' !! parent = Some par /\ chain h' (child par) (delete i l))
  /\ (forall b it, h !! b = Some it ->
        exists it', h' !! b = Some it' /\ same_payload it it')
  /\ (forall b, h !! b = None -> h' !! b = None)
  /\ (forall b, b <> parent -> b ∉ l -> h' !! b = h !! b).

(** *** Trees *)

(** A subtree, by its items: the payload of the root (its links do not
    count) and the subtrees of its children, in order. *)
Inductive tree : Type :=
| Node (it : cJSON) (kids : list tree).

(** The item at address [a] is the root of the subtree [t]; the [next]
    field of the root is not looked at.  Items may be shared.
    [repr_chain h c ks]: the children chain starting at [c] holds the
    subtrees [ks]. *)
Inductive repr (h : heap) : nat -> tree -> Prop :=
| repr_node (a : nat) (it f : cJSON) (kids : list tree) :
    h !! a = Some it -> same_payload it f ->
    repr_chain h (child it) kids -> repr h a (Node f kids)
with repr_chain (h : heap) : ptr -> list tree -> Prop :=
| repr_chain_nil : repr_chain h None []
| repr_chain_cons (b : nat) (itb : cJSON) (k : tree) (ks : list tree) :
    h !! b = Some itb -> repr h b k -> repr_chain h (next itb) ks ->
    repr_chain h (Some b) (k :: ks).


(** The same for a subtree that shares nothing: [fp] is the set of the
    addresses of its items, each used once. *)
Inductive owns (h : heap) : nat -> tree -> gset nat -> Prop :=
| owns_node (a : nat) (it f : cJSON) (kids : list tree) (fpk : gset nat) :
    h !! a = Some it -> same_payload it f ->
    owns_chain h (child it) kids fpk -> a ∉ fpk ->
    owns h a (Node f kids) ({[ a ]} ∪ fpk)
with owns_chain (h : heap) : ptr -> list tree -> gset nat -> Prop :=
| owns_chain_nil : owns_chain h None [] ∅
| owns_chain_cons (b : nat) (itb : cJSON) (k : tree) (ks : list tree)
    (fp1 fp2 : gset nat) :
    h !! b = Some itb -> owns h b k fp1 ->
    owns_chain h (next itb) ks fp2 -> fp1 ## fp2 ->
    owns_chain h (Some b) (k :: ks) (fp1 ∪ fp2).

Scheme owns_mut := Induction for owns Sort Prop
  with owns_chain_mut := Induction for owns_chain Sort Prop.



(** The payload of the root of a subtree. *)
Definition root_item (t : tree) : cJSON :=
  match t with Node f _ => f end.






(** The step budget a subtree asks of [internal_cJSON_Duplicate]. *)
Fixpoint weight (t : tree) : nat :=
  match t with
  | Node _ kids =>
    S ((fix chain_weight (ks : list tree) : nat :=
          match ks with
          | [] => 1%nat
          | k :: ks' => S (Nat.max (weight k) (chain_weight ks'))
          end) kids)
  end.

Fixpoint chain_weight (ks : list tree) : nat :=
  match ks with
  | [] => 1%nat
  | k :: ks' => S (Nat.max (weight k) (chain_weight ks'))
  end.

(** What a run of [internal_cJSON_Duplicate] with [recurse] set, and of its
    loop over the children, has to deliver within the budget [fuel]. *)
Section DuplicateContract.

Variable malloc_fn : malloc_hook.
Variable sizeof_cJSON : Z.



End DuplicateContract.

(** *** A small object, used to run the operations on

    The object at address 1 owns three numbers under the keys a, b, c at
    the addresses 2, 3, 4. *)
Definition example_member (key : String.string) (v : NumberCodec.double)
    (nx : ptr)
  : cJSON :=
  mkItem nx None cJSON_Number None v (Some (bytes_of_string key)) false false.

Definition example_object : heap :=
  <[1%nat := mkItem None (Some 2%nat) cJSON_Object None 0%float None
                    false false]>
  (<[2%nat := example_member "a" 1%float (Some 3%nat)]>
  (<[3%nat := example_member "b" 2%float (Some 4%nat)]>
  (<[4%nat := example_member "c" 3%float None]> ∅))).

(** The same object as a subtree. *)
Definition example_tree : tree :=
  Node (mkItem None (Some 2%nat) cJSON_Object None 0%float None false false)
       [Node (example_member "a" 1%float (Some 3%nat)) [];
        Node (example_member "b" 2%float (Some 4%nat)) [];
        Node (example_member "c" 3%float None) []].

(** *** Reading arrays and objects *)

(** The loop of [cJSON_GetArraySize].  The counter is bounded by the number
    of live items, far below the range of [size_t]. *)
Fixpoint count_chain (fuel : nat) (h : heap) (c : ptr) (i : nat) : run nat :=
  match fuel with
  | O => Timeout
  | S fuel' =>
    match c with
    | None => Done i
    | Some _ =>
      let* it := load h c in
      count_chain fuel' h (next it) (S i)
    end
  end.

(** [cJSON_GetArraySize]; a chain without a cycle has at most [size h]
    items. *)
Definition cJSON_GetArraySize (h : heap) (array : ptr) : run nat :=
  let* arr := load h array in
  count_chain (S (size h)) h (child arr) 0.

(** The loop [while (c && item > 0)] of [cJSON_GetArrayItem]. *)
Fixpoint item_walk (h : heap) (c : ptr) (item : nat) : run ptr :=
  match c, item with
  | Some _, S item' =>
    let* it := load h c in
    item_walk h (next it) item'
  | _, _ => Done c
  end.

(** [cJSON_GetArrayItem] *)
Definition cJSON_GetArrayItem (h : heap) (array : ptr) (item : nat)
  : run ptr :=
  match array with
  | None => Done None
  | Some _ =>
    let* arr := load h array in
    item_walk h (child arr) item
  end.

(** The loop [while (c && strcmp(c->name, name))] of
    [cJSON_GetObjectItem]; [strcmp] reads through a NULL name. *)
Fixpoint object_walk (fuel : nat) (h : heap) (c : ptr) (key : bytes)
  : run ptr :=
  match fuel with
  | O => Timeout
  | S fuel' =>
    match c with
    | None => Done None
    | Some _ =>
      let* it := load h c in
      match name it with
      | None => Fault 0
      | Some n =>
        if strcmp_differs n key
        then object_walk fuel' h (next it) key
        else Done c
      end
    end
  end.

(** [cJSON_GetObjectItem] *)
Definition cJSON_GetObjectItem (h : heap) (object : ptr) (key : bytes)
  : run ptr :=
  match object with
  | None => Done None
  | Some _ =>
    let* obj := load h object in
    object_walk (S (size h)) h (child obj) key
  end.

(** [cJSON_HasObjectItem] *)
Definition cJSON_HasObjectItem (h : heap) (object : ptr) (key : bytes)
  : run bool :=
  let* c := cJSON_GetObjectItem h object key in
  Done (negb (is_null c)).

(** *** Adding items *)

(** [suffix_object] *)
Definition suffix_object (h : heap) (prev item : ptr) : run heap :=
  modify h prev (set_next item).

(** The loop [while (child->next)] of [cJSON_AddItemToArray]. *)
Fixpoint last_child (fuel : nat) (h : heap) (c : ptr) : run ptr :=
  match fuel with
  | O => Timeout
  | S fuel' =>
    let* it := load h c in
    match next it with
    | None => Done c
    | Some _ => last_child fuel' h (next it)
    end
  end.

(** [cJSON_AddItemToArray] *)
Definition cJSON_AddItemToArray (h : heap) (array item : ptr) : run heap :=
  if is_null item || is_null array then Done h
  else
    let* arr := load h array in
    match child arr with
    | None => modify h array (set_child item)
    | Some _ =>
      let* last := last_child (S (size h)) h (child arr) in
      suffix_object h last item
    end.

(** [cJSON_AddItemToObjectCS]: the name is taken over as it is. *)
Definition cJSON_AddItemToObjectCS (h : heap) (object : ptr)
    (key : option bytes) (item : ptr) : run heap :=
  if is_null item then Done h
  else
    let* h := modify h item (set_name key) in
    let* h := modify h item (set_string_is_const true) in
    cJSON_AddItemToArray h object item.

(** *** Inserting *)

(** [cJSON_InsertItemInArray] *)
Definition cJSON_InsertItemInArray (h : heap) (array : ptr) (which : nat)
    (newitem : ptr) : run heap :=
  let* arr := load h array in
  let* (c, previous) := detach_walk h (child arr) None which in
  match c with
  | None => cJSON_AddItemToArray h array newitem
  | Some _ =>
    let* h := modify h newitem (set_next c) in
    let* arr := load h array in
    if ptr_eqb c (child arr)
    then modify h array (set_child newitem)
    else modify h previous (set_next newitem)
  end.

Section Build.

Variable malloc_fn : malloc_hook.

(** [sizeof(cJSON)] *)
Variable sizeof_cJSON : Z.

(** [cJSON_AddItemToObject]: the name is copied; a copy that fails leaves
    the item without a name. *)
Definition cJSON_AddItemToObject (h : heap) (object : ptr)
    (key : option bytes) (item : ptr) : run heap :=
  if is_null item then Done h
  else
    let* _ := load h item in
    let* h := modify h item (set_name (cJSON_strdup malloc_fn key)) in
    cJSON_AddItemToArray h object item.

(** [create_reference]; [memcpy] copies every field of [item]. *)
Definition create_reference (h : heap) (item : ptr) : run (heap * ptr) :=
  let '(h, ref) := cJSON_New_Item malloc_fn sizeof_cJSON h in
  match ref with
  | None => Done (h, None)
  | Some _ =>
    let* it := load h item in
    let* h := modify h ref (fun _ => it) in
    let* h := modify h ref (set_name None) in
    let* h := modify h ref (set_is_reference true) in
    let* h := modify h ref (set_next None) in
    Done (h, ref)
  end.

(** [cJSON_AddItemReferenceToArray] *)
Definition cJSON_AddItemReferenceToArray (h : heap) (array item : ptr)
  : run heap :=
  let* (h, ref) := create_reference h item in
  cJSON_AddItemToArray h array ref.

(** [cJSON_AddItemReferenceToObject] *)
Definition cJSON_AddItemReferenceToObject (h : heap) (object : ptr)
    (key : option bytes) (item : ptr) : run heap :=
  let* (h, ref) := create_reference h item in
  cJSON_AddItemToObject h object key ref.

(** *** Deleting and replacing children *)

(** [cJSON_DeleteItemFromArray] *)
Definition cJSON_DeleteItemFromArray (h : heap) (array : ptr) (which : nat)
  : run heap :=
  let* (h, c) := cJSON_DetachItemFromArray h array which in
  cJSON_Delete h c.

(** [cJSON_DeleteItemFromObject] *)
Definition cJSON_DeleteItemFromObject (h : heap) (object : ptr) (key : bytes)
  : run heap :=
  let* (h, c) := cJSON_DetachItemFromObject (S (size h)) h object key in
  cJSON_Delete h c.

(** [cJSON_ReplaceItemInArray] *)
Definition cJSON_ReplaceItemInArray (h : heap) (array : ptr) (which : nat)
    (newitem : ptr) : run heap :=
  let* arr := load h array in
  let* (c, previous) := detach_walk h (child arr) None which in
  match c with
  | None => Done h
  | Some _ =>
    let* it := load h c in
    let* h := modify h newitem (set_next (next it)) in
    let* arr := load h array in
    let* h :=
      (if ptr_eqb c (child arr)
       then modify h array (set_child newitem)
       else modify h previous (set_next newitem)) in
    let* h := modify h c (set_next None) in
    cJSON_Delete h c
  end.

(** [cJSON_ReplaceItemInObject] *)
Definition cJSON_ReplaceItemInObject (h : heap) (object : ptr) (key : bytes)
    (newitem : ptr) : run heap :=
  let* obj := load h object in
  let* (c, i) := find_name (S (size h)) h (child obj) key 0 in
  match c with
  | None => Done h
  | Some _ =>
    let* _ := load h newitem in
    let* h := modify h newitem (set_name (cJSON_strdup malloc_fn (Some key))) in
    cJSON_ReplaceItemInArray h object i newitem
  end.

(** *** Creating items *)

(** [cJSON_CreateNull], [cJSON_CreateTrue], [cJSON_CreateFalse],
    [cJSON_CreateArray], [cJSON_CreateObject]: a new item of the type. *)
Definition create_typed (t : cJSON_type) (h : heap) : run (heap * ptr) :=
  let '(h, item) := cJSON_New_Item malloc_fn sizeof_cJSON h in
  match item with
  | None => Done (h, None)
  | Some _ =>
    let* h := modify h item (set_type t) in
    Done (h, item)
  end.

Definition cJSON_CreateNull := create_typed cJSON_NULL.
Definition cJSON_CreateTrue := create_typed cJSON_True.
Definition cJSON_CreateFalse := create_typed cJSON_False.
Definition cJSON_CreateArray := create_typed cJSON_Array.
Definition cJSON_CreateObject := create_typed cJSON_Object.

(** [cJSON_CreateBool] *)
Definition cJSON_CreateBool (b : bool) (h : heap) : run (heap * ptr) :=
  create_typed (if b then cJSON_True else cJSON_False) h.

(** [cJSON_CreateNumber] *)
Definition cJSON_CreateNumber (num : NumberCodec.double) (h : heap)
  : run (heap * ptr) :=
  let '(h, item) := cJSON_New_Item malloc_fn sizeof_cJSON h in
  match item with
  | None => Done (h, None)
  | Some _ =>
    let* h := modify h item (set_type cJSON_Number) in
    let* h := modify h item (set_number num) in
    Done (h, item)
  end.

(** [cJSON_CreateString] and [cJSON_CreateRaw], which differ in the type
    they set. *)
Definition create_text (t : cJSON_type) (text : option bytes) (h : heap)
  : run (heap * ptr) :=
  let '(h, item) := cJSON_New_Item malloc_fn sizeof_cJSON h in
  match item with
  | None => Done (h, None)
  | Some _ =>
    let* h := modify h item (set_type t) in
    let* h := modify h item (set_string (cJSON_strdup malloc_fn text)) in
    let* it := load h item in
    match string it with
    | None =>
      let* h := cJSON_Delete h item in
      Done (h, None)
    | Some _ => Done (h, item)
    end
  end.

Definition cJSON_CreateString := create_text cJSON_String.
Definition cJSON_CreateRaw := create_text cJSON_Raw.

(** The loop of [cJSON_CreateDoubleArray] from index [i] on, with [n] turns
    to go; reading [numbers] at an index it does not have is a fault. *)
Fixpoint double_array_loop (n : nat) (h : heap) (a : ptr)
    (numbers : list NumberCodec.double) (i : nat) (p : ptr)
  : run (heap * ptr) :=
  match n with
  | O => Done (h, a)
  | S n' =>
    match numbers !! i with
    | None => Fault i
    | Some num =>
      let* (h, n) := cJSON_CreateNumber num h in
      match n with
      | None =>
        let* h := cJSON_Delete h a in
        Done (h, None)
      | Some _ =>
        let* h :=
          (match i with
           | O => modify h a (set_child n)
           | S _ => suffix_object h p n
           end) in
        double_array_loop n' h a numbers (S i) n
      end
    end
  end.

(** [cJSON_CreateDoubleArray] *)
Definition cJSON_CreateDoubleArray (numbers : list NumberCodec.double)
    (count : nat) (h : heap) : run (heap * ptr) :=
  let* (h, a) := cJSON_CreateArray h in
  match a with
  | None => Done (h, None)
  | Some _ => double_array_loop count h a numbers 0 None
  end.

(** The loop of [cJSON_CreateStringArray]. *)
Fixpoint string_array_loop (n : nat) (h : heap) (a : ptr)
    (strings : list (option bytes)) (i : nat) (p : ptr)
  : run (heap * ptr) :=
  match n with
  | O => Done (h, a)
  | S n' =>
    match strings !! i with
    | None => Fault i
    | Some str =>
      let* (h, n) := cJSON_CreateString str h in
      match n with
      | None =>
        let* h := cJSON_Delete h a in
        Done (h, None)
      | Some _ =>
        let* h :=
          (match i with
           | O => modify h a (set_child n)
           | S _ => suffix_object h p n
           end) in
        string_array_loop n' h a strings (S i) n
      end
    end
  end.

(** [cJSON_CreateStringArray] *)
Definition cJSON_CreateStringArray (strings : list (option bytes))
    (count : nat) (h : heap) : run (heap * ptr) :=
  let* (h, a) := cJSON_CreateArray h in
  match a with
  | None => Done (h, None)
  | Some _ => string_array_loop count h a strings 0 None
  end.

End Build.

(** *** Reading a store, continued *)

(** From [h] to [h'] no item was created or released and no payload
    changed: at most links were redirected. *)
Definition links_only (h h' : heap) : Prop :=
  (forall b it, h !! b = Some it ->
     exists it', h' !! b = Some it' /\ same_payload it it')
  /\ (forall b, h !! b = None -> h' !! b = None).

(** No item of a subtree is a reference. *)
Fixpoint no_reference (t : tree) : Prop :=
  match t with
  | Node f ks =>
    is_reference f = false
    /\ (fix kids (ks : list tree) : Prop :=
          match ks with
          | [] => True
          | k :: ks' => no_reference k /\ kids ks'
          end) ks
  end.

Fixpoint no_reference_chain (ks : list tree) : Prop :=
  match ks with
  | [] => True
  | k :: ks' => no_reference k /\ no_reference_chain ks'
  end.

(** The item at [b] is a number holding [numbers[k]]. *)
Definition holds_number (numbers : list NumberCodec.double) (h : heap)
    (k b : nat) : Prop :=
  exists itb, h !! b = Some itb /\ type itb = cJSON_Number
              /\ numbers !! k = Some (number itb).

(** The contract of [duplicate_ok] and [children_ok] with the account of
    the addresses in use: the store grows by the footprint of the copy and
    by nothing else. *)
Section DuplicateExact.

Variable malloc_fn : malloc_hook.
Variable sizeof_cJSON : Z.



End DuplicateExact.

End Tree.

(** ** The parser ([parse_value], [cJSON_ParseWithOpts]) *)

Module Parser.

Import Tree.

(** What the parsing functions share: the item store and the pointer that
    [ep] points to ([None] is NULL). *)
Record pstate := mkP {
  store : heap;
  ep : option nat
}.

(** [skip]: the loop, and the function on a pointer that may be NULL. *)
Fixpoint skip_loop (fuel : nat) (s : bytes) (i : nat) : nat :=
  match fuel with
  | O => i
  | S fuel' =>
    if negb (byte_at s i =? 0) && (byte_at s i <=? 32)
    then skip_loop fuel' s (S i)
    else i
  end.

Definition skip (s : bytes) (p : option nat) : option nat :=
  option_map (skip_loop (List.length s) s) p.

(** [!strncmp(value, word, n)] for a word of [n] bytes. *)
Fixpoint starts_with (s : bytes) (value : nat) (word : bytes) : bool :=
  match word with
  | [] => true
  | c :: word' => (byte_at s value =? c) && starts_with s (S value) word'
  end.

Section Parse.

Variable malloc_fn : malloc_hook.
Variable sizeof_cJSON : Z.

(** [strtod] of the C library: the value read at a position of the text
    and the position behind it, which is the position itself when nothing
    was converted. *)
Variable strtod : bytes -> nat -> NumberCodec.double * nat.

(** [parse_number] *)
Definition parse_number (st : pstate) (item : ptr) (s : bytes) (num : nat)
  : run (pstate * option nat) :=
  let '(number, endpointer) := strtod s num in
  if (num =? endpointer)%nat then Done (st, None)
  else
    let* h := modify (store st) item
                (fun c => set_type cJSON_Number (set_number number c)) in
    Done (mkP h (ep st), Some endpointer).

(** [parse_string], with its effect on the item.  Strings are held by
    value: after a failure the item is left as it was, where the source
    leaves it pointing at the released buffer. *)
Definition parse_string (st : pstate) (item : ptr) (s : bytes) (str : nat)
  : run (pstate * option nat) :=
  match StringCodec.parse_string malloc_fn s str with
  | StringCodec.POk out end_ptr =>
    let* h := modify (store st) item
                (fun c => set_type cJSON_String (set_string (Some out) c)) in
    Done (mkP h (ep st), Some end_ptr)
  | StringCodec.PFail (Some e) => Done (mkP (store st) (Some e), None)
  | StringCodec.PFail None => Done (st, None)
  end.

(** The label [fail] of [parse_array]: release [item->child]. *)
Definition fail_array (st : pstate) (item : ptr)
  : run (pstate * option nat) :=
  let* it := load (store st) item in
  match child it with
  | None => Done (st, None)
  | Some _ =>
    let* h := cJSON_Delete (store st) (child it) in
    let* h := modify h item (set_child None) in
    Done (mkP h (ep st), None)
  end.

(** The label [fail] of [parse_object]: release the local [child]. *)
Definition fail_object (st : pstate) (item child : ptr)
  : run (pstate * option nat) :=
  let* it := load (store st) item in
  match Tree.child it with
  | None => Done (st, None)
  | Some _ =>
    let* h := cJSON_Delete (store st) child in
    let* h := modify h item (set_child None) in
    Done (mkP h (ep st), None)
  end.

(** [child->name = child->string; child->string = NULL;] *)
Definition string_to_name (c : cJSON) : cJSON :=
  set_string None (set_name (string c) c).

(** [parse_value], [parse_array] and [parse_object], with the loops of the
    latter two over the elements after the first.  [fuel] bounds the depth
    of the calls and the turns of the loops together. *)
Fixpoint parse_value (fuel : nat) (st : pstate) (item : ptr) (s : bytes)
    (value : option nat) : run (pstate * option nat) :=
  match fuel with
  | O => Timeout
  | S fuel' =>
    match value with
    | None => Done (st, None)
    | Some v =>
      if starts_with s v (bytes_of_string "null") then
        let* h := modify (store st) item (set_type cJSON_NULL) in
        Done (mkP h (ep st), Some (v + 4)%nat)
      else if starts_with s v (bytes_of_string "false") then
        let* h := modify (store st) item (set_type cJSON_False) in
        Done (mkP h (ep st), Some (v + 5)%nat)
      else if starts_with s v (bytes_of_string "true") then
        let* h := modify (store st) item (set_type cJSON_True) in
        Done (mkP h (ep st), Some (v + 4)%nat)
      else if byte_at s v =? QUOTE then parse_string st item s v
      else if (byte_at s v =? ch "-")
              || ((ch "0" <=? byte_at s v) && (byte_at s v <=? ch "9"))
      then parse_number st item s v
      else if byte_at s v =? ch "[" then parse_array fuel' st item s v
      else if byte_at s v =? ch "{" then parse_object fuel' st item s v
      else Done (mkP (store st) (Some v), None)
    end
  end

with parse_array (fuel : nat) (st : pstate) (item : ptr) (s : bytes)
    (value : nat) : run (pstate * option nat) :=
  match fuel with
  | O => Timeout
  | S fuel' =>
    if negb (byte_at s value =? ch "[")
    then fail_array (mkP (store st) (Some value)) item
    else
      let* h := modify (store st) item (set_type cJSON_Array) in
      let value := skip_loop (List.length s) s (S value) in
      if byte_at s value =? ch "]" then Done (mkP h (ep st), Some (S value))
      else
        let '(h, child) := cJSON_New_Item malloc_fn sizeof_cJSON h in
        let* h := modify h item (set_child child) in
        match child with
        | None => fail_array (mkP h (ep st)) item
        | Some _ =>
          let* (st1, r) :=
            parse_value fuel' (mkP h (ep st)) child s (skip s (Some value)) in
          match skip s r with
          | None => fail_array st1 item
          | Some value => parse_array_rest fuel' st1 item child s value
          end
        end
  end

with parse_array_rest (fuel : nat) (st : pstate) (item child : ptr)
    (s : bytes) (value : nat) : run (pstate * option nat) :=
  match fuel with
  | O => Timeout
  | S fuel' =>
    if byte_at s value =? ch "," then
      let '(h, new_item) := cJSON_New_Item malloc_fn sizeof_cJSON (store st) in
      match new_item with
      | None => fail_array (mkP h (ep st)) item
      | Some _ =>
        let* h := modify h child (set_next new_item) in
        let child := new_item in
        let* (st1, r) :=
          parse_value fuel' (mkP h (ep st)) child s
                      (skip s (Some (S value))) in
        match skip s r with
        | None => fail_array st1 item
        | Some value => parse_array_rest fuel' st1 item child s value
        end
      end
    else if byte_at s value =? ch "]" then Done (st, Some (S value))
    else fail_array (mkP (store st) (Some value)) item
  end

with parse_object (fuel : nat) (st : pstate) (item : ptr) (s : bytes)
    (value : nat) : run (pstate * option nat) :=
  match fuel with
  | O => Timeout
  | S fuel' =>
    if negb (byte_at s value =? ch "{")
    then fail_object (mkP (store st) (Some value)) item None
    else
      let* h := modify (store st) item (set_type cJSON_Object) in
      let value := skip_loop (List.length s) s (S value) in
      if byte_at s value =? ch "}" then Done (mkP h (ep st), Some (S value))
      else
        let '(h, child) := cJSON_New_Item malloc_fn sizeof_cJSON h in
        let* h := modify h item (set_child child) in
        match child with
        | None => fail_object (mkP h (ep st)) item child
        | Some _ =>
          parse_member fuel' (mkP h (ep st)) item child s
                       (skip s (Some value))
        end
  end

(** A member of an object: the key, the colon and the value parsed into
    [child], then the test of the loop for a further member. *)
with parse_member (fuel : nat) (st : pstate) (item child : ptr)
    (s : bytes) (value : option nat) : run (pstate * option nat) :=
  match fuel with
  | O => Timeout
  | S fuel' =>
    let* (st1, r) :=
      match value with
      | None => Fault 0
      | Some v => parse_string st child s v
      end in
    match skip s r with
    | None => fail_object st1 item child
    | Some value =>
      let* h := modify (store st1) child string_to_name in
      if negb (byte_at s value =? ch ":")
      then fail_object (mkP h (Some value)) item child
      else
        let* (st2, r) :=
          parse_value fuel' (mkP h (ep st1)) child s
                      (skip s (Some (S value))) in
        match skip s r with
        | None => fail_object st2 item child
        | Some value =>
          if byte_at s value =? ch "," then
            let '(h, new_item) :=
              cJSON_New_Item malloc_fn sizeof_cJSON (store st2) in
            match new_item with
            | None => fail_object (mkP h (ep st2)) item child
            | Some _ =>
              let* h := modify h child (set_next new_item) in
              parse_member fuel' (mkP h (ep st2)) item new_item s
                           (skip s (Some (S value)))
            end
          else if byte_at s value =? ch "}" then Done (st2, Some (S value))
          else fail_object (mkP (store st2) (Some value)) item child
        end
    end
  end.

(** The step budget given to a text. *)
Definition parse_fuel (s : bytes) : nat := (2 * List.length s + 4)%nat.

(** What a call of [cJSON_ParseWithOpts] leaves behind: the returned item,
    the store, the global error pointer and the caller's variable
    [*return_parse_end] ([None] when the caller passed no such variable,
    otherwise its value, NULL or a position). *)
Record parsed := mkParsed {
  root : ptr;
  items : heap;
  global_ep : option nat;
  return_parse_end : option (option nat)
}.

(** Assigning through [ep], which points at the caller's variable when
    there is one and at [global_ep] otherwise. *)
Definition assign_ep (r : parsed) (v : option nat) : parsed :=
  match return_parse_end r with
  | Some _ => mkParsed (root r) (items r) (global_ep r) (Some v)
  | None => mkParsed (root r) (items r) v None
  end.

(** [cJSON_ParseWithOpts]; [value] is the text, [with_end] tells whether
    the caller passed [return_parse_end], and [global_ep0] is the global
    error pointer before the call. *)
Definition cJSON_ParseWithOpts (h : heap) (global_ep0 : option nat)
    (value : bytes) (with_end : bool) (require_null_terminated : bool)
  : run parsed :=
  let caller := if with_end then Some None else None in
  let '(h, c) := cJSON_New_Item malloc_fn sizeof_cJSON h in
  let r0 := assign_ep (mkParsed None h global_ep0 caller) None in
  match c with
  | None => Done r0
  | Some _ =>
    let* (st, end_) :=
      parse_value (parse_fuel value) (mkP h None) c value
                  (skip value (Some 0%nat)) in
    match end_ with
    | None =>
      let* h := internal_cJSON_Delete (S (size (store st))) (store st) c in
      Done (assign_ep (mkParsed None h global_ep0 caller) (ep st))
    | Some e =>
      if require_null_terminated
         && negb (byte_at value (skip_loop (List.length value) value e) =? 0)
      then
        let* h := internal_cJSON_Delete (S (size (store st))) (store st) c in
        Done (assign_ep (mkParsed None h global_ep0 caller)
                (Some (skip_loop (List.length value) value e)))
      else
        let e := if require_null_terminated
                 then skip_loop (List.length value) value e else e in
        let r := assign_ep (mkParsed c (store st) global_ep0 caller)
                           (ep st) in
        Done (if with_end
              then mkParsed c (store st) (global_ep r) (Some (Some e))
              else r)
    end
  end.

(** The value of the error pointer the caller looks at afterwards. *)
Definition error_pointer (r : parsed) : option nat :=
  match return_parse_end r with
  | Some v => v
  | None => global_ep r
  end.

End Parse.

Section ParseEntry.

Variable malloc_fn : malloc_hook.
Variable sizeof_cJSON : Z.
Variable strtod : bytes -> nat -> NumberCodec.double * nat.

(** [cJSON_Parse] *)
Definition cJSON_Parse (h : heap) (global_ep0 : option nat) (value : bytes)
  : run parsed :=
  cJSON_ParseWithOpts malloc_fn sizeof_cJSON strtod h global_ep0 value false
    false.

End ParseEntry.

(** A byte that [skip] passes over. *)
Definition blank (c : byte) : Prop := c <> 0 /\ c <= 32.

(** A text at which [skip] stops at once: its first byte is the terminator
    or above 32; the empty list stands for the terminator. *)
Definition stops (rest : bytes) : Prop :=
  match rest with
  | [] => True
  | g :: _ => g = 0 \/ 32 < g
  end.

(** The three literal names and the types [parse_value] gives them. *)
Definition literal_name (t : cJSON_type) : option bytes :=
  match t with
  | cJSON_NULL => Some (bytes_of_string "null")
  | cJSON_False => Some (bytes_of_string "false")
  | cJSON_True => Some (bytes_of_string "true")
  | _ => None
  end.

(** Whether the text that follows the value holds a byte before its
    terminator. *)
Definition garbage (rest : bytes) : bool :=
  match rest with
  | [] => false
  | g :: _ => negb (g =? 0)
  end.

End Parser.

(** ** The printer without a print buffer ([print_value], [print_array],
    [print_object] with [p == NULL]) *)

Module Printer.

Import Tree.

Section Print.

(** Width of [size_t] in bits. *)
Variable w : N.
Variable malloc_fn : malloc_hook.

(** [sprintf] of the C library, by the text it writes. *)
Variable sprintf : NumberCodec.format -> bytes.

(** [sizeof(unsigned char * )] *)
Variable sizeof_pointer : Z.

(** [strlen] *)
Definition strlen (s : bytes) : Z := Z.of_nat (List.length (cstring s)).

(** The run of tabulators written by [for (j = 0; j < depth; j++)]. *)
Definition tabs (depth : Z) : bytes := repeat 9 (Z.to_nat depth).

(** [print_string] with no print buffer. *)
Definition print_string (it : cJSON) : option bytes :=
  snd (StringCodec.print_string_ptr w malloc_fn (string it) None).

(** [out = malloc_fn(len)], followed, when [out] is not NULL, by writing
    the C string [text] through it; writing more than [len] bytes is a
    fault at the end of the block. *)
Definition write_out (len : Z) (text : bytes) : run (option bytes) :=
  match malloc_fn len with
  | None => Done None
  | Some _ =>
    if len <? Z.of_nat (List.length text) + 1 then Fault (Z.to_nat len)
    else Done (Some text)
  end.

(** The flag [fail] after the loop over the children: the printed texts
    when every one was printed. *)
Fixpoint all_printed {A : Type} (entries : list (option A))
  : option (list A) :=
  match entries with
  | [] => Some []
  | None :: _ => None
  | Some e :: rest => option_map (cons e) (all_printed rest)
  end.

(** The loop [for (i = 0; i < numentries; i++)] that composes an array: an
    entry is followed by a comma unless [i == numentries - 1]. *)
Fixpoint compose_array (fmt : bool) (entries : list bytes) : bytes :=
  match entries with
  | [] => []
  | e :: rest =>
    cstring e
    ++ match rest with
       | [] => []
       | _ :: _ => [ch ","] ++ (if fmt then [ch " "] else [])
       end
    ++ compose_array fmt rest
  end.

(** The same loop of [print_object], over the names and the entries. *)
Fixpoint compose_object (fmt : bool) (depth : Z)
    (members : list (bytes * bytes)) : bytes :=
  match members with
  | [] => []
  | (name, entry) :: rest =>
    (if fmt then tabs depth else [])
    ++ cstring name ++ [ch ":"] ++ (if fmt then [9] else [])
    ++ cstring entry
    ++ match rest with [] => [] | _ :: _ => [ch ","] end
    ++ (if fmt then [10] else [])
    ++ compose_object fmt depth rest
  end.

(** Both printed, or the loop fails. *)
Definition both_printed (m : option bytes * option bytes)
  : option (bytes * bytes) :=
  match m with
  | (Some name, Some entry) => Some (name, entry)
  | _ => None
  end.

(** [print_array] after the children were printed by [loop], which is not
    looked at when there are none. *)
Definition print_array (h : heap) (it : cJSON) (fmt : bool)
    (loop : run (list (option bytes) * Z)) : run (option bytes) :=
  let* numentries := count_chain (S (size h)) h (child it) 0 in
  match numentries with
  | O =>
    match malloc_fn 3 with
    | Some _ => Done (Some (bytes_of_string "[]"))
    | None => Done None
    end
  | S _ =>
    match malloc_fn
            (PrintBuffer.wrap w (Z.of_nat numentries * sizeof_pointer)) with
    | None => Done None
    | Some _ =>
      let* (entries, len) := loop in
      match all_printed entries with
      | None => Done None
      | Some texts =>
        write_out len ([ch "["] ++ compose_array fmt texts ++ [ch "]"])
      end
    end
  end.

(** [print_object] after the members were printed by [loop]; [depth] is the
    argument of the function. *)
Definition print_object (h : heap) (it : cJSON) (depth : Z) (fmt : bool)
    (loop : run (list (option bytes * option bytes) * Z))
  : run (option bytes) :=
  let* numentries := count_chain (S (size h)) h (child it) 0 in
  match numentries with
  | O =>
    write_out (if fmt then PrintBuffer.wrap w (depth + 4) else 3)
      ([ch "{"] ++ (if fmt then [10] ++ tabs depth else []) ++ [ch "}"])
  | S _ =>
    match malloc_fn
            (PrintBuffer.wrap w (Z.of_nat numentries * sizeof_pointer)) with
    | None => Done None
    | Some _ =>
      match malloc_fn
              (PrintBuffer.wrap w (Z.of_nat numentries * sizeof_pointer))
      with
      | None => Done None
      | Some _ =>
        let depth := PrintBuffer.wrap w (depth + 1) in
        let* (entries, len) := loop in
        match all_printed (map both_printed entries) with
        | None => Done None
        | Some members =>
          write_out len
            ([ch "{"] ++ (if fmt then [10] else [])
             ++ compose_object fmt depth members
             ++ (if fmt then tabs (PrintBuffer.wrap w (depth - 1)) else [])
             ++ [ch "}"])
        end
      end
    end
  end.

(** [print_value] with [p == NULL], and the loops [while (child && !fail)]
    of [print_array] and [print_object], which carry [len].  [fuel] bounds
    the depth of the calls and the turns of the loops together. *)
Fixpoint print_value (fuel : nat) (h : heap) (item : ptr) (depth : Z)
    (fmt : bool) : run (option bytes) :=
  match fuel with
  | O => Timeout
  | S fuel' =>
    match item with
    | None => Done None
    | Some _ =>
      let* it := load h item in
      match type it with
      | cJSON_NULL =>
        Done (cJSON_strdup malloc_fn (Some (bytes_of_string "null")))
      | cJSON_False =>
        Done (cJSON_strdup malloc_fn (Some (bytes_of_string "false")))
      | cJSON_True =>
        Done (cJSON_strdup malloc_fn (Some (bytes_of_string "true")))
      | cJSON_Number =>
        Done (snd (NumberCodec.print_number w malloc_fn sprintf (number it)
                     None))
      | cJSON_Raw => Done (cJSON_strdup malloc_fn (string it))
      | cJSON_String => Done (print_string it)
      | cJSON_Array =>
        print_array h it fmt
          (array_entries fuel' h (child it) (PrintBuffer.wrap w (depth + 1))
                         fmt 5)
      | cJSON_Object =>
        print_object h it depth fmt
          (object_entries fuel' h (child it) (PrintBuffer.wrap w (depth + 1))
             fmt
             (if fmt then PrintBuffer.wrap w (7 + PrintBuffer.wrap w (depth + 1))
              else 7))
      | cJSON_Invalid => Done None
      end
    end
  end

with array_entries (fuel : nat) (h : heap) (child : ptr) (depth : Z)
    (fmt : bool) (len : Z) : run (list (option bytes) * Z) :=
  match fuel with
  | O => Timeout
  | S fuel' =>
    match child with
    | None => Done ([], len)
    | Some _ =>
      let* ret := print_value fuel' h child depth fmt in
      match ret with
      | None => Done ([None], len)
      | Some text =>
        let len :=
          PrintBuffer.wrap w
            (len + strlen text + 2 + (if fmt then 1 else 0)) in
        let* ch := load h child in
        let* (rest, len) :=
          array_entries fuel' h (next ch) depth fmt len in
        Done (Some text :: rest, len)
      end
    end
  end

with object_entries (fuel : nat) (h : heap) (child : ptr) (depth : Z)
    (fmt : bool) (len : Z)
  : run (list (option bytes * option bytes) * Z) :=
  match fuel with
  | O => Timeout
  | S fuel' =>
    match child with
    | None => Done ([], len)
    | Some _ =>
      let* ch := load h child in
      let str := snd (StringCodec.print_string_ptr w malloc_fn (name ch)
                        None) in
      let* ret := print_value fuel' h child depth fmt in
      match str, ret with
      | Some s, Some text =>
        let len :=
          PrintBuffer.wrap w
            (len + strlen text + strlen s + 2
             + (if fmt then 2 + depth else 0)) in
        let* (rest, len) :=
          object_entries fuel' h (next ch) depth fmt len in
        Done ((str, ret) :: rest, len)
      | _, _ => Done ([(str, ret)], len)
      end
    end
  end.

(** The step budget of a store: twice its items. *)
Definition print_fuel (h : heap) : nat := (2 * size h + 2)%nat.

(** [cJSON_Print] *)
Definition cJSON_Print (h : heap) (item : ptr) : run (option bytes) :=
  print_value (print_fuel h) h item 0 true.

(** [cJSON_PrintUnformatted] *)
Definition cJSON_PrintUnformatted (h : heap) (item : ptr)
  : run (option bytes) :=
  print_value (print_fuel h) h item 0 false.

(** *** The text of a subtree *)

(** The text of a key or of a String item. *)
Definition quoted (s : option bytes) : bytes :=
  match s with
  | Some s => [QUOTE] ++ StringCodec.print_escaped s ++ [QUOTE]
  | None => [QUOTE; QUOTE]
  end.

(** The text between two elements and after a member. *)
Definition comma {A : Type} (rest : list A) (after : bytes) : bytes :=
  match rest with
  | [] => []
  | _ :: _ => [ch ","] ++ after
  end.

(** The JSON text of a subtree that is [depth] levels below the printed
    item.  Without [fmt] it holds no whitespace: the elements of an array
    and the members of an object are separated by commas, a member is its
    quoted key, a colon and its value.  With [fmt] a space follows the comma
    in an array, every member of an object is on a line of its own, indented
    with one tabulator per level and with a tabulator after its colon, and
    the closing brace is indented as the line the object starts on. *)
Fixpoint render (fmt : bool) (depth : nat) (t : tree) : bytes :=
  match t with
  | Node f kids =>
    match type f with
    | cJSON_NULL => bytes_of_string "null"
    | cJSON_False => bytes_of_string "false"
    | cJSON_True => bytes_of_string "true"
    | cJSON_Number =>
      NumberCodec.case_text sprintf (number f)
        (NumberCodec.select_case (number f))
    | cJSON_Raw => match string f with Some s => cstring s | None => [] end
    | cJSON_String => quoted (string f)
    | cJSON_Array =>
      [ch "["]
      ++ (fix elements (ks : list tree) : bytes :=
            match ks with
            | [] => []
            | k :: ks' =>
              render fmt (S depth) k
              ++ comma ks' (if fmt then [ch " "] else [])
              ++ elements ks'
            end) kids
      ++ [ch "]"]
    | cJSON_Object =>
      [ch "{"] ++ (if fmt then [10] else [])
      ++ (fix members (ks : list tree) : bytes :=
            match ks with
            | [] => []
            | k :: ks' =>
              (if fmt then repeat 9 (S depth) else [])
              ++ quoted (name (root_item k)) ++ [ch ":"]
              ++ (if fmt then [9] else [])
              ++ render fmt (S depth) k
              ++ comma ks' []
              ++ (if fmt then [10] else [])
              ++ members ks'
            end) kids
      ++ (if fmt then repeat 9 depth else [])
      ++ [ch "}"]
    | cJSON_Invalid => []
    end
  end.

(** The two local functions of [render], where [depth] is the level of the
    elements and of the members. *)
Fixpoint render_elements (fmt : bool) (depth : nat) (ks : list tree)
  : bytes :=
  match ks with
  | [] => []
  | k :: ks' =>
    render fmt depth k
    ++ comma ks' (if fmt then [ch " "] else [])
    ++ render_elements fmt depth ks'
  end.

Fixpoint render_members (fmt : bool) (depth : nat) (ks : list tree)
  : bytes :=
  match ks with
  | [] => []
  | k :: ks' =>
    (if fmt then repeat 9 depth else [])
    ++ quoted (name (root_item k)) ++ [ch ":"]
    ++ (if fmt then [9] else [])
    ++ render fmt depth k
    ++ comma ks' []
    ++ (if fmt then [10] else [])
    ++ render_members fmt depth ks'
  end.

(** A string the printer can copy: unsigned characters other than the
    terminator. *)
Definition text_ok (s : option bytes) : Prop :=
  match s with
  | Some s => Forall StringCodec.valid_byte s
  | None => True
  end.

(** A subtree the printer has a text for: every item that is printed has
    one of the eight types, a Raw item has its text, the strings of the
    String items and the names of the members of the objects are strings
    the printer can copy, and [sprintf] writes no terminator into the text
    of a number. *)
Fixpoint printable (t : tree) : Prop :=
  match t with
  | Node f kids =>
    match type f with
    | cJSON_NULL | cJSON_False | cJSON_True => True
    | cJSON_Number =>
      Forall (fun c => c <> 0)
             (NumberCodec.case_text sprintf (number f)
                (NumberCodec.select_case (number f)))
    | cJSON_Raw => string f <> None
    | cJSON_String => text_ok (string f)
    | cJSON_Array =>
      (fix all (ks : list tree) : Prop :=
         match ks with
         | [] => True
         | k :: ks' => printable k /\ all ks'
         end) kids
    | cJSON_Object =>
      (fix all (ks : list tree) : Prop :=
         match ks with
         | [] => True
         | k :: ks' =>
           (text_ok (name (root_item k)) /\ printable k) /\ all ks'
         end) kids
    | cJSON_Invalid => False
    end
  end.

Fixpoint printable_elements (ks : list tree) : Prop :=
  match ks with
  | [] => True
  | k :: ks' => printable k /\ printable_elements ks'
  end.

Fixpoint printable_members (ks : list tree) : Prop :=
  match ks with
  | [] => True
  | k :: ks' =>
    (text_ok (name (root_item k)) /\ printable k) /\ printable_members ks'
  end.

(** How deep the arrays and the objects of a subtree are nested: what
    [depth] grows by while the subtree is printed. *)
Fixpoint levels (t : tree) : nat :=
  match t with
  | Node f kids =>
    match type f with
    | cJSON_Array | cJSON_Object =>
      S ((fix deepest (ks : list tree) : nat :=
            match ks with
            | [] => 0%nat
            | k :: ks' => Nat.max (levels k) (deepest ks')
            end) kids)
    | _ => 0%nat
    end
  end.

Fixpoint deepest (ks : list tree) : nat :=
  match ks with
  | [] => 0%nat
  | k :: ks' => Nat.max (levels k) (deepest ks')
  end.

(** What the loops of [print_array] and [print_object] add to [len]. *)
Fixpoint elements_room (fmt : bool) (depth : nat) (ks : list tree) : Z :=
  match ks with
  | [] => 0
  | k :: ks' =>
    Z.of_nat (List.length (render fmt depth k)) + 2 + (if fmt then 1 else 0)
    + elements_room fmt depth ks'
  end.

Fixpoint members_room (fmt : bool) (depth : nat) (ks : list tree) : Z :=
  match ks with
  | [] => 0
  | k :: ks' =>
    Z.of_nat (List.length (render fmt depth k))
    + Z.of_nat (List.length (quoted (name (root_item k)))) + 2
    + (if fmt then 2 + Z.of_nat depth else 0)
    + members_room fmt depth ks'
  end.

End Print.

End Printer.

(** * Verified properties *)

(** ** The print buffer *)

Section EnsureFacts.

Import PrintBuffer.

Variable w : N.
Variable malloc_fn : malloc_hook.

Lemma size_modulus_pos : 0 < size_modulus w.
Proof. unfold size_modulus. apply Z.pow_pos_nonneg; lia. Qed.

Lemma wrap_small (x : Z) : 0 <= x < size_modulus w -> wrap w x = x.
Proof. intros H. unfold wrap. now apply Z.mod_small. Qed.

Lemma max_spec (a b : Z) : PrintBuffer.max a b = Z.max a b.
Proof. unfold PrintBuffer.max. destruct (Z.gtb_spec a b); lia. Qed.

(** As long as [offset + needed] itself fits [size_t], [ensure] behaves as
    its comment promises. *)
Lemma ensure_spec (p : printbuffer) (old : bytes) (n : Z) :
  buffer p = Some old ->
  0 <= offset p + n < size_modulus w ->
  ensure w malloc_fn p n =
    if offset p + n <=? length p then (p, Some (offset p))
    else if noalloc p then (p, None)
    else
      let newsize := wrap w (Z.max (length p) (offset p + n) * 2) in
      if newsize <=? offset p + n then (p, None)
      else match malloc_fn newsize with
           | None => (mkPB None 0 (offset p) (noalloc p), None)
           | Some newbuffer =>
             (mkPB (Some (take (Z.to_nat (length p)) old
                          ++ drop (Z.to_nat (length p)) newbuffer))
                   newsize (offset p) (noalloc p),
              Some (offset p))
           end.
Proof.
  intros Hb Hr. unfold ensure. rewrite Hb.
  replace (n + offset p) with (offset p + n) by lia.
  rewrite (wrap_small _ Hr), max_spec. reflexivity.
Qed.

End EnsureFacts.

(** C5.  On a 32-bit [size_t], a request of [2^32 - 1] more bytes on a
    five-byte buffer at offset 1 in no-allocation mode is granted: the sum
    [needed + offset] wraps to 0, the test [needed <= length] passes and the
    pointer [buffer + offset] is returned with the buffer unchanged, although
    offset plus request exceeds the capacity. *)
Theorem ensure_wraps_offset_plus_needed :
  let p := PrintBuffer.mkPB (Some [0; 0; 0; 0; 0]) 5 1 true in
  forall malloc_fn : malloc_hook,
    PrintBuffer.ensure 32 malloc_fn p (2 ^ 32 - 1) = (p, Some 1)
    /\ ~ (PrintBuffer.offset p + (2 ^ 32 - 1) <= PrintBuffer.length p).
Proof.
  intros p malloc_fn. split.
  - reflexivity.
  - simpl. lia.
Qed.

(** ** The number printer *)

Section PrintNumberFacts.

Import NumberCodec.

Variable w : N.
Variable malloc_fn : malloc_hook.
Variable sprintf : format -> bytes.

Lemma print_number_select (d : double) (p : option PrintBuffer.printbuffer) :
  print_number w malloc_fn sprintf d p =
    StringCodec.emit w malloc_fn p (case_room (select_case d))
      (case_text sprintf d (select_case d)).
Proof.
  unfold print_number, select_case, is_zero, integer_valued, in_int32,
    nan_or_infinite.
  destruct (PrimFloat.eqb d 0); [reflexivity|].
  rewrite <- andb_assoc.
  destruct (PrimFloat.leb (fabs (PrimFloat.sub (floor d) d)) DBL_EPSILON);
    simpl.
  - destruct (PrimFloat.leb d INT_MAX && PrimFloat.leb INT_MIN d);
      [reflexivity|].
    destruct (PrimFloat.eqb (PrimFloat.mul d 0) 0); simpl; [|reflexivity].
    destruct (PrimFloat.ltb (fabs d) 1.0e60); [reflexivity|].
    destruct (PrimFloat.ltb (fabs d) 1.0e-6 || PrimFloat.ltb 1.0e9 (fabs d));
      reflexivity.
  - destruct (PrimFloat.eqb (PrimFloat.mul d 0) 0); simpl; [|reflexivity].
    destruct (PrimFloat.ltb (fabs d) 1.0e-6 || PrimFloat.ltb 1.0e9 (fabs d));
      reflexivity.
Qed.

End PrintNumberFacts.

(** C4.  [print_number] picks its output by the listed cases, the first
    that applies: zero gives the text 0; an integer-valued number in the
    range of [int] gives [%d] of its integer part; NaN and the infinities
    give null; an integer-valued number below 1e60 in magnitude gives
    [%.0f]; a magnitude below 1e-6 or above 1e9 gives [%e]; anything else
    [%f].  So 1.0e100 is printed with [%e], 0.0 as 0, and NaN and both
    infinities as null. *)
Theorem print_number_cases :
  forall (w : N) (malloc_fn : malloc_hook)
         (sprintf : NumberCodec.format -> bytes),
    (forall d p,
       NumberCodec.print_number w malloc_fn sprintf d p =
         StringCodec.emit w malloc_fn p
           (NumberCodec.case_room (NumberCodec.select_case d))
           (NumberCodec.case_text sprintf d (NumberCodec.select_case d)))
    /\ NumberCodec.print_number w (fun _ => Some []) sprintf 1.0e100%float None
       = (None, Some (sprintf (NumberCodec.Fmt_e 1.0e100%float)))
    /\ NumberCodec.print_number w (fun _ => Some []) sprintf 0%float None
       = (None, Some (bytes_of_string "0"))
    /\ NumberCodec.print_number w (fun _ => Some []) sprintf nan None
       = (None, Some (bytes_of_string "null"))
    /\ NumberCodec.print_number w (fun _ => Some []) sprintf infinity None
       = (None, Some (bytes_of_string "null"))
    /\ NumberCodec.print_number w (fun _ => Some []) sprintf neg_infinity None
       = (None, Some (bytes_of_string "null"))
    /\ NumberCodec.print_number w (fun _ => Some []) sprintf 42%float None
       = (None, Some (sprintf (NumberCodec.Fmt_d 42)))
    /\ NumberCodec.print_number w (fun _ => Some []) sprintf 0x1p40%float None
       = (None, Some (sprintf (NumberCodec.Fmt_0f 0x1p40%float)))
    /\ NumberCodec.print_number w (fun _ => Some []) sprintf 1.5%float None
       = (None, Some (sprintf (NumberCodec.Fmt_f 1.5%float))).
Proof.
  intros w malloc_fn sprintf. split; [apply print_number_select|].
  repeat split; reflexivity.
Qed.

(** ** Detaching items *)

Section DetachFacts.

Import Tree.

Lemma chain_agree (h h' : heap) (l : list nat) (c : ptr) :
  (forall b, b ∈ l -> h' !! b = h !! b) -> chain h c l -> chain h' c l.
Proof.
  revert c. induction l as [|a l IH]; intros c Hag Hc; simpl in *; [done|].
  destruct Hc as (-> & it & Ha & Hc). split; [done|].
  exists it. split.
  - rewrite Hag; [done | apply list_elem_of_here].
  - apply IH; [|done]. intros b Hb. apply Hag. now apply list_elem_of_further.
Qed.

Lemma chain_functional (h : heap) (l1 l2 : list nat) (c : ptr) :
  chain h c l1 -> chain h c l2 -> l1 = l2.
Proof.
  revert c l2. induction l1 as [|a l1 IH]; intros c [|b l2] H1 H2;
    simpl in *; try done.
  - destruct H2 as (-> & _). done.
  - destruct H1 as (-> & _). done.
  - destruct H1 as (-> & it & Ha & H1), H2 as (Hb & it' & Ha' & H2).
    injection Hb as <-. rewrite Ha in Ha'. injection Ha' as <-.
    f_equal. eauto.
Qed.

Lemma chain_suffix (h : heap) (l : list nat) (c : ptr) (i a : nat) :
  chain h c l -> l !! i = Some a -> chain h (Some a) (drop i l).
Proof.
  revert c i. induction l as [|b l IH]; intros c [|i] Hc Hi; simpl in *;
    try done.
  - injection Hi as ->. destruct Hc as (_ & Hc). split; [done|]. exact Hc.
  - destruct Hc as (_ & it & _ & Hc). eapply IH; eauto.
Qed.

(** A chain that reaches NULL visits no item twice. *)
Lemma chain_NoDup (h : heap) (l : list nat) (c : ptr) :
  chain h c l -> NoDup l.
Proof.
  revert c. induction l as [|a l IH]; intros c Hc; [constructor|].
  pose proof Hc as Hc0.
  destruct Hc as (-> & it & Ha & Hc). constructor; [|eauto].
  intros Hin. apply list_elem_of_lookup in Hin as [i Hi].
  pose proof (chain_suffix _ _ _ _ _ Hc Hi) as Hs.
  pose proof (chain_functional _ _ _ _ Hc0 Hs) as Heq.
  apply (f_equal List.length) in Heq. rewrite length_drop in Heq.
  simpl in Heq. lia.
Qed.

Lemma detach_walk_spec (h : heap) (l : list nat) (c previous : ptr)
    (i a : nat) :
  chain h c l -> l !! i = Some a ->
  detach_walk h c previous i =
    Done (Some a, match i with O => previous | S j => l !! j end).
Proof.
  revert c previous i. induction l as [|b l IH]; intros c previous i Hc Hi.
  - done.
  - destruct Hc as (-> & it & Hb & Hc). destruct i as [|i]; simpl in *.
    + injection Hi as ->. done.
    + rewrite Hb. simpl. rewrite (IH _ _ _ Hc Hi).
      destruct i; simpl; done.
  Qed.

Lemma detach_walk_past_end (h : heap) (l : list nat) (c previous : ptr)
    (i : nat) :
  chain h c l -> (List.length l <= i)%nat ->
  exists q, detach_walk h c previous i = Done (None, q).
Proof.
  revert c previous i. induction l as [|b l IH]; intros c previous i Hc Hi.
  - simpl in Hc. subst c. exists previous. destruct i; done.
  - destruct Hc as (-> & it & Hb & Hc). destruct i as [|i]; simpl in *; [lia|].
    rewrite Hb. simpl. apply IH; [done | lia].
Qed.

End DetachFacts.

Section DetachProofs.
Import Tree.

Lemma chain_unlink (h : heap) (l1 l2 : list nat) (c : ptr) (p a : nat)
    (itp ita : cJSON) :
  chain h c (l1 ++ p :: a :: l2) ->
  h !! p = Some itp -> h !! a = Some ita ->
  chain (<[a := set_next None ita]> (<[p := set_next (next ita) itp]> h))
        c (l1 ++ p :: l2).
Proof.
  intros Hc Hp Ha. pose proof (chain_NoDup _ _ _ Hc) as Hnd.
  revert c Hc Hnd. induction l1 as [|x l1 IH]; intros c Hc Hnd; simpl in *.
  - destruct Hc as (-> & it & Hp' & Hn & it' & Ha' & Hc).
    rewrite Hp in Hp'. injection Hp' as <-.
    rewrite Ha in Ha'. injection Ha' as <-.
    apply NoDup_cons in Hnd as [Hpn Hnd]. apply NoDup_cons in Hnd as [Han Hnd].
    assert (p <> a) by (intros ->; apply Hpn, list_elem_of_here).
    split; [done|]. eexists. split.
    + rewrite lookup_insert_ne by done. apply lookup_insert_eq.
    + simpl. eapply chain_agree; [|exact Hc]. intros b Hb.
      rewrite !lookup_insert_ne; [done| |].
      * intros ->. apply Hpn. now apply list_elem_of_further.
      * intros ->. done.
  - destruct Hc as (-> & it & Hx & Hc).
    apply NoDup_cons in Hnd as [Hxn Hnd].
    split; [done|]. exists it. split.
    + rewrite !lookup_insert_ne; [done| |].
      * intros ->. apply Hxn. apply elem_of_app. right. apply list_elem_of_here.
      * intros ->. apply Hxn. apply elem_of_app. right.
        apply list_elem_of_further, list_elem_of_here.
    + apply IH; done.
Qed.

Lemma same_payload_refl (c : cJSON) : same_payload c c.
Proof. repeat split. Qed.

Lemma detach_array_spec (h : heap) (array : nat) (arr : cJSON)
    (l : list nat) (i a : nat) :
  h !! array = Some arr -> chain h (child arr) l -> array ∉ l ->
  l !! i = Some a ->
  exists h', cJSON_DetachItemFromArray h (Some array) i = Done (h', Some a)
             /\ detached h h' array l i a.
Proof.
  intros Harr Hc Hnot Hi.
  pose proof (chain_NoDup _ _ _ Hc) as Hnd.
  assert (Hain : a ∈ l) by (eapply list_elem_of_lookup_2; eauto).
  assert (Hne : a <> array) by (intros ->; done).
  pose proof (chain_suffix _ _ _ _ _ Hc Hi) as Hs.
  rewrite (drop_S _ _ _ Hi) in Hs. destruct Hs as (_ & ita & Ha & Hs).
  unfold cJSON_DetachItemFromArray. simpl. rewrite Harr. simpl.
  rewrite (detach_walk_spec _ _ _ _ _ _ Hc Hi). simpl. rewrite Ha. simpl.
  unfold detached. destruct i as [|j].
  - destruct l as [|a' l']; [done|]. simpl in Hi. injection Hi as ->.
    destruct Hc as (Hch & it & Ha' & Hc). rewrite Ha in Ha'. injection Ha' as <-.
    rewrite Hch. simpl. rewrite Nat.eqb_refl. simpl.
    rewrite lookup_insert_ne by done. rewrite Ha. simpl.
    eexists. split; [reflexivity|].
    apply NoDup_cons in Hnd as [Han Hnd].
    split; [|split; [|split; [|split]]].
    + eexists. split; [apply lookup_insert_eq|done].
    + eexists. split.
      * rewrite lookup_insert_ne by done. apply lookup_insert_eq.
      * simpl. eapply chain_agree; [|exact Hc]. intros b Hb.
        rewrite !lookup_insert_ne; [done| |].
        -- intros ->. apply Hnot. now apply list_elem_of_further.
        -- intros ->. done.
    + intros b it Hb.
      destruct (decide (b = a)) as [->|Hba].
      * rewrite lookup_insert_eq. eexists. split; [done|].
        rewrite Ha in Hb. injection Hb as <-. repeat split.
      * rewrite lookup_insert_ne by done.
        destruct (decide (b = array)) as [->|Hbr].
        -- rewrite lookup_insert_eq. eexists. split; [done|].
           rewrite Harr in Hb. injection Hb as <-. repeat split.
        -- rewrite lookup_insert_ne by done. eauto using same_payload_refl.
    + intros b Hb. rewrite !lookup_insert_ne; [done| |]; intros ->; congruence.
    + intros b Hb1 Hb2. rewrite !lookup_insert_ne; [done|done|].
      intros ->. apply Hb2, list_elem_of_here.
  - destruct (lookup_lt_is_Some_2 l j) as [p Hp];
      [apply lookup_lt_Some in Hi; lia|].
    assert (Hl : l = take j l ++ p :: a :: drop (S (S j)) l).
    { rewrite <- (take_drop_middle l j p Hp) at 1.
      now rewrite (drop_S _ _ _ Hi). }
    assert (Hdel : delete (S j) l = take j l ++ p :: drop (S (S j)) l).
    { rewrite delete_take_drop, (take_S_r _ _ _ Hp), <- app_assoc. done. }
    rewrite Hdel. clear Hdel.
    set (l1 := take j l) in *. set (l2 := drop (S (S j)) l) in *.
    clearbody l1 l2. subst l.
    assert (Hpa : p <> a).
    { intros ->. apply NoDup_app in Hnd as (_ & _ & Hnd).
      apply NoDup_cons in Hnd as [Hnd _]. apply Hnd, list_elem_of_here. }
    assert (Hpin : p ∈ l1 ++ p :: a :: l2).
    { apply elem_of_app. right. apply list_elem_of_here. }
    assert (Hpr : p <> array) by (intros ->; done).
    pose proof (chain_suffix _ _ _ _ _ Hc Hp) as Hsp.
    rewrite (drop_S _ _ _ Hp) in Hsp. destruct Hsp as (_ & itp & Hpl & _).
    assert (Hhd : ptr_eqb (Some a) (child arr) = false).
    { destruct l1 as [|x l1]; simpl in Hc; destruct Hc as (-> & _); simpl.
      - apply Nat.eqb_neq. done.
      - apply Nat.eqb_neq. intros <-. apply NoDup_cons in Hnd as [Hnd _].
        apply Hnd. apply elem_of_app. right.
        apply list_elem_of_further, list_elem_of_here. }
    simpl in Hhd. rewrite Hhd. rewrite Hp. simpl. rewrite Hpl. simpl.
    rewrite lookup_insert_ne by done. rewrite Ha. simpl.
    eexists. split; [reflexivity|].
    split; [|split; [|split; [|split]]].
    + eexists. split; [apply lookup_insert_eq|done].
    + exists arr. split.
      * rewrite !lookup_insert_ne; done.
      * apply chain_unlink; done.
    + intros b it Hb.
      destruct (decide (b = a)) as [->|Hba].
      * rewrite lookup_insert_eq. eexists. split; [done|].
        rewrite Ha in Hb. injection Hb as <-. repeat split.
      * rewrite lookup_insert_ne by done.
        destruct (decide (b = p)) as [->|Hbp].
        -- rewrite lookup_insert_eq. eexists. split; [done|].
           rewrite Hpl in Hb. injection Hb as <-. repeat split.
        -- rewrite lookup_insert_ne by done. eauto using same_payload_refl.
    + intros b Hb. rewrite !lookup_insert_ne; [done| |]; intros ->; congruence.
    + intros b Hb1 Hb2. rewrite !lookup_insert_ne; [done| |]; intros ->; done.
Qed.

Lemma find_name_spec (h : heap) (l : list nat) (key : bytes) (i a : nat) :
  forall (fuel : nat) (c : ptr) (k : nat),
  chain h c l -> l !! i = Some a ->
  (forall j b, (j < i)%nat -> l !! j = Some b -> has_other_key h key b) ->
  has_key h key a -> (i < fuel)%nat ->
  find_name fuel h c key k = Done (Some a, (k + i)%nat).
Proof.
  revert l. induction i as [|i IH]; intros l fuel c k Hc Hi Hbefore Hkey Hf.
  - destruct fuel as [|fuel]; [lia|]. destruct l as [|b l]; [done|].
    simpl in Hi. injection Hi as ->. destruct Hc as (-> & it & Ha & Hc).
    destruct Hkey as (it' & n & Ha' & Hn & Heq).
    rewrite Ha in Ha'. injection Ha' as <-.
    simpl. rewrite Ha. simpl. rewrite Hn. unfold strcmp_differs.
    rewrite bool_decide_eq_true_2 by done. simpl. now rewrite Nat.add_0_r.
  - destruct fuel as [|fuel]; [lia|]. destruct l as [|b l]; [done|].
    simpl in Hi. destruct Hc as (-> & it & Hb & Hc).
    destruct (Hbefore 0%nat b) as (it' & n & Hb' & Hn & Hneq); [lia|done|].
    rewrite Hb in Hb'. injection Hb' as <-.
    simpl. rewrite Hb. simpl. rewrite Hn. unfold strcmp_differs.
    rewrite bool_decide_eq_false_2 by done. simpl.
    replace (k + S i)%nat with (S k + i)%nat by lia.
    apply (IH l); [done|done| |done|lia].
    intros j b' Hj Hb'. apply (Hbefore (S j) b'); [lia|done].
Qed.

Lemma detach_object_spec (h : heap) (object : nat) (obj : cJSON)
    (l : list nat) (i a : nat) (key : bytes) (fuel : nat) :
  h !! object = Some obj -> chain h (child obj) l -> object ∉ l ->
  l !! i = Some a ->
  (forall j b, (j < i)%nat -> l !! j = Some b -> has_other_key h key b) ->
  has_key h key a -> (i < fuel)%nat ->
  exists h', cJSON_DetachItemFromObject fuel h (Some object) key
             = Done (h', Some a)
             /\ detached h h' object l i a.
Proof.
  intros Hobj Hc Hnot Hi Hbefore Hkey Hf.
  unfold cJSON_DetachItemFromObject. simpl. rewrite Hobj. simpl.
  rewrite (find_name_spec h l key i a fuel _ 0%nat Hc Hi Hbefore Hkey Hf).
  simpl. eapply detach_array_spec; eauto.
Qed.

End DetachProofs.

(** C8.  Let the children of the item at [parent] be the items at the
    addresses [l], and let [a] be the [i]-th of them.  Then
    [cJSON_DetachItemFromArray] at index [i] returns [a] with its [next]
    reset to NULL and leaves the parent with the children [l] without the
    [i]-th, in their order; no other item changes, and no payload does.
    [cJSON_DetachItemFromObject] does the same for a key that [a] is the
    first child to carry. *)
Theorem detach_removes_exactly_one_child
    (h : Tree.heap) (parent : nat) (par : Tree.cJSON) (l : list nat)
    (i a : nat) :
  h !! parent = Some par -> Tree.chain h (Tree.child par) l ->
  parent ∉ l -> l !! i = Some a ->
  (exists h',
     Tree.cJSON_DetachItemFromArray h (Some parent) i = Done (h', Some a)
     /\ Tree.detached h h' parent l i a)
  /\ (forall (key : bytes) (fuel : nat),
        (forall j b, (j < i)%nat -> l !! j = Some b ->
                     Tree.has_other_key h key b) ->
        Tree.has_key h key a -> (i < fuel)%nat ->
        exists h',
          Tree.cJSON_DetachItemFromObject fuel h (Some parent) key
          = Done (h', Some a)
          /\ Tree.detached h h' parent l i a).
Proof.
  intros Hp Hc Hnot Hi. split.
  - eapply detach_array_spec; eauto.
  - intros key fuel Hbefore Hkey Hf. eapply detach_object_spec; eauto.
Qed.

Lemma detach_removes_exactly_one_child_witness :
  (exists h',
     Tree.cJSON_DetachItemFromArray Tree.example_object (Some 1%nat) 1
     = Done (h', Some 3%nat)
     /\ Tree.detached Tree.example_object h' 1 [2; 3; 4]%nat 1 3)
  /\ (exists h',
        Tree.cJSON_DetachItemFromObject 2 Tree.example_object (Some 1%nat)
          (bytes_of_string "b")
        = Done (h', Some 3%nat)
        /\ Tree.detached Tree.example_object h' 1 [2; 3; 4]%nat 1 3).
Proof.
  destruct (detach_removes_exactly_one_child Tree.example_object 1
              (Tree.mkItem None (Some 2%nat) Tree.cJSON_Object None 0%float
                           None false false)
              [2; 3; 4]%nat 1 3) as [Harray Hobject].
  - reflexivity.
  - simpl. repeat (split; [reflexivity|]; eexists; split; [reflexivity|]).
    reflexivity.
  - intros Hin. repeat (apply elem_of_cons in Hin as [Hin|Hin]; [lia|]).
    now apply elem_of_nil in Hin.
  - reflexivity.
  - split; [exact Harray|].
    apply (Hobject (bytes_of_string "b") 2%nat).
    + intros j b Hj Hb. destruct j as [|j]; [|lia].
      injection Hb as <-. eexists _, _.
      split; [reflexivity|]. split; [reflexivity|]. discriminate.
    + eexists _, _. split; [reflexivity|]. split; reflexivity.
    + lia.
Defined.

(** ** The string codec *)

(** Evaluate the character constants of the goal and the hypotheses. *)
Ltac eval_ch :=
  repeat match goal with
         | |- context [ch ?c] =>
           let v := eval vm_compute in (ch c) in change (ch c) with v
         | H : context [ch ?c] |- _ =>
           let v := eval vm_compute in (ch c) in change (ch c) with v in H
         end.

Section StringFacts.
Import StringCodec.

Lemma byte_at_app_r (A s : bytes) (i : nat) :
  byte_at (A ++ s) (List.length A + i) = byte_at s i.
Proof. unfold byte_at. now rewrite lookup_app_r, Nat.add_comm, Nat.add_sub by lia. Qed.

Lemma byte_at_app_l (A s : bytes) (i : nat) :
  (i < List.length A)%nat -> byte_at (A ++ s) i = byte_at A i.
Proof. intros H. unfold byte_at. now rewrite lookup_app_l. Qed.










Lemma hex_char_digit (d : Z) :
  0 <= d < 16 ->
  hex_digit (hex_char d) = Some d
  /\ hex_char d <> 0 /\ hex_char d <> QUOTE /\ hex_char d <> BACKSLASH.
Proof.
  intros Hd.
  assert (Hcases : d = 0 \/ d = 1 \/ d = 2 \/ d = 3 \/ d = 4 \/ d = 5 \/ d = 6
                   \/ d = 7 \/ d = 8 \/ d = 9 \/ d = 10 \/ d = 11 \/ d = 12
                   \/ d = 13 \/ d = 14 \/ d = 15) by lia.
  repeat (destruct Hcases as [-> | Hcases]; [vm_compute; repeat split; congruence|]).
  subst d. vm_compute. repeat split; congruence.
Qed.












Lemma cstring_valid (str : bytes) : Forall valid_byte str -> cstring str = str.
Proof.
  induction 1 as [|c str Hc _ IH]; [done|]. simpl.
  destruct (Z.eqb_spec c 0); [unfold valid_byte in Hc; lia|]. now rewrite IH.
Qed.

Lemma escape_flag_false (str : bytes) :
  Forall valid_byte str ->
  forall (flag : bool) (n : Z),
  fst (escape_flag str flag n) = false ->
  flag = false /\ print_escaped str = str.
Proof.
  induction 1 as [|c str Hc _ IH]; intros flag n Hf; simpl in *; [done|].
  unfold valid_byte in Hc.
  destruct (Z.eqb_spec c 0); [lia|].
  apply IH in Hf as [Hor ->]. apply orb_false_iff in Hor as [-> Hne].
  split; [done|]. unfold needs_escape in Hne.
  apply orb_false_iff in Hne as [Hne Hb]. apply orb_false_iff in Hne as [Hlt Hq].
  rewrite Hq, Hb. simpl.
  destruct (Z.gtb_spec c 31); [done|].
  apply andb_false_iff in Hlt as [Hlt|Hlt].
  - destruct (Z.gtb_spec c 0); [done|lia].
  - apply Z.ltb_ge in Hlt. lia.
Qed.






End StringFacts.

Section BitFacts.
Import StringCodec.










End BitFacts.



(** ** Unicode escapes *)

Section EscapeFacts.
Import StringCodec.













End EscapeFacts.



(** ** The minifier *)

Section MinifyFacts.
Import Minify.

Lemma reading_head (st : cursors) (W G R : bytes) (c : byte) :
  reading st W G (c :: R) -> block st !! json st = Some c.
Proof.
  intros (-> & _ & ->). rewrite app_assoc, <- length_app.
  now rewrite lookup_app_r, Nat.sub_diag by lia.
Qed.

Lemma reading_next (st : cursors) (W G R : bytes) (c c1 : byte) :
  reading st W G (c :: c1 :: R) -> block st !! S (json st) = Some c1.
Proof.
  intros (-> & _ & ->). rewrite app_assoc, <- length_app.
  rewrite lookup_app_r by lia.
  now replace (S (List.length (W ++ G)) - List.length (W ++ G))%nat
    with 1%nat by lia.
Qed.

Lemma reading_length (st : cursors) (W G R : bytes) :
  reading st W G R ->
  List.length (block st)
  = (List.length W + List.length G + List.length R)%nat.
Proof. intros (-> & _ & _). rewrite !length_app. lia. Qed.

(** [json++] *)
Lemma reading_skip (st : cursors) (W G R : bytes) (c : byte) :
  reading st W G (c :: R) ->
  reading (mkCursors (block st) (S (json st)) (into st)) W (G ++ [c]) R.
Proof.
  intros (Hb & Hi & Hj). repeat split; simpl.
  - now rewrite Hb, <- !app_assoc.
  - done.
  - rewrite Hj, length_app. simpl. lia.
Qed.

(** [json += n], over bytes that are there. *)
Lemma reading_skip_many (K : bytes) :
  forall (st : cursors) (W G R : bytes),
  reading st W G (K ++ R) ->
  reading (mkCursors (block st) (json st + List.length K) (into st))
          W (G ++ K) R.
Proof.
  intros st W G R (Hb & Hi & Hj). repeat split; simpl.
  - now rewrite Hb, <- !app_assoc.
  - done.
  - rewrite Hj, length_app. lia.
Qed.

(** [*into++ = *json++] *)
Lemma reading_copy (st : cursors) (W G R : bytes) (c : byte) :
  reading st W G (c :: R) ->
  exists st' G',
    copy_byte st = Done st' /\ reading st' (W ++ [c]) G' R
    /\ List.length (block st') = List.length (block st).
Proof.
  intros Hr. pose proof (reading_head _ _ _ _ _ Hr) as Hh.
  destruct Hr as (Hb & Hi & Hj). unfold copy_byte. rewrite Hh.
  destruct G as [|g G].
  - exists (mkCursors (<[into st := c]> (block st)) (S (json st))
                      (S (into st))), [].
    split; [done|]. split; [|simpl; now rewrite length_insert].
    repeat split; simpl.
    + rewrite Hb, Hi. simpl.
      replace (List.length W) with (List.length W + 0)%nat by lia.
      rewrite insert_app_r. simpl. now rewrite <- app_assoc.
    + rewrite Hi, length_app. simpl. lia.
    + rewrite Hj, length_app. simpl. lia.
  - exists (mkCursors (<[into st := c]> (block st)) (S (json st))
                      (S (into st))), (G ++ [c]).
    split; [done|]. split; [|simpl; now rewrite length_insert].
    repeat split; simpl.
    + rewrite Hb, Hi. simpl.
      replace (List.length W) with (List.length W + 0)%nat by lia.
      rewrite insert_app_r. simpl. now rewrite <- !app_assoc.
    + rewrite Hi, length_app. simpl. lia.
    + rewrite Hj, !length_app. simpl. lia.
Qed.

Lemma skip_line_comment_spec (R : bytes) :
  forall R2, after_line_comment R = Some R2 ->
  exists K, R = K ++ R2 /\
    forall (f : nat) (P : bytes),
      (List.length K < f)%nat ->
      skip_line_comment f (P ++ R) (List.length P)
      = Done (List.length P + List.length K)%nat.
Proof.
  induction R as [|c R IH]; intros R2 H; simpl in H; [done|].
  destruct (negb (c =? 0) && negb (c =? 10)) eqn:Hc.
  - destruct (IH R2 H) as (K & -> & HK). exists (c :: K). split; [done|].
    intros f P Hf. destruct f as [|f]; [simpl in Hf; lia|]. simpl.
    rewrite lookup_app_r, Nat.sub_diag by lia. simpl. rewrite Hc.
    specialize (HK f (P ++ [c])). rewrite <- app_assoc, length_app in HK.
    simpl in HK. rewrite Nat.add_1_r in HK. rewrite HK by (simpl in Hf; lia).
    f_equal. lia.
  - injection H as <-. exists []. split; [done|]. intros f P Hf.
    destruct f as [|f]; [simpl in Hf; lia|]. simpl.
    rewrite lookup_app_r, Nat.sub_diag by lia. simpl. rewrite Hc.
    f_equal. lia.
Qed.

Lemma skip_block_comment_spec (R : bytes) :
  forall R2, after_block_comment R = Some R2 ->
  exists K, R = K ++ R2 /\
    forall (f : nat) (P : bytes),
      (List.length K < f)%nat ->
      skip_block_comment f (P ++ R) (List.length P)
      = Done (List.length P + List.length K)%nat.
Proof.
  induction R as [|c R IH]; intros R2 H; simpl in H; [done|].
  assert (Hstep : forall R2, after_block_comment R = Some R2 ->
            (forall f P, skip_block_comment (S f) (P ++ c :: R) (List.length P)
                         = skip_block_comment f (P ++ c :: R)
                                              (S (List.length P))) ->
            exists K, c :: R = K ++ R2 /\
              forall f P, (List.length K < f)%nat ->
                skip_block_comment f (P ++ c :: R) (List.length P)
                = Done (List.length P + List.length K)%nat).
  { intros R3 H3 Hone. destruct (IH R3 H3) as (K & -> & HK).
    exists (c :: K). split; [done|]. intros f P Hf.
    destruct f as [|f]; [simpl in Hf; lia|]. rewrite Hone.
    specialize (HK f (P ++ [c])). rewrite <- app_assoc, length_app in HK.
    simpl in HK. rewrite Nat.add_1_r in HK. rewrite HK by (simpl in Hf; lia).
    f_equal. simpl. lia. }
  destruct (c =? 0) eqn:H0.
  - injection H as <-. exists []. split; [done|]. intros f P Hf.
    destruct f as [|f]; [simpl in Hf; lia|]. simpl.
    rewrite lookup_app_r, Nat.sub_diag by lia. simpl. rewrite H0.
    f_equal. lia.
  - destruct (c =? ch "*") eqn:Hs.
    + destruct R as [|c1 R]; [done|]. destruct (c1 =? ch "/") eqn:Hsl.
      * injection H as <-. exists []. split; [done|]. intros f P Hf.
        destruct f as [|f]; [simpl in Hf; lia|]. simpl.
        rewrite lookup_app_r, Nat.sub_diag by lia. simpl. rewrite H0, Hs.
        rewrite lookup_app_r by lia.
        replace (S (List.length P) - List.length P)%nat with 1%nat by lia.
        simpl. rewrite Hsl. f_equal. lia.
      * apply Hstep; [done|]. intros f P. simpl.
        rewrite lookup_app_r, Nat.sub_diag by lia. simpl. rewrite H0, Hs.
        rewrite lookup_app_r by lia.
        replace (S (List.length P) - List.length P)%nat with 1%nat by lia.
        simpl. now rewrite Hsl.
    + apply Hstep; [done|]. intros f P. simpl.
      rewrite lookup_app_r, Nat.sub_diag by lia. simpl. now rewrite H0, Hs.
Qed.

Lemma string_body_length (R : bytes) :
  forall body R2, string_body R = Some (body, R2) ->
  (List.length R2 <= List.length R)%nat.
Proof.
  induction R as [R IH] using (induction_ltof1 _ (@List.length _)).
  unfold ltof in IH. intros body R2 H. destruct R as [|c R]; [done|].
  simpl in H.
  destruct (negb (c =? 0) && negb (c =? QUOTE)).
  - destruct (c =? BACKSLASH).
    + destruct R as [|c1 R]; [done|].
      destruct (string_body R) as [[b r]|] eqn:Hr; [|done].
      injection H as <- <-. apply IH in Hr; simpl in *; lia.
    + destruct (string_body R) as [[b r]|] eqn:Hr; [|done].
      injection H as <- <-. apply IH in Hr; simpl in *; lia.
  - injection H as <- <-. simpl. lia.
Qed.

Lemma copy_string_body_spec (R : bytes) :
  forall (f : nat) (st : cursors) (W G body R2 : bytes),
  string_body R = Some (body, R2) -> reading st W G R ->
  (List.length R < f)%nat ->
  exists st' G',
    copy_string_body f st = Done st' /\ reading st' (W ++ body) G' R2
    /\ List.length (block st') = List.length (block st).
Proof.
  induction R as [R IH] using (induction_ltof1 _ (@List.length _)).
  unfold ltof in IH. intros f st W G body R2 H Hr Hf.
  destruct R as [|c R]; [done|]. simpl in H.
  destruct f as [|f]; [lia|]. simpl.
  rewrite (reading_head _ _ _ _ _ Hr).
  destruct (negb (c =? 0) && negb (c =? QUOTE)).
  - destruct (c =? BACKSLASH).
    + destruct R as [|c1 R]; [done|].
      destruct (string_body R) as [[b r]|] eqn:Hb; [|done].
      injection H as <- <-.
      destruct (reading_copy _ _ _ _ _ Hr) as (st1 & G1 & -> & Hr1 & Hl1).
      destruct (reading_copy _ _ _ _ _ Hr1) as (st2 & G2 & -> & Hr2 & Hl2).
      destruct (IH R ltac:(simpl; lia) f st2 _ G2 b r Hb Hr2)
        as (st' & G' & -> & Hr' & Hl'); [simpl in Hf; lia|].
      exists st', G'. split; [done|]. split; [|congruence].
      now rewrite <- !app_assoc in Hr'.
    + destruct (string_body R) as [[b r]|] eqn:Hb; [|done].
      injection H as <- <-.
      destruct (reading_copy _ _ _ _ _ Hr) as (st1 & G1 & Hc1 & Hr1 & Hl1).
      simpl. rewrite Hc1.
      destruct (IH R ltac:(simpl; lia) f st1 _ G1 b r Hb Hr1)
        as (st' & G' & -> & Hr' & Hl'); [simpl in Hf; lia|].
      exists st', G'. split; [done|]. split; [|congruence].
      now rewrite <- !app_assoc in Hr'.
  - injection H as <- <-. exists st, G. rewrite app_nil_r. done.
Qed.

Lemma minify_rest_nil (f : nat) : minify_rest f [] = None.
Proof. destruct f; done. Qed.

Lemma minify_rest_step (f : nat) (c : byte) (R' : bytes) :
  minify_rest (S f) (c :: R') =
    if c =? 0 then Some []
    else if is_space c then minify_rest f R'
    else if (c =? ch "/") && (byte_at R' 0 =? ch "/") then
      match after_line_comment (c :: R') with
      | Some R2 => minify_rest f R2
      | None => None
      end
    else if (c =? ch "/") && (byte_at R' 0 =? ch "*") then
      match after_block_comment (c :: R') with
      | Some R2 => minify_rest f (drop 2 R2)
      | None => None
      end
    else if c =? QUOTE then
      match string_body R' with
      | Some (body, c2 :: R3) =>
        option_map (fun out => c :: body ++ c2 :: out) (minify_rest f R3)
      | _ => None
      end
    else option_map (cons c) (minify_rest f R').
Proof. reflexivity. Qed.

(** What the pure scan computes, the loop of [cJSON_Minify] writes. *)
Lemma minify_loop_spec :
  forall (f : nat) (R : bytes) (st : cursors) (W G out : bytes),
  minify_rest f R = Some out -> reading st W G R ->
  exists st' G' R',
    minify_loop f st = Done st' /\ reading st' (W ++ out) G' (0 :: R').
Proof.
  induction f as [|f IH]; intros R st W G out H Hr; [done|].
  destruct R as [|c R]; [done|]. rewrite minify_rest_step in H.
  simpl minify_loop.
  rewrite (reading_head _ _ _ _ _ Hr).
  destruct (Z.eqb_spec c 0) as [->|Hc0].
  { injection H as <-. exists st, G, R. rewrite app_nil_r. done. }
  unfold minify_step. fold (is_space c).
  destruct (is_space c).
  { simpl. eapply IH; [exact H|]. exact (reading_skip _ _ _ _ _ Hr). }
  unfold slash_then.
  destruct (c =? ch "/") eqn:Hsl; cbn [andb] in H.
  - destruct R as [|c1 R].
    { change (byte_at [] 0) with 0 in H. cbn [Z.eqb ch] in H.
      destruct (c =? QUOTE); simpl in H;
        rewrite ?minify_rest_nil in H; done. }
    rewrite (reading_next _ _ _ _ _ _ Hr).
    change (byte_at (c1 :: R) 0) with c1 in H.
    pose proof (reading_length _ _ _ _ Hr) as Hlen.
    destruct Hr as (Hb & Hi & Hj).
    destruct (c1 =? ch "/") eqn:Hc1.
    + destruct (after_line_comment (c :: c1 :: R)) as [R2|] eqn:Ha; [|done].
      destruct (skip_line_comment_spec _ _ Ha) as (K & HK & Hskip).
      rewrite Hb, Hj, app_assoc, <- length_app.
      rewrite Hskip.
      2:{ apply (f_equal (@List.length _)) in HK.
          rewrite !length_app in *. simpl in *. lia. }
      simpl. apply (IH R2 _ W (G ++ K) out H).
      repeat split; simpl.
      * rewrite HK, <- !app_assoc. reflexivity.
      * exact Hi.
      * rewrite !length_app. lia.
    + destruct (c1 =? ch "*") eqn:Hc2.
      * destruct (after_block_comment (c :: c1 :: R)) as [R2|] eqn:Ha;
          [|done].
        destruct (skip_block_comment_spec _ _ Ha) as (K & HK & Hskip).
        rewrite Hb, Hj, app_assoc, <- length_app.
        rewrite Hskip.
        2:{ apply (f_equal (@List.length _)) in HK.
            rewrite !length_app in *. simpl in *. lia. }
        simpl.
        destruct R2 as [|x [|y R3]]; cbn [drop] in H;
          rewrite ?minify_rest_nil in H; try done.
        apply (IH R3 _ W (G ++ K ++ [x; y]) out H).
        repeat split; simpl.
        -- rewrite HK, <- !app_assoc. reflexivity.
        -- exact Hi.
        -- rewrite !length_app. simpl. lia.
      * assert (Hq : (c =? QUOTE) = false).
        { apply Z.eqb_eq in Hsl. subst c. reflexivity. }
        rewrite Hq in *.
        destruct (minify_rest f (c1 :: R)) as [out'|] eqn:Hrec; [|done].
        injection H as <-.
        destruct (reading_copy st W G (c1 :: R) c) as (st1 & G1 & -> & Hr1 & _);
          [done|].
        destruct (IH _ _ _ _ _ Hrec Hr1) as (st' & G' & R' & -> & Hr').
        exists st', G', R'. split; [done|]. now rewrite <- app_assoc in Hr'.
  - destruct (c =? QUOTE) eqn:Hq.
    + destruct (string_body R) as [[body [|c2 R3]]|] eqn:Hbody; try done.
      destruct (minify_rest f R3) as [out'|] eqn:Hrec; [|done].
      injection H as <-. unfold copy_string_literal.
      destruct (reading_copy _ _ _ _ _ Hr) as (st1 & G1 & -> & Hr1 & Hl1).
      pose proof (reading_length _ _ _ _ Hr) as Hlen.
      destruct (copy_string_body_spec R (S (List.length (block st))) st1 _ G1
                  body (c2 :: R3) Hbody Hr1)
        as (st2 & G2 & -> & Hr2 & Hl2); [simpl in Hlen; lia|].
      destruct (reading_copy _ _ _ _ _ Hr2) as (st3 & G3 & -> & Hr3 & Hl3).
      destruct (IH _ _ _ _ _ Hrec Hr3) as (st' & G' & R' & -> & Hr').
      exists st', G', R'. split; [done|].
      rewrite <- !app_assoc in Hr'. exact Hr'.
    + destruct (minify_rest f R) as [out'|] eqn:Hrec; [|done].
      injection H as <-.
      destruct (reading_copy _ _ _ _ _ Hr) as (st1 & G1 & -> & Hr1 & _).
      destruct (IH _ _ _ _ _ Hrec Hr1) as (st' & G' & R' & -> & Hr').
      exists st', G', R'. split; [done|]. now rewrite <- app_assoc in Hr'.
Qed.

(** The refinement at the level of the function: the block afterwards
    starts with the minified text and a terminator. *)
Lemma cJSON_Minify_spec (T out : bytes) :
  minify_text T = Some out ->
  exists tail, cJSON_Minify (c_block T) = Done (out ++ 0 :: tail).
Proof.
  intros H. unfold cJSON_Minify, c_block.
  assert (Hr : reading (mkCursors (T ++ [0]) 0 0) [] [] (T ++ [0])) by done.
  unfold minify_text in H.
  replace (S (S (List.length T))) with (S (List.length (T ++ [0]))) in H
    by (rewrite length_app; simpl; lia).
  destruct (minify_loop_spec _ _ _ _ _ _ H Hr) as (st' & G' & R' & -> & Hr').
  destruct Hr' as (-> & -> & _). simpl.
  replace (List.length out) with (List.length out + 0)%nat by lia.
  rewrite insert_app_r. destruct G'; simpl; eauto.
Qed.
End MinifyFacts.

Section MinifyText.
Import Minify.

Lemma after_line_comment_length (R R2 : bytes) :
  after_line_comment R = Some R2 -> (List.length R2 <= List.length R)%nat.
Proof.
  revert R2. induction R as [|c R IH]; intros R2 H; simpl in H; [done|].
  destruct (negb (c =? 0) && negb (c =? 10)).
  - apply IH in H. simpl. lia.
  - injection H as <-. done.
Qed.

Lemma after_block_comment_length (R R2 : bytes) :
  after_block_comment R = Some R2 -> (List.length R2 <= List.length R)%nat.
Proof.
  revert R2. induction R as [|c R IH]; intros R2 H; simpl in H; [done|].
  destruct (c =? 0); [injection H as <-; done|].
  destruct (c =? ch "*").
  - destruct R as [|c1 R]; [done|]. destruct (c1 =? ch "/").
    + injection H as <-. done.
    + apply IH in H. simpl in *. lia.
  - apply IH in H. simpl. lia.
Qed.

(** Beyond the length of the text, the step budget does not matter. *)
Lemma minify_rest_fuel :
  forall (f f' : nat) (R : bytes),
  (List.length R < f)%nat -> (List.length R < f')%nat ->
  minify_rest f R = minify_rest f' R.
Proof.
  induction f as [|f IH]; intros f' R Hf Hf'; [lia|].
  destruct f' as [|f']; [lia|]. destruct R as [|c R]; [done|].
  rewrite !minify_rest_step. simpl in Hf, Hf'.
  destruct (c =? 0); [done|].
  destruct (is_space c); [apply IH; lia|].
  destruct ((c =? ch "/") && (byte_at R 0 =? ch "/")) eqn:H1.
  { apply andb_true_iff in H1 as [H1 _]. apply Z.eqb_eq in H1. subst c.
    change (after_line_comment (ch "/" :: R)) with (after_line_comment R).
    destruct (after_line_comment R) as [R2|] eqn:Ha; [|done].
    apply after_line_comment_length in Ha. apply IH; lia. }
  destruct ((c =? ch "/") && (byte_at R 0 =? ch "*")) eqn:H2.
  { apply andb_true_iff in H2 as [H2 _]. apply Z.eqb_eq in H2. subst c.
    change (after_block_comment (ch "/" :: R)) with (after_block_comment R).
    destruct (after_block_comment R) as [R2|] eqn:Ha; [|done].
    apply after_block_comment_length in Ha.
    pose proof (length_drop R2 2). apply IH; lia. }
  destruct (c =? QUOTE).
  - destruct (string_body R) as [[body [|c2 R3]]|] eqn:Hb; try done.
    apply string_body_length in Hb. simpl in Hb.
    rewrite (IH f' R3); [done|lia..].
  - rewrite (IH f' R); [done|lia..].
Qed.

Lemma minify_text_nil : minify_text [] = Some [].
Proof. reflexivity. Qed.

Lemma minify_text_space (c : byte) (T : bytes) :
  is_space c = true -> minify_text (c :: T) = minify_text T.
Proof.
  intros Hs. unfold minify_text. simpl List.length. simpl app.
  rewrite minify_rest_step, Hs.
  destruct (Z.eqb_spec c 0) as [->|]; [done|]. done.
Qed.

Lemma minify_text_plain (c : byte) (T : bytes) :
  plain_byte c ->
  minify_text (c :: T) = option_map (cons c) (minify_text T).
Proof.
  intros (H0 & Hs & Hq & Hsl). unfold minify_text. simpl List.length.
  simpl app. rewrite minify_rest_step, Hs.
  rewrite (proj2 (Z.eqb_neq c 0) H0), (proj2 (Z.eqb_neq c QUOTE) Hq),
    (proj2 (Z.eqb_neq c (ch "/")) Hsl). done.
Qed.

Lemma after_line_comment_body (body T : bytes) :
  Forall (fun c => c <> 0 /\ c <> 10) body ->
  T = [] \/ (exists T', T = 10 :: T') ->
  after_line_comment (body ++ T ++ [0]) = Some (T ++ [0]).
Proof.
  intros Hb HT. induction Hb as [|c body [H0 H10] _ IH].
  - destruct HT as [-> | [T' ->]]; reflexivity.
  - simpl. rewrite (proj2 (Z.eqb_neq c 0) H0), (proj2 (Z.eqb_neq c 10) H10).
    exact IH.
Qed.

Lemma minify_rest_slash (f : nat) (c1 : byte) (R : bytes) :
  minify_rest (S f) (ch "/" :: c1 :: R) =
    if c1 =? ch "/" then
      match after_line_comment (c1 :: R) with
      | Some R2 => minify_rest f R2
      | None => None
      end
    else if c1 =? ch "*" then
      match after_block_comment (c1 :: R) with
      | Some R2 => minify_rest f (drop 2 R2)
      | None => None
      end
    else option_map (cons (ch "/")) (minify_rest f (c1 :: R)).
Proof. reflexivity. Qed.

Lemma minify_text_line_comment (body T : bytes) :
  Forall (fun c => c <> 0 /\ c <> 10) body ->
  T = [] \/ (exists T', T = 10 :: T') ->
  minify_text (ch "/" :: ch "/" :: body ++ T) = minify_text T.
Proof.
  intros Hb HT. unfold minify_text.
  change ((ch "/" :: ch "/" :: body ++ T) ++ [0])
    with (ch "/" :: ch "/" :: (body ++ T) ++ [0]).
  rewrite minify_rest_slash. change (ch "/" =? ch "/") with true. cbv iota.
  change (after_line_comment (ch "/" :: (body ++ T) ++ [0]))
    with (after_line_comment ((body ++ T) ++ [0])).
  rewrite <- app_assoc, after_line_comment_body by done.
  apply minify_rest_fuel; simpl; rewrite !length_app; simpl; lia.
Qed.

Lemma after_block_comment_body (L T : bytes) :
  star_slash_free (L ++ [ch "*"]) ->
  after_block_comment (L ++ ch "*" :: ch "/" :: T)
  = Some (ch "*" :: ch "/" :: T).
Proof.
  induction L as [|c L IH]; intros H; [reflexivity|].
  assert (Hc : c <> 0 /\ star_slash_free (L ++ [ch "*"])
               /\ (c = ch "*" -> byte_at (L ++ [ch "*"]) 0 <> ch "/")).
  { destruct L as [|c1 L]; simpl in H; inversion H; subst.
    - repeat split; [done|constructor; discriminate|discriminate].
    - repeat split; try done. intros -> Hc1. simpl in Hc1. tauto. }
  destruct Hc as (H0 & Hrest & Hpair).
  change ((c :: L) ++ ch "*" :: ch "/" :: T)
    with (c :: (L ++ ch "*" :: ch "/" :: T)).
  cbn [after_block_comment]. rewrite (proj2 (Z.eqb_neq c 0) H0).
  destruct (Z.eqb_spec c (ch "*")) as [->|]; [|now apply IH].
  specialize (Hpair eq_refl).
  destruct L as [|c1 L]; [now apply IH|].
  change ((c1 :: L) ++ ch "*" :: ch "/" :: T)
    with (c1 :: (L ++ ch "*" :: ch "/" :: T)).
  cbv iota. change (byte_at ((c1 :: L) ++ [ch "*"]) 0) with c1 in Hpair.
  rewrite (proj2 (Z.eqb_neq c1 (ch "/")) Hpair). now apply IH.
Qed.

Lemma minify_text_block_comment (body T : bytes) :
  star_slash_free (ch "*" :: body ++ [ch "*"]) ->
  minify_text (ch "/" :: ch "*" :: body ++ ch "*" :: ch "/" :: T)
  = minify_text T.
Proof.
  intros Hb. unfold minify_text.
  change ((ch "/" :: ch "*" :: body ++ ch "*" :: ch "/" :: T) ++ [0])
    with (ch "/" :: ch "*" :: (body ++ ch "*" :: ch "/" :: T) ++ [0]).
  rewrite minify_rest_slash. change (ch "*" =? ch "/") with false.
  change (ch "*" =? ch "*") with true. cbv iota.
  rewrite <- app_assoc.
  change (ch "*" :: body ++ (ch "*" :: ch "/" :: T) ++ [0])
    with ((ch "*" :: body) ++ ch "*" :: ch "/" :: (T ++ [0])).
  rewrite after_block_comment_body by exact Hb.
  cbn [drop].
  apply minify_rest_fuel; simpl; rewrite !length_app; simpl; lia.
Qed.

Lemma string_body_units (body : bytes) :
  string_units body ->
  forall R, string_body (body ++ QUOTE :: R) = Some (body, QUOTE :: R).
Proof.
  induction 1 as [|c body H0 Hq Hb _ IH|c body H0 _ IH]; intros R.
  - reflexivity.
  - simpl. rewrite (proj2 (Z.eqb_neq c 0) H0), (proj2 (Z.eqb_neq c QUOTE) Hq),
      (proj2 (Z.eqb_neq c BACKSLASH) Hb). simpl. now rewrite IH.
  - simpl. now rewrite IH.
Qed.

Lemma minify_text_string (body T : bytes) :
  string_units body ->
  minify_text (QUOTE :: body ++ QUOTE :: T) =
    option_map (fun out => QUOTE :: body ++ QUOTE :: out) (minify_text T).
Proof.
  intros Hb. unfold minify_text.
  change ((QUOTE :: body ++ QUOTE :: T) ++ [0])
    with (QUOTE :: (body ++ QUOTE :: T) ++ [0]).
  rewrite minify_rest_step. change (QUOTE =? 0) with false.
  change (is_space QUOTE) with false. change (QUOTE =? ch "/") with false.
  change (QUOTE =? QUOTE) with true. cbv iota. cbn [andb].
  rewrite <- app_assoc. change ((QUOTE :: T) ++ [0]) with (QUOTE :: T ++ [0]).
  rewrite string_body_units by done.
  rewrite (minify_rest_fuel _ (S (S (List.length T)))); [done| |];
    simpl; rewrite ?length_app; simpl; lia.
Qed.

Lemma minify_text_slash (T : bytes) :
  byte_at T 0 <> ch "/" -> byte_at T 0 <> ch "*" ->
  minify_text (ch "/" :: T) = option_map (cons (ch "/")) (minify_text T).
Proof.
  intros H1 H2. unfold minify_text. destruct T as [|c1 T].
  - reflexivity.
  - change ((ch "/" :: c1 :: T) ++ [0]) with (ch "/" :: c1 :: T ++ [0]).
    change (byte_at (c1 :: T) 0) with c1 in H1, H2.
    rewrite minify_rest_slash, (proj2 (Z.eqb_neq c1 (ch "/")) H1),
      (proj2 (Z.eqb_neq c1 (ch "*")) H2). reflexivity.
Qed.

(** Clean text is left as it is. *)
Lemma clean_fixed (T : bytes) : clean T -> minify_text T = Some T.
Proof.
  induction 1 as [|body T Hb _ IH|c T Hc _ IH|T H1 H2 _ IH].
  - reflexivity.
  - now rewrite minify_text_string, IH.
  - now rewrite minify_text_plain, IH.
  - now rewrite minify_text_slash, IH.
Qed.

Lemma tidy_minifies (T : bytes) :
  tidy T -> exists out, minify_text T = Some out /\ clean out.
Proof.
  induction 1 as [|c T Hs _ IH|body T Hb HT _ IH|body T Hb _ IH
                  |body T Hb _ IH|c T Hc _ IH].
  - exists []. split; [reflexivity|constructor].
  - destruct IH as (out & Hm & Hc). exists out.
    now rewrite minify_text_space.
  - destruct IH as (out & Hm & Hc). exists out.
    now rewrite minify_text_line_comment.
  - destruct IH as (out & Hm & Hc). exists out.
    now rewrite minify_text_block_comment.
  - destruct IH as (out & Hm & Hc). exists (QUOTE :: body ++ QUOTE :: out).
    rewrite minify_text_string, Hm by done. split; [done|].
    now constructor.
  - destruct IH as (out & Hm & Hc'). exists (c :: out).
    rewrite minify_text_plain, Hm by done. split; [done|].
    now constructor.
Qed.

Lemma string_units_nonzero (body : bytes) :
  string_units body -> Forall (fun c => c <> 0) body.
Proof.
  induction 1; repeat constructor; try done.
Qed.

Lemma clean_nonzero (T : bytes) : clean T -> Forall (fun c => c <> 0) T.
Proof.
  induction 1 as [|body T Hb _ IH|c T (H0 & _) _ IH|T _ _ _ IH].
  - constructor.
  - constructor; [done|]. apply Forall_app. split.
    + now apply string_units_nonzero.
    + constructor; done.
  - constructor; done.
  - constructor; done.
Qed.

Lemma cstring_terminated (out tail : bytes) :
  Forall (fun c => c <> 0) out -> cstring (out ++ 0 :: tail) = out.
Proof.
  induction 1 as [|c out Hc _ IH]; [reflexivity|]. simpl.
  rewrite (proj2 (Z.eqb_neq c 0) Hc). now rewrite IH.
Qed.
End MinifyText.

(** C7.  [cJSON_Minify] leaves the minified text at the start of the block,
    followed by a terminator.  The minified text drops a whitespace byte,
    drops a line comment up to the newline (or the end) that follows it,
    drops a block comment with its closing star and slash, copies a string
    literal byte for byte (a backslash together with the byte after it),
    and copies any other byte.  On the text of scenario S7 the block
    afterwards holds the expected C string. *)
Theorem minify_drops_space_and_comments :
  (forall T out,
     Minify.minify_text T = Some out ->
     exists tail, Minify.cJSON_Minify (Minify.c_block T)
                  = Done (out ++ 0 :: tail))
  /\ (forall c T,
        Minify.is_space c = true ->
        Minify.minify_text (c :: T) = Minify.minify_text T)
  /\ (forall body T,
        Forall (fun c => c <> 0 /\ c <> 10) body ->
        T = [] \/ (exists T', T = 10 :: T') ->
        Minify.minify_text (ch "/" :: ch "/" :: body ++ T)
        = Minify.minify_text T)
  /\ (forall body T,
        Minify.star_slash_free (ch "*" :: body ++ [ch "*"]) ->
        Minify.minify_text
          (ch "/" :: ch "*" :: body ++ ch "*" :: ch "/" :: T)
        = Minify.minify_text T)
  /\ (forall body T,
        Minify.string_units body ->
        Minify.minify_text (QUOTE :: body ++ QUOTE :: T)
        = option_map (fun out => QUOTE :: body ++ QUOTE :: out)
                     (Minify.minify_text T))
  /\ (forall c T,
        Minify.plain_byte c ->
        Minify.minify_text (c :: T)
        = option_map (cons c) (Minify.minify_text T))
  /\ Minify.minify_text [] = Some []
  /\ exists tail,
       Minify.cJSON_Minify (Minify.c_block Minify.scenario_text)
       = Done (Minify.scenario_minified ++ 0 :: tail)
       /\ cstring (Minify.scenario_minified ++ 0 :: tail)
          = Minify.scenario_minified.
Proof.
  split; [exact cJSON_Minify_spec|].
  split; [exact minify_text_space|].
  split; [exact minify_text_line_comment|].
  split; [exact minify_text_block_comment|].
  split; [exact minify_text_string|].
  split; [exact minify_text_plain|].
  split; [reflexivity|].
  eexists. split; vm_compute; reflexivity.
Qed.

Lemma minify_drops_space_and_comments_witness :
  Minify.minify_text (bytes_of_string "// c") = Minify.minify_text []
  /\ Minify.minify_text (bytes_of_string " /* x */") = Some [].
Proof.
  destruct minify_drops_space_and_comments
    as (_ & Hspace & Hline & Hblock & _ & _ & Hnil & _).
  split.
  - apply (Hline (bytes_of_string " c") []).
    + repeat constructor; discriminate.
    + now left.
  - etrans; [exact (Hspace (ch " ") (bytes_of_string "/* x */") eq_refl)|].
    etrans; [|exact Hnil].
    apply (Hblock (bytes_of_string " x ") []).
    repeat (constructor; [discriminate|intros [? ?]; discriminate|]).
    constructor. discriminate.
Defined.

(** C6, as stated, fails: minifying the text slash, space, slash gives two
    slashes, and minifying those gives the empty text. *)
Lemma minify_not_idempotent :
  Minify.cJSON_Minify (Minify.c_block (bytes_of_string "/ /"))
  = Done (bytes_of_string "//" ++ [0; 0])
  /\ Minify.cJSON_Minify (Minify.c_block (bytes_of_string "//"))
     = Done ([] ++ [0; 47; 0])
  /\ cstring ([] ++ [0; 47; 0]) <> cstring (bytes_of_string "//" ++ [0; 0]).
Proof. repeat split; try reflexivity. discriminate. Qed.

(** C6, amended.  When [cJSON_Minify] completes on a text and leaves no
    slash that starts a comment outside the string literals of its result,
    minifying the result again changes nothing.  This is so for every text
    made of whitespace, terminated comments, terminated string literals and
    bytes other than the slash. *)
Theorem minify_idempotent_on_clean_results :
  (forall T out,
     Minify.minify_text T = Some out -> Minify.clean out ->
     exists b b',
       Minify.cJSON_Minify (Minify.c_block T) = Done b /\ cstring b = out
       /\ Minify.cJSON_Minify (Minify.c_block (cstring b)) = Done b'
       /\ cstring b' = cstring b)
  /\ (forall T,
        Minify.tidy T ->
        exists out, Minify.minify_text T = Some out /\ Minify.clean out).
Proof.
  split; [|exact tidy_minifies].
  intros T out Hm Hc.
  destruct (cJSON_Minify_spec T out Hm) as [tail Hb].
  destruct (cJSON_Minify_spec out out (clean_fixed out Hc)) as [tail' Hb'].
  pose proof (clean_nonzero out Hc) as Hnz.
  exists (out ++ 0 :: tail), (out ++ 0 :: tail').
  rewrite !cstring_terminated by done. done.
Qed.

Lemma minify_idempotent_on_clean_results_witness :
  exists b b',
    Minify.cJSON_Minify (Minify.c_block (bytes_of_string "/ 1")) = Done b
    /\ cstring b = bytes_of_string "/1"
    /\ Minify.cJSON_Minify (Minify.c_block (cstring b)) = Done b'
    /\ cstring b' = cstring b.
Proof.
  apply (proj1 minify_idempotent_on_clean_results).
  - reflexivity.
  - apply Minify.clean_slash; [discriminate|discriminate|].
    apply Minify.clean_plain; [|constructor].
    repeat split; discriminate.
Defined.

(** C10.  On the text slash, star (a block comment that is never closed) the
    read cursor stops at the terminator, at index 2, is then advanced by two
    and the loop test reads through it at index 4, outside the block. *)
Theorem minify_reads_past_unterminated_comment :
  Minify.cJSON_Minify (Minify.c_block (bytes_of_string "/*")) = Fault 4
  /\ Minify.skip_block_comment 4 (Minify.c_block (bytes_of_string "/*")) 0
     = Done 2%nat
  /\ (List.length (Minify.c_block (bytes_of_string "/*")) <= 4)%nat.
Proof. repeat split; try reflexivity. simpl. lia. Qed.

(** ** Duplicating items *)

Section DuplicateFacts.

Import Tree.

#[local] Set Warnings "-clear-no-such-hyp".

(** *** Subtrees and their footprints *)

Lemma weight_unfold (f : cJSON) (kids : list tree) :
  weight (Node f kids) = S (chain_weight kids).
Proof. reflexivity. Qed.



(** An owned subtree only depends on the items of its footprint. *)
Lemma owns_agree (h h' : heap) :
  (forall a t fp, owns h a t fp ->
     (forall b, b ∈ fp -> h' !! b = h !! b) -> owns h' a t fp)
  /\ (forall c ks fp, owns_chain h c ks fp ->
        (forall b, b ∈ fp -> h' !! b = h !! b) -> owns_chain h' c ks fp).
Proof.
  assert (Hnode : forall (a : nat) (it f : cJSON) (kids : list tree)
                    (fpk : gset nat),
            h !! a = Some it -> same_payload it f ->
            forall o : owns_chain h (child it) kids fpk,
            ((forall b, b ∈ fpk -> h' !! b = h !! b) ->
             owns_chain h' (child it) kids fpk) ->
            forall n : a ∉ fpk,
            (forall b, b ∈ {[a]} ∪ fpk -> h' !! b = h !! b) ->
            owns h' a (Node f kids) ({[a]} ∪ fpk)).
  { intros a it f kids fpk Ha Hp _ IH Hn Hag. econstructor; [|done| |done].
    - rewrite Hag by set_solver. done.
    - apply IH. intros b Hb. apply Hag. set_solver. }
  assert (Hcons : forall (b : nat) (itb : cJSON) (k : tree) (ks : list tree)
                    (fp1 fp2 : gset nat),
            h !! b = Some itb ->
            forall o : owns h b k fp1,
            ((forall b0, b0 ∈ fp1 -> h' !! b0 = h !! b0) -> owns h' b k fp1) ->
            forall o0 : owns_chain h (next itb) ks fp2,
            ((forall b0, b0 ∈ fp2 -> h' !! b0 = h !! b0) ->
             owns_chain h' (next itb) ks fp2) ->
            forall d : fp1 ## fp2,
            (forall b0, b0 ∈ fp1 ∪ fp2 -> h' !! b0 = h !! b0) ->
            owns_chain h' (Some b) (k :: ks) (fp1 ∪ fp2)).
  { intros b itb k ks fp1 fp2 Hb o IHk _ IHks Hd Hag.
    assert (Hbin : b ∈ fp1) by (inversion o; set_solver).
    econstructor; [| | |done].
    - rewrite Hag by set_solver. done.
    - apply IHk. intros b0 Hb0. apply Hag. set_solver.
    - apply IHks. intros b0 Hb0. apply Hag. set_solver. }
  split.
  - intros a t fp o.
    apply (owns_mut h
             (fun a t fp _ => (forall b, b ∈ fp -> h' !! b = h !! b) ->
                              owns h' a t fp)
             (fun c ks fp _ => (forall b, b ∈ fp -> h' !! b = h !! b) ->
                               owns_chain h' c ks fp));
      [exact Hnode|intros _; apply owns_chain_nil|exact Hcons|exact o].
  - intros c ks fp o.
    apply (owns_chain_mut h
             (fun a t fp _ => (forall b, b ∈ fp -> h' !! b = h !! b) ->
                              owns h' a t fp)
             (fun c ks fp _ => (forall b, b ∈ fp -> h' !! b = h !! b) ->
                               owns_chain h' c ks fp));
      [exact Hnode|intros _; apply owns_chain_nil|exact Hcons|exact o].
Qed.



(** The footprint of an owned subtree lies in the store. *)
Lemma owns_dom (h : heap) :
  (forall a t fp, owns h a t fp -> fp ⊆ dom h)
  /\ (forall c ks fp, owns_chain h c ks fp -> fp ⊆ dom h).
Proof.
  assert (Hnode : forall (a : nat) (it f : cJSON) (kids : list tree)
                    (fpk : gset nat),
            h !! a = Some it -> same_payload it f ->
            forall o : owns_chain h (child it) kids fpk,
            fpk ⊆ dom h -> a ∉ fpk -> {[a]} ∪ fpk ⊆ dom h).
  { intros a it f kids fpk Ha _ _ IH _.
    apply elem_of_dom_2 in Ha. set_solver. }
  assert (Hcons : forall (b : nat) (itb : cJSON) (k : tree) (ks : list tree)
                    (fp1 fp2 : gset nat),
            h !! b = Some itb -> forall o : owns h b k fp1, fp1 ⊆ dom h ->
            forall o0 : owns_chain h (next itb) ks fp2, fp2 ⊆ dom h ->
            fp1 ## fp2 -> fp1 ∪ fp2 ⊆ dom h).
  { intros b itb k ks fp1 fp2 _ _ H1 _ H2 _. set_solver. }
  split.
  - intros a t fp o.
    exact (owns_mut h (fun a t fp _ => fp ⊆ dom h)
                      (fun c ks fp _ => fp ⊆ dom h)
                      Hnode (empty_subseteq _) Hcons a t fp o).
  - intros c ks fp o.
    exact (owns_chain_mut h (fun a t fp _ => fp ⊆ dom h)
                            (fun c ks fp _ => fp ⊆ dom h)
                            Hnode (empty_subseteq _) Hcons c ks fp o).
Qed.

Lemma same_payload_set_next (v : ptr) (it f : cJSON) :
  same_payload it f -> same_payload (set_next v it) f.
Proof. exact id. Qed.







(** *** The duplicating functions *)

Lemma fresh_address (h : heap) : h !! fresh ({[0%nat]} ∪ dom h) = None.
Proof.
  apply not_elem_of_dom.
  pose proof (is_fresh ({[0%nat]} ∪ dom h)). set_solver.
Qed.










Lemma tree_forall_ind (P : tree -> Prop) :
  (forall f kids, Forall P kids -> P (Node f kids)) -> forall t, P t.
Proof.
  intros H. fix IH 1. intros [f kids]. apply H.
  induction kids as [|k kids IHk]; constructor; [apply IH|exact IHk].
Qed.






Variable malloc_fn : malloc_hook.
Variable sizeof_cJSON : Z.
Hypothesis malloc_succeeds : forall n, malloc_fn n <> None.








End DuplicateFacts.



(** ** The parser *)

(** C3.  The text made of a quote and a backslash is malformed: whatever the
    allocator, the number reader, the caller's choice of an end pointer and
    the previous value of the global error pointer, parsing returns NULL and
    the error pointer in use is NULL, not an address in the text.  And the
    text made of a quote and abc, a string that is never closed, is not
    rejected: with a terminator required it is parsed as the string abc. *)
Theorem parse_failure_without_error_pointer :
  (forall (malloc_fn : malloc_hook) (sizeof_cJSON : Z)
          (strtod : bytes -> nat -> NumberCodec.double * nat)
          (with_end require_null_terminated : bool) (global_ep0 : option nat),
     exists r,
       Parser.cJSON_ParseWithOpts malloc_fn sizeof_cJSON strtod ∅ global_ep0
         [QUOTE; BACKSLASH] with_end require_null_terminated = Done r
       /\ Parser.root r = None /\ Parser.error_pointer r = None)
  /\ (forall (sizeof_cJSON : Z)
             (strtod : bytes -> nat -> NumberCodec.double * nat)
             (with_end : bool),
        exists r,
          Parser.cJSON_ParseWithOpts (fun _ => Some []) sizeof_cJSON strtod ∅
            None (QUOTE :: bytes_of_string "abc") with_end true = Done r
          /\ Parser.root r = Some 1%nat
          /\ Tree.string <$> (Parser.items r !! 1%nat)
             = Some (Some (bytes_of_string "abc"))).
Proof.
  split.
  - intros malloc_fn sizeof_cJSON strtod with_end rn g0.
    unfold Parser.cJSON_ParseWithOpts, Tree.cJSON_New_Item.
    destruct (malloc_fn sizeof_cJSON).
    + destruct with_end; eexists; (split; [reflexivity|]); split; reflexivity.
    + destruct with_end; eexists; (split; [reflexivity|]); split; reflexivity.
  - intros sizeof_cJSON strtod with_end.
    destruct with_end; eexists; (split; [reflexivity|]); split; reflexivity.
Qed.

(** * Further properties of the source *)

Set Warnings "-clear-no-such-hyp".

(** ** Reading arrays and objects *)

Section AccessFacts.

Import Tree.

Lemma chain_live (h : heap) (l : list nat) (c : ptr) (a : nat) :
  chain h c l -> a ∈ l -> a ∈ dom h.
Proof.
  revert c. induction l as [|b l IH]; intros c Hc Ha.
  - now apply elem_of_nil in Ha.
  - destruct Hc as (-> & it & Hb & Hc).
    apply elem_of_cons in Ha as [->|Ha]; [now apply elem_of_dom_2 in Hb|].
    eapply IH; eauto.
Qed.

(** A chain is no longer than the store is large. *)
Lemma chain_length_size (h : heap) (l : list nat) (c : ptr) :
  chain h c l -> (List.length l <= size h)%nat.
Proof.
  intros Hc. pose proof (chain_NoDup h l c Hc) as Hnd.
  rewrite <- (size_list_to_set (C := gset nat) l Hnd), <- size_dom.
  apply subseteq_size. intros a Ha. apply elem_of_list_to_set in Ha.
  eapply chain_live; eauto.
Qed.

Lemma count_chain_spec (h : heap) (l : list nat) :
  forall (fuel : nat) (c : ptr) (i : nat),
    chain h c l -> (List.length l < fuel)%nat ->
    count_chain fuel h c i = Done (i + List.length l)%nat.
Proof.
  induction l as [|a l IH]; intros fuel c i Hc Hf.
  - simpl in Hc. subst c. destruct fuel; [simpl in Hf; lia|].
    simpl. f_equal. lia.
  - destruct Hc as (-> & it & Ha & Hc). simpl in Hf.
    destruct fuel as [|fuel]; [lia|]. cbn [count_chain load bind].
    rewrite Ha. cbn [bind]. rewrite (IH fuel (next it) (S i) Hc) by lia.
    f_equal. simpl. lia.
Qed.

Lemma item_walk_spec (h : heap) (l : list nat) :
  forall (c : ptr) (i : nat), chain h c l -> item_walk h c i = Done (l !! i).
Proof.
  induction l as [|a l IH]; intros c i Hc.
  - simpl in Hc. subst c. now destruct i.
  - destruct Hc as (-> & it & Ha & Hc). destruct i as [|i]; [reflexivity|].
    cbn [item_walk load bind]. rewrite Ha. cbn [bind]. now apply IH.
Qed.

Lemma object_walk_found (h : heap) (l : list nat) (key : bytes) :
  forall (i a fuel : nat) (c : ptr),
    chain h c l -> l !! i = Some a ->
    (forall j b, (j < i)%nat -> l !! j = Some b -> has_other_key h key b) ->
    has_key h key a -> (i < fuel)%nat ->
    object_walk fuel h c key = Done (Some a).
Proof.
  induction l as [|b l IH]; intros i a fuel c Hc Hi Hbefore Hkey Hf;
    [discriminate|].
  destruct Hc as (-> & it & Hb & Hc).
  destruct fuel as [|fuel]; [lia|]. cbn [object_walk load bind].
  rewrite Hb. cbn [bind].
  destruct i as [|i].
  - injection Hi as <-. destruct Hkey as (it' & n & Hb' & Hn & Heq).
    assert (it' = it) by congruence. subst it'. rewrite Hn.
    unfold strcmp_differs. now rewrite bool_decide_true.
  - destruct (Hbefore 0%nat b) as (it' & n & Hb' & Hn & Hne);
      [lia|reflexivity|].
    assert (it' = it) by congruence. subst it'. rewrite Hn.
    unfold strcmp_differs. rewrite bool_decide_false by done. cbn [negb].
    apply (IH i a fuel (next it) Hc Hi); [|exact Hkey|lia].
    intros j b' Hj Hb''. apply (Hbefore (S j) b'); [lia|exact Hb''].
Qed.

Lemma object_walk_missing (h : heap) (l : list nat) (key : bytes) :
  forall (fuel : nat) (c : ptr),
    chain h c l -> (forall b, b ∈ l -> has_other_key h key b) ->
    (List.length l < fuel)%nat ->
    object_walk fuel h c key = Done None.
Proof.
  induction l as [|b l IH]; intros fuel c Hc Hall Hf.
  - simpl in Hc. subst c. destruct fuel; [simpl in Hf; lia|reflexivity].
  - destruct Hc as (-> & it & Hb & Hc). simpl in Hf.
    destruct fuel as [|fuel]; [lia|]. cbn [object_walk load bind].
    rewrite Hb. cbn [bind].
    destruct (Hall b) as (it' & n & Hb' & Hn & Hne); [apply list_elem_of_here|].
    assert (it' = it) by congruence. subst it'. rewrite Hn.
    unfold strcmp_differs. rewrite bool_decide_false by done. cbn [negb].
    apply IH; [exact Hc| |lia].
    intros b' Hb''. apply Hall. now apply list_elem_of_further.
Qed.

Lemma object_walk_unnamed (h : heap) (l : list nat) (key : bytes) :
  forall (i a fuel : nat) (c : ptr) (it : cJSON),
    chain h c l -> l !! i = Some a ->
    (forall j b, (j < i)%nat -> l !! j = Some b -> has_other_key h key b) ->
    h !! a = Some it -> name it = None -> (i < fuel)%nat ->
    object_walk fuel h c key = Fault 0.
Proof.
  induction l as [|b l IH]; intros i a fuel c ita Hc Hi Hbefore Ha Hnone Hf;
    [discriminate|].
  destruct Hc as (-> & it & Hb & Hc).
  destruct fuel as [|fuel]; [lia|]. cbn [object_walk load bind].
  rewrite Hb. cbn [bind].
  destruct i as [|i].
  - injection Hi as <-. assert (ita = it) by congruence. subst ita.
    now rewrite Hnone.
  - destruct (Hbefore 0%nat b) as (it' & n & Hb' & Hn & Hne);
      [lia|reflexivity|].
    assert (it' = it) by congruence. subst it'. rewrite Hn.
    unfold strcmp_differs. rewrite bool_decide_false by done. cbn [negb].
    apply (IH i a fuel (next it) ita Hc Hi); [|exact Ha|exact Hnone|lia].
    intros j b' Hj Hb''. apply (Hbefore (S j) b'); [lia|exact Hb''].
Qed.

End AccessFacts.

(** X1.  [cJSON_GetArraySize] returns the number of children of the item,
    whatever the store holds besides them. *)
Theorem get_array_size_counts_children (h : Tree.heap) (array : nat)
    (arr : Tree.cJSON) (l : list nat) :
  h !! array = Some arr -> Tree.chain h (Tree.child arr) l ->
  Tree.cJSON_GetArraySize h (Some array) = Done (List.length l).
Proof.
  intros Ha Hc. unfold Tree.cJSON_GetArraySize, Tree.load. rewrite Ha.
  cbn [bind]. rewrite (count_chain_spec h l _ _ 0%nat Hc); [reflexivity|].
  pose proof (chain_length_size h l _ Hc). lia.
Qed.

Lemma get_array_size_counts_children_witness :
  Tree.cJSON_GetArraySize Tree.example_object (Some 1%nat) = Done 3%nat.
Proof.
  apply (get_array_size_counts_children Tree.example_object 1
           (Tree.mkItem None (Some 2%nat) Tree.cJSON_Object None 0%float None
                        false false) [2; 3; 4]%nat).
  - reflexivity.
  - simpl. repeat (split; [reflexivity|]; eexists; split; [reflexivity|]).
    reflexivity.
Defined.

(** X2.  [cJSON_GetArrayItem] returns the child at the index, and NULL when
    the index is not below the number of children or the array is NULL. *)
Theorem get_array_item_indexes_children (h : Tree.heap) (array : nat)
    (arr : Tree.cJSON) (l : list nat) (i : nat) :
  h !! array = Some arr -> Tree.chain h (Tree.child arr) l ->
  Tree.cJSON_GetArrayItem h (Some array) i = Done (l !! i)
  /\ ((List.length l <= i)%nat ->
      Tree.cJSON_GetArrayItem h (Some array) i = Done None)
  /\ Tree.cJSON_GetArrayItem h None i = Done None.
Proof.
  intros Ha Hc.
  assert (H : Tree.cJSON_GetArrayItem h (Some array) i = Done (l !! i)).
  { unfold Tree.cJSON_GetArrayItem, Tree.load. rewrite Ha. cbn [bind].
    now apply item_walk_spec. }
  split; [exact H|]. split; [|reflexivity].
  intros Hlen. rewrite H. now rewrite lookup_ge_None_2.
Qed.

Lemma get_array_item_indexes_children_witness :
  Tree.cJSON_GetArrayItem Tree.example_object (Some 1%nat) 2
  = Done (Some 4%nat)
  /\ Tree.cJSON_GetArrayItem Tree.example_object (Some 1%nat) 3 = Done None.
Proof.
  assert (Hc : Tree.chain Tree.example_object (Some 2%nat) [2; 3; 4]%nat).
  { simpl. repeat (split; [reflexivity|]; eexists; split; [reflexivity|]).
    reflexivity. }
  split.
  - exact (proj1 (get_array_item_indexes_children Tree.example_object 1
                    (Tree.mkItem None (Some 2%nat) Tree.cJSON_Object None
                                 0%float None false false)
                    [2; 3; 4]%nat 2 eq_refl Hc)).
  - apply (proj1 (proj2 (get_array_item_indexes_children Tree.example_object
                           1 (Tree.mkItem None (Some 2%nat) Tree.cJSON_Object
                                          None 0%float None false false)
                           [2; 3; 4]%nat 3 eq_refl Hc))).
    simpl. lia.
Defined.

(** X3.  [cJSON_GetObjectItem] returns the first child whose name equals the
    key as a C string, and NULL when every child has another name;
    [cJSON_HasObjectItem] answers accordingly.  The comparison tells upper
    from lower case. *)
Theorem get_object_item_finds_first_match (h : Tree.heap) (object : nat)
    (obj : Tree.cJSON) (l : list nat) (key : bytes) :
  h !! object = Some obj -> Tree.chain h (Tree.child obj) l ->
  (forall i a,
     l !! i = Some a ->
     (forall j b, (j < i)%nat -> l !! j = Some b ->
                  Tree.has_other_key h key b) ->
     Tree.has_key h key a ->
     Tree.cJSON_GetObjectItem h (Some object) key = Done (Some a)
     /\ Tree.cJSON_HasObjectItem h (Some object) key = Done true)
  /\ ((forall b, b ∈ l -> Tree.has_other_key h key b) ->
      Tree.cJSON_GetObjectItem h (Some object) key = Done None
      /\ Tree.cJSON_HasObjectItem h (Some object) key = Done false).
Proof.
  intros Ho Hc. pose proof (chain_length_size h l _ Hc) as Hlen. split.
  - intros i a Hi Hbefore Hkey.
    assert (H : Tree.cJSON_GetObjectItem h (Some object) key = Done (Some a)).
    { unfold Tree.cJSON_GetObjectItem, Tree.load. rewrite Ho. cbn [bind].
      apply (object_walk_found h l key i a _ _ Hc Hi Hbefore Hkey).
      apply lookup_lt_Some in Hi. lia. }
    split; [exact H|]. unfold Tree.cJSON_HasObjectItem. now rewrite H.
  - intros Hall.
    assert (H : Tree.cJSON_GetObjectItem h (Some object) key = Done None).
    { unfold Tree.cJSON_GetObjectItem, Tree.load. rewrite Ho. cbn [bind].
      apply (object_walk_missing h l key _ _ Hc Hall). lia. }
    split; [exact H|]. unfold Tree.cJSON_HasObjectItem. now rewrite H.
Qed.

Lemma get_object_item_finds_first_match_witness :
  (Tree.cJSON_GetObjectItem Tree.example_object (Some 1%nat)
     (bytes_of_string "b") = Done (Some 3%nat)
   /\ Tree.cJSON_HasObjectItem Tree.example_object (Some 1%nat)
        (bytes_of_string "b") = Done true)
  /\ (Tree.cJSON_GetObjectItem Tree.example_object (Some 1%nat)
        (bytes_of_string "B") = Done None
      /\ Tree.cJSON_HasObjectItem Tree.example_object (Some 1%nat)
           (bytes_of_string "B") = Done false).
Proof.
  assert (Hc : Tree.chain Tree.example_object (Some 2%nat) [2; 3; 4]%nat).
  { simpl. repeat (split; [reflexivity|]; eexists; split; [reflexivity|]).
    reflexivity. }
  split.
  - destruct (get_object_item_finds_first_match Tree.example_object 1
                (Tree.mkItem None (Some 2%nat) Tree.cJSON_Object None 0%float
                             None false false) [2; 3; 4]%nat
                (bytes_of_string "b") eq_refl Hc) as [Hfound _].
    apply (Hfound 1%nat 3%nat).
    + reflexivity.
    + intros j b Hj Hb. destruct j as [|j]; [|lia].
      injection Hb as <-. eexists _, _.
      split; [reflexivity|]. split; [reflexivity|]. discriminate.
    + eexists _, _. split; [reflexivity|]. split; reflexivity.
  - destruct (get_object_item_finds_first_match Tree.example_object 1
                (Tree.mkItem None (Some 2%nat) Tree.cJSON_Object None 0%float
                             None false false) [2; 3; 4]%nat
                (bytes_of_string "B") eq_refl Hc) as [_ Hmissing].
    apply Hmissing. intros b Hb.
    repeat (apply elem_of_cons in Hb as [->|Hb];
            [eexists _, _; split; [reflexivity|];
             split; [reflexivity|discriminate]|]).
    now apply elem_of_nil in Hb.
Defined.

(** X4.  [cJSON_GetObjectItem] hands the name of every child it visits to
    [strcmp]: on a child without a name that comes before any match, as the
    elements of an array are, it reads through a NULL pointer. *)
Theorem get_object_item_reads_null_name (h : Tree.heap) (object : nat)
    (obj it : Tree.cJSON) (l : list nat) (key : bytes) (i a : nat) :
  h !! object = Some obj -> Tree.chain h (Tree.child obj) l ->
  l !! i = Some a ->
  (forall j b, (j < i)%nat -> l !! j = Some b -> Tree.has_other_key h key b) ->
  h !! a = Some it -> Tree.name it = None ->
  Tree.cJSON_GetObjectItem h (Some object) key = Fault 0.
Proof.
  intros Ho Hc Hi Hbefore Ha Hnone.
  pose proof (chain_length_size h l _ Hc) as Hlen.
  unfold Tree.cJSON_GetObjectItem, Tree.load. rewrite Ho. cbn [bind].
  apply (object_walk_unnamed h l key i a _ _ it Hc Hi Hbefore Ha Hnone).
  apply lookup_lt_Some in Hi. lia.
Qed.

Lemma get_object_item_reads_null_name_witness :
  Tree.cJSON_GetObjectItem
    (<[1%nat := Tree.mkItem None (Some 2%nat) Tree.cJSON_Array None 0%float
                            None false false]>
     (<[2%nat := Tree.mkItem None None Tree.cJSON_True None 0%float None
                             false false]> ∅))
    (Some 1%nat) (bytes_of_string "a") = Fault 0.
Proof.
  apply (get_object_item_reads_null_name _ 1
           (Tree.mkItem None (Some 2%nat) Tree.cJSON_Array None 0%float None
                        false false)
           (Tree.mkItem None None Tree.cJSON_True None 0%float None false
                        false) [2%nat] (bytes_of_string "a") 0 2).
  - reflexivity.
  - simpl. split; [reflexivity|]. eexists. split; reflexivity.
  - reflexivity.
  - intros j b Hj. lia.
  - reflexivity.
  - reflexivity.
Defined.

(** ** Adding and inserting items *)

Section AddFacts.

Import Tree.

Lemma links_only_refl (h : heap) : links_only h h.
Proof.
  split; [|done]. intros b it Hb. exists it. split; [done|].
  apply same_payload_refl.
Qed.

(** Redirecting one link of one item. *)
Lemma links_only_insert (h : heap) (a : nat) (it it' : cJSON) :
  h !! a = Some it -> same_payload it it' -> links_only h (<[a := it']> h).
Proof.
  intros Ha Hp. split.
  - intros b itb Hb. destruct (decide (b = a)) as [->|Hne].
    + rewrite lookup_insert_eq. exists it'. split; [done|]. congruence.
    + rewrite lookup_insert_ne by done. exists itb. split; [done|].
      apply same_payload_refl.
  - intros b Hb. rewrite lookup_insert_ne; [done|]. congruence.
Qed.

Lemma same_payload_trans (a b c : cJSON) :
  same_payload a b -> same_payload b c -> same_payload a c.
Proof.
  intros (H1 & H2 & H3 & H4 & H5 & H6) (G1 & G2 & G3 & G4 & G5 & G6).
  unfold same_payload. split_and!; congruence.
Qed.

Lemma links_only_trans (h1 h2 h3 : heap) :
  links_only h1 h2 -> links_only h2 h3 -> links_only h1 h3.
Proof.
  intros [H1 H1'] [H2 H2']. split.
  - intros b it Hb. destruct (H1 b it Hb) as (it' & Hb' & Hp).
    destruct (H2 b it' Hb') as (it'' & Hb'' & Hp').
    exists it''. split; [done|]. eapply same_payload_trans; eauto.
  - intros b Hb. auto.
Qed.

(** The last item of a chain has a NULL [next]. *)
Lemma chain_last (h : heap) (l : list nat) (z : nat) :
  forall c, chain h c (l ++ [z]) ->
            exists itz, h !! z = Some itz /\ next itz = None.
Proof.
  induction l as [|a l IH]; intros c Hc.
  - destruct Hc as (-> & it & Hz & Hn). simpl in Hn. eauto.
  - destruct Hc as (-> & it & Ha & Hc). eauto.
Qed.

Lemma last_child_spec (h : heap) (l : list nat) (z : nat) :
  forall (fuel : nat) (c : ptr),
    chain h c (l ++ [z]) -> (List.length l < fuel)%nat ->
    last_child fuel h c = Done (Some z).
Proof.
  induction l as [|a l IH]; intros fuel c Hc Hf.
  - destruct Hc as (-> & it & Hz & Hn). simpl in Hn.
    destruct fuel as [|fuel]; [lia|]. cbn [last_child load bind].
    rewrite Hz. cbn [bind]. now rewrite Hn.
  - destruct Hc as (-> & it & Ha & Hc). simpl in Hf.
    destruct fuel as [|fuel]; [lia|]. cbn [last_child load bind].
    rewrite Ha. cbn [bind].
    destruct (next it) as [n|] eqn:En.
    + apply IH; [exact Hc|lia].
    + destruct l; simpl in Hc; destruct Hc as [Hc _]; discriminate.
Qed.

(** Hanging an item behind the last one of a chain. *)
Lemma chain_snoc (h : heap) (l : list nat) (z item : nat) (itz it : cJSON) :
  forall c,
    chain h c (l ++ [z]) -> h !! z = Some itz -> h !! item = Some it ->
    next it = None -> item ∉ l ++ [z] ->
    chain (<[z := set_next (Some item) itz]> h) c ((l ++ [z]) ++ [item]).
Proof.
  induction l as [|a l IH]; intros c Hc Hz Hitem Hn Hnotin.
  - destruct Hc as (-> & it' & Hz' & _). simpl.
    assert (Hne : z <> item).
    { intros ->. apply Hnotin. apply list_elem_of_here. }
    split; [done|]. eexists. split; [apply lookup_insert_eq|].
    cbn [next set_next]. split; [done|]. exists it.
    rewrite lookup_insert_ne by done. now split.
  - pose proof (chain_NoDup _ _ _ Hc) as Hnd.
    destruct Hc as (-> & ita & Ha & Hc).
    simpl in Hnd. apply NoDup_cons in Hnd as [Haz _].
    assert (Hne : z <> a).
    { intros ->. apply Haz. apply elem_of_app. right. apply list_elem_of_here. }
    simpl. split; [done|]. exists ita. rewrite lookup_insert_ne by done.
    split; [done|]. apply IH; try done.
    intros Hin. apply Hnotin. now apply list_elem_of_further.
Qed.

Lemma add_item_spec (h : heap) (array item : nat) (arr it : cJSON)
    (l : list nat) :
  h !! array = Some arr -> chain h (child arr) l ->
  h !! item = Some it -> next it = None -> item ∉ l ->
  exists h' arr',
    cJSON_AddItemToArray h (Some array) (Some item) = Done h'
    /\ h' !! array = Some arr' /\ chain h' (child arr') (l ++ [item])
    /\ links_only h h'.
Proof.
  intros Ha Hc Hitem Hn Hnotin.
  unfold cJSON_AddItemToArray. cbn [is_null orb load]. rewrite Ha.
  cbn [bind].
  destruct l as [|z l _] using rev_ind.
  - simpl in Hc. rewrite Hc. cbn [modify]. rewrite Ha.
    exists (<[array := set_child (Some item) arr]> h),
           (set_child (Some item) arr).
    split; [done|]. split; [apply lookup_insert_eq|]. split.
    + cbn [child set_child app chain]. split; [done|].
      destruct (decide (item = array)) as [->|Hne].
      * rewrite lookup_insert_eq. eexists. split; [done|].
        cbn [next set_child]. congruence.
      * rewrite lookup_insert_ne by done. exists it. now split.
    + now apply (links_only_insert h array arr).
  - destruct (child arr) as [c|] eqn:Ec.
    2:{ destruct l; simpl in Hc; destruct Hc as [Hc _]; discriminate. }
    rewrite (last_child_spec h l z _ _ Hc).
    2:{ pose proof (chain_length_size _ _ _ Hc) as Hlen.
        rewrite length_app in Hlen. simpl in Hlen. lia. }
    cbn [bind suffix_object modify].
    destruct (chain_last _ _ _ _ Hc) as (itz & Hz & Hzn). rewrite Hz.
    set (h' := <[z := set_next (Some item) itz]> h).
    assert (Hch : chain h' (Some c) ((l ++ [z]) ++ [item])).
    { apply (chain_snoc h l z item itz it); done. }
    assert (Hlk : links_only h h') by now apply (links_only_insert h z itz).
    destruct (proj1 Hlk array arr Ha) as (arr' & Ha' & Hp).
    exists h', arr'. split; [done|]. split; [done|]. split; [|done].
    assert (Hchild : child arr' = Some c).
    { unfold h' in Ha'. destruct (decide (array = z)) as [->|Hne].
      - rewrite lookup_insert_eq in Ha'. injection Ha' as <-.
        cbn [child set_next]. congruence.
      - rewrite lookup_insert_ne in Ha' by done. congruence. }
    now rewrite Hchild.
Qed.

End AddFacts.



(** X6.  After [cJSON_AddItemToArray] the array is one longer and the item
    is found at the old size by [cJSON_GetArrayItem], the old children at
    their old indexes. *)
Theorem add_item_then_get (h : Tree.heap) (array item : nat)
    (arr it : Tree.cJSON) (l : list nat) :
  h !! array = Some arr -> Tree.chain h (Tree.child arr) l ->
  h !! item = Some it -> Tree.next it = None -> item ∉ l ->
  exists h',
    Tree.cJSON_AddItemToArray h (Some array) (Some item) = Done h'
    /\ Tree.cJSON_GetArraySize h' (Some array) = Done (S (List.length l))
    /\ Tree.cJSON_GetArrayItem h' (Some array) (List.length l)
       = Done (Some item)
    /\ forall i a, l !! i = Some a ->
         Tree.cJSON_GetArrayItem h' (Some array) i = Done (Some a).
Proof.
  intros Ha Hc Hitem Hn Hnotin.
  destruct (add_item_spec h array item arr it l Ha Hc Hitem Hn Hnotin)
    as (h' & arr' & Hrun & Ha' & Hc' & _).
  exists h'. split; [exact Hrun|]. split; [|split].
  - unfold Tree.cJSON_GetArraySize, Tree.load. rewrite Ha'. cbn [bind].
    rewrite (count_chain_spec h' _ _ _ 0%nat Hc').
    + rewrite length_app. simpl. f_equal. lia.
    + pose proof (chain_length_size _ _ _ Hc'). lia.
  - unfold Tree.cJSON_GetArrayItem, Tree.load. rewrite Ha'. cbn [bind].
    rewrite (item_walk_spec h' _ _ _ Hc').
    rewrite lookup_app_r by lia. now rewrite Nat.sub_diag.
  - intros i a Hi.
    unfold Tree.cJSON_GetArrayItem, Tree.load. rewrite Ha'. cbn [bind].
    rewrite (item_walk_spec h' _ _ _ Hc').
    rewrite lookup_app_l by (apply lookup_lt_Some in Hi; lia). now rewrite Hi.
Qed.

Lemma add_item_then_get_witness :
  exists h',
    Tree.cJSON_AddItemToArray
      (<[5%nat := Tree.example_member "d" 4%float None]> Tree.example_object)
      (Some 1%nat) (Some 5%nat) = Done h'
    /\ Tree.cJSON_GetArraySize h' (Some 1%nat) = Done 4%nat
    /\ Tree.cJSON_GetArrayItem h' (Some 1%nat) 3 = Done (Some 5%nat)
    /\ forall i a, [2; 3; 4]%nat !! i = Some a ->
         Tree.cJSON_GetArrayItem h' (Some 1%nat) i = Done (Some a).
Proof.
  apply (add_item_then_get
           (<[5%nat := Tree.example_member "d" 4%float None]>
              Tree.example_object) 1 5
           (Tree.mkItem None (Some 2%nat) Tree.cJSON_Object None 0%float None
                        false false)
           (Tree.example_member "d" 4%float None) [2; 3; 4]%nat).
  - reflexivity.
  - simpl. repeat (split; [reflexivity|]; eexists; split; [reflexivity|]).
    reflexivity.
  - reflexivity.
  - reflexivity.
  - intros Hin. repeat (apply elem_of_cons in Hin as [Hin|Hin]; [lia|]).
    now apply elem_of_nil in Hin.
Defined.

(** ** Adding members to an object *)

Section AddObjectFacts.

Import Tree.

Lemma has_other_key_links (h h' : heap) (key : bytes) (b : nat) :
  links_only h h' -> has_other_key h key b -> has_other_key h' key b.
Proof.
  intros [Hl _] (it & n & Hb & Hn & Hne).
  destruct (Hl b it Hb) as (it' & Hb' & Hp).
  exists it', n. split; [done|]. split; [|done].
  destruct Hp as (_ & _ & _ & <- & _). done.
Qed.

Lemma has_key_links (h h' : heap) (key : bytes) (b : nat) :
  links_only h h' -> has_key h key b -> has_key h' key b.
Proof.
  intros [Hl _] (it & n & Hb & Hn & Hne).
  destruct (Hl b it Hb) as (it' & Hb' & Hp).
  exists it', n. split; [done|]. split; [|done].
  destruct Hp as (_ & _ & _ & <- & _). done.
Qed.

(** What naming an item and appending it to the members gives. *)
Lemma add_named_spec (h : heap) (object item : nat) (obj it : cJSON)
    (l : list nat) (key : bytes) (f : cJSON -> cJSON) :
  h !! object = Some obj -> chain h (child obj) l ->
  h !! item = Some it -> next it = None -> item ∉ l ->
  next (f it) = next it -> child (f obj) = child obj ->
  (exists n, name (f it) = Some n /\ cstring n = cstring key) ->
  exists h' obj' it',
    cJSON_AddItemToArray (<[item := f it]> h) (Some object) (Some item)
      = Done h'
    /\ h' !! object = Some obj' /\ chain h' (child obj') (l ++ [item])
    /\ has_key h' key item
    /\ (forall b, b ∈ l -> has_other_key h key b -> has_other_key h' key b)
    /\ (forall b, b ∈ l -> has_key h key b -> has_key h' key b)
    /\ h' !! item = Some it' /\ name it' = name (f it)
    /\ string_is_const it' = string_is_const (f it).
Proof.
  intros Ho Hc Hitem Hn Hnotin Hfn Hfc (n & Hname & Hcs).
  set (h1 := <[item := f it]> h).
  assert (Hc1 : chain h1 (child obj) l).
  { apply (chain_agree h h1 l); [|done]. intros b Hb.
    apply lookup_insert_ne. intros ->. done. }
  assert (Ho1 : exists obj1, h1 !! object = Some obj1
                             /\ child obj1 = child obj).
  { unfold h1. destruct (decide (item = object)) as [->|Hne].
    - rewrite lookup_insert_eq. exists (f it). split; [done|].
      assert (it = obj) by congruence. subst it. done.
    - rewrite lookup_insert_ne by done. eauto. }
  destruct Ho1 as (obj1 & Ho1 & Hchild). rewrite <- Hchild in Hc1.
  destruct (add_item_spec h1 object item obj1 (f it) l Ho1 Hc1)
    as (h' & obj' & Hrun & Ho' & Hc' & Hlk);
    [apply lookup_insert_eq|congruence|done|].
  destruct (proj1 Hlk item (f it)) as (it' & Hit' & Hp);
    [apply lookup_insert_eq|].
  exists h', obj', it'. split; [done|]. split; [done|]. split; [done|].
  split; [|split; [|split]].
  - apply (has_key_links h1 h' key item Hlk).
    exists (f it), n. split; [apply lookup_insert_eq|]. now split.
  - intros b Hb (itb & nb & Hb' & Hnb & Hne).
    apply (has_other_key_links h1 h' key b Hlk).
    exists itb, nb. split; [|now split].
    unfold h1. rewrite lookup_insert_ne; [done|]. intros ->. done.
  - intros b Hb (itb & nb & Hb' & Hnb & Hne).
    apply (has_key_links h1 h' key b Hlk).
    exists itb, nb. split; [|now split].
    unfold h1. rewrite lookup_insert_ne; [done|]. intros ->. done.
  - destruct Hp as (_ & _ & _ & <- & _ & <-). done.
Qed.

Lemma get_after_add (h h' : heap) (object item : nat) (obj' : cJSON)
    (l : list nat) (key : bytes) :
  h' !! object = Some obj' -> chain h' (child obj') (l ++ [item]) ->
  has_key h' key item ->
  (forall b, b ∈ l -> has_other_key h key b -> has_other_key h' key b) ->
  (forall b, b ∈ l -> has_key h key b -> has_key h' key b) ->
  ((forall b, b ∈ l -> has_other_key h key b) ->
   cJSON_GetObjectItem h' (Some object) key = Done (Some item))
  /\ (forall i a,
        l !! i = Some a ->
        (forall j b, (j < i)%nat -> l !! j = Some b -> has_other_key h key b) ->
        has_key h key a ->
        cJSON_GetObjectItem h' (Some object) key = Done (Some a)).
Proof.
  intros Ho' Hc' Hkey Hother Hsame.
  pose proof (chain_length_size _ _ _ Hc') as Hlen.
  rewrite length_app in Hlen. simpl in Hlen.
  split.
  - intros Hall. unfold cJSON_GetObjectItem, load. rewrite Ho'. cbn [bind].
    apply (object_walk_found h' (l ++ [item]) key (List.length l) item _ _
             Hc'); [| |exact Hkey|lia].
    + rewrite lookup_app_r by lia. now rewrite Nat.sub_diag.
    + intros j b Hj Hb. rewrite lookup_app_l in Hb by lia.
      apply list_elem_of_lookup_2 in Hb. auto.
  - intros i a Hi Hbefore Ha.
    pose proof (lookup_lt_Some _ _ _ Hi) as Hlt.
    unfold cJSON_GetObjectItem, load. rewrite Ho'. cbn [bind].
    apply (object_walk_found h' (l ++ [item]) key i a _ _ Hc'); [| | |lia].
    + rewrite lookup_app_l by lia. exact Hi.
    + intros j b Hj Hb. rewrite lookup_app_l in Hb by lia.
      apply Hother; [now apply list_elem_of_lookup_2 in Hb|].
      now apply (Hbefore j b).
    + apply Hsame; [now apply list_elem_of_lookup_2 in Hi|exact Ha].
Qed.

End AddObjectFacts.



(** X8.  [cJSON_AddItemToObjectCS] takes the key over as it is, marks the
    name as a constant and makes the item the last member; the item is then
    found under the key unless an older member has that name. *)
Theorem add_item_to_object_cs_then_get (h : Tree.heap) (object item : nat)
    (obj it : Tree.cJSON) (l : list nat) (key : bytes) :
  h !! object = Some obj -> Tree.chain h (Tree.child obj) l ->
  h !! item = Some it -> Tree.next it = None -> item ∉ l ->
  exists h' obj' it',
    Tree.cJSON_AddItemToObjectCS h (Some object) (Some key) (Some item)
      = Done h'
    /\ h' !! object = Some obj'
    /\ Tree.chain h' (Tree.child obj') (l ++ [item])
    /\ h' !! item = Some it' /\ Tree.name it' = Some key
    /\ Tree.string_is_const it' = true
    /\ ((forall b, b ∈ l -> Tree.has_other_key h key b) ->
        Tree.cJSON_GetObjectItem h' (Some object) key = Done (Some item)).
Proof.
  intros Ho Hc Hitem Hn Hnotin.
  unfold Tree.cJSON_AddItemToObjectCS. cbn [Tree.is_null Tree.modify].
  rewrite Hitem. cbn [bind]. rewrite lookup_insert_eq. cbn [bind].
  rewrite insert_insert_eq.
  destruct (add_named_spec h object item obj it l key
              (fun c => Tree.set_string_is_const true
                          (Tree.set_name (Some key) c))
              Ho Hc Hitem Hn Hnotin)
    as (h' & obj' & it' & Hrun & Ho' & Hc' & Hkey & Hother & Hsame & Hit'
        & Hname & Hconst);
    [reflexivity|reflexivity| |].
  { exists key. split; reflexivity. }
  exists h', obj', it'. split; [exact Hrun|]. split; [exact Ho'|].
  split; [exact Hc'|]. split; [exact Hit'|].
  split; [exact Hname|]. split; [exact Hconst|].
  now apply (get_after_add h h' object item obj' l key).
Qed.

Lemma add_item_to_object_cs_then_get_witness :
  exists h' obj' it',
    Tree.cJSON_AddItemToObjectCS
      (<[5%nat := Tree.example_member "x" 4%float None]> Tree.example_object)
      (Some 1%nat) (Some (bytes_of_string "d")) (Some 5%nat) = Done h'
    /\ h' !! 1%nat = Some obj'
    /\ Tree.chain h' (Tree.child obj') ([2; 3; 4] ++ [5])%nat
    /\ h' !! 5%nat = Some it'
    /\ Tree.name it' = Some (bytes_of_string "d")
    /\ Tree.string_is_const it' = true
    /\ Tree.cJSON_GetObjectItem h' (Some 1%nat) (bytes_of_string "d")
       = Done (Some 5%nat).
Proof.
  destruct (add_item_to_object_cs_then_get
              (<[5%nat := Tree.example_member "x" 4%float None]>
                 Tree.example_object) 1 5
              (Tree.mkItem None (Some 2%nat) Tree.cJSON_Object None 0%float
                           None false false)
              (Tree.example_member "x" 4%float None) [2; 3; 4]%nat
              (bytes_of_string "d"))
    as (h' & obj' & it' & H1 & H2 & H3 & H4 & H5 & H6 & H7).
  - reflexivity.
  - simpl. repeat (split; [reflexivity|]; eexists; split; [reflexivity|]).
    reflexivity.
  - reflexivity.
  - reflexivity.
  - intros Hin. repeat (apply elem_of_cons in Hin as [Hin|Hin]; [lia|]).
    now apply elem_of_nil in Hin.
  - exists h', obj', it'. split_and!; try done. apply H7.
    intros b Hb.
    repeat (apply elem_of_cons in Hb as [->|Hb];
            [eexists _, _; split; [reflexivity|];
             split; [reflexivity|discriminate]|]).
    now apply elem_of_nil in Hb.
Defined.

(** ** Inserting into an array *)

Section InsertFacts.

Import Tree.

(** Hanging an item behind the item [p] of a chain. *)
Lemma chain_insert_after (h : heap) (l1 l2 : list nat) (p item : nat)
    (itp it : cJSON) :
  forall c,
    chain h c (l1 ++ p :: l2) -> item ∉ l1 ++ p :: l2 ->
    h !! p = Some itp -> h !! item = Some it ->
    chain (<[p := set_next (Some item) itp]>
             (<[item := set_next (next itp) it]> h))
          c (l1 ++ p :: item :: l2).
Proof.
  induction l1 as [|a l1 IH]; intros c Hc Hnotin Hp Hitem.
  - pose proof (chain_NoDup _ _ _ Hc) as Hnd. simpl in *.
    apply NoDup_cons in Hnd as [Hpl2 _].
    destruct Hc as (-> & itp' & Hp' & Hc).
    assert (itp' = itp) by congruence. subst itp'.
    assert (Hne : p <> item).
    { intros ->. apply Hnotin. apply list_elem_of_here. }
    split; [done|]. eexists. split; [apply lookup_insert_eq|].
    cbn [next set_next]. split; [done|].
    eexists. split.
    { rewrite lookup_insert_ne by done. apply lookup_insert_eq. }
    cbn [next set_next].
    apply (chain_agree h _ l2); [|done]. intros b Hb.
    rewrite !lookup_insert_ne; [done| |].
    + intros ->. apply Hnotin. now apply list_elem_of_further.
    + intros ->. done.
  - pose proof (chain_NoDup _ _ _ Hc) as Hnd. simpl in *.
    apply NoDup_cons in Hnd as [Hal _].
    destruct Hc as (-> & ita & Ha & Hc).
    split; [done|]. exists ita. split.
    + rewrite !lookup_insert_ne; [done| |].
      * intros ->. apply Hnotin. apply list_elem_of_here.
      * intros ->. apply Hal. apply elem_of_app. right.
        apply list_elem_of_here.
    + apply IH; try done. intros Hin. apply Hnotin.
      now apply list_elem_of_further.
Qed.

Lemma insert_item_front (h : heap) (array item a : nat) (arr it : cJSON)
    (l : list nat) :
  h !! array = Some arr -> chain h (child arr) (a :: l) -> array ∉ a :: l ->
  h !! item = Some it -> item ∉ a :: l ->
  exists h' arr',
    cJSON_InsertItemInArray h (Some array) 0 (Some item) = Done h'
    /\ h' !! array = Some arr' /\ chain h' (child arr') (item :: a :: l)
    /\ links_only h h'.
Proof.
  intros Ha Hc Harr Hitem Hnotin.
  pose proof Hc as (Hchild & ita & Hita & Hrest).
  unfold cJSON_InsertItemInArray. cbn [load]. rewrite Ha. cbn [bind].
  rewrite Hchild. cbn [detach_walk bind modify]. rewrite Hitem. cbn [bind].
  remember (<[item := set_next (Some a) it]> h) as h1 eqn:Eh1.
  assert (Hlk1 : links_only h h1)
    by (rewrite Eh1; now apply (links_only_insert h item it)).
  destruct (proj1 Hlk1 array arr Ha) as (arr1 & Ha1 & Hp1).
  assert (Hchild1 : child arr1 = Some a).
  { rewrite Eh1 in Ha1. destruct (decide (array = item)) as [->|Hne].
    - rewrite lookup_insert_eq in Ha1. injection Ha1 as <-.
      cbn [child set_next]. congruence.
    - rewrite lookup_insert_ne in Ha1 by done. congruence. }
  cbn [load]. rewrite Ha1. cbn [bind]. rewrite Hchild1.
  cbn [ptr_eqb]. rewrite Nat.eqb_refl.
  remember (<[array := set_child (Some item) arr1]> h1) as h' eqn:Eh'.
  exists h', (set_child (Some item) arr1).
  split; [done|]. split; [rewrite Eh'; apply lookup_insert_eq|]. split.
  - cbn [child set_child].
    assert (Hal : chain h' (Some a) (a :: l)).
    { apply (chain_agree h h' (a :: l)).
      - intros b Hb. rewrite Eh', Eh1. rewrite !lookup_insert_ne; [done| |].
        + intros ->. done.
        + intros ->. done.
      - now rewrite <- Hchild. }
    cbn [chain]. split; [done|].
    destruct (decide (item = array)) as [->|Hne].
    + exists (set_child (Some array) arr1).
      split; [rewrite Eh'; apply lookup_insert_eq|].
      cbn [next set_child]. rewrite Eh1 in Ha1.
      rewrite lookup_insert_eq in Ha1. injection Ha1 as <-.
      cbn [next set_next]. exact Hal.
    + exists (set_next (Some a) it). split.
      * rewrite Eh', Eh1. rewrite lookup_insert_ne by done.
        apply lookup_insert_eq.
      * exact Hal.
  - apply (links_only_trans h h1 h' Hlk1).
    rewrite Eh'. now apply (links_only_insert h1 array arr1).
Qed.

Lemma insert_item_inside (h : heap) (array item p a : nat)
    (arr it : cJSON) (l1 l2 : list nat) :
  h !! array = Some arr -> chain h (child arr) (l1 ++ p :: a :: l2) ->
  array ∉ l1 ++ p :: a :: l2 ->
  h !! item = Some it -> item ∉ l1 ++ p :: a :: l2 ->
  exists h' arr',
    cJSON_InsertItemInArray h (Some array) (S (List.length l1)) (Some item)
      = Done h'
    /\ h' !! array = Some arr'
    /\ chain h' (child arr') (l1 ++ p :: item :: a :: l2)
    /\ links_only h h'.
Proof.
  intros Ha Hc Harr Hitem Hnotin.
  set (l := l1 ++ p :: a :: l2) in *.
  pose proof (chain_NoDup _ _ _ Hc) as Hnd.
  assert (Hia : l !! S (List.length l1) = Some a).
  { unfold l. rewrite lookup_app_r by lia.
    replace (S (List.length l1) - List.length l1)%nat with 1%nat by lia.
    reflexivity. }
  assert (Hip : l !! List.length l1 = Some p).
  { unfold l. rewrite lookup_app_r by lia. now rewrite Nat.sub_diag. }
  unfold cJSON_InsertItemInArray. cbn [load]. rewrite Ha. cbn [bind].
  rewrite (detach_walk_spec h l _ None _ a Hc Hia). cbn [bind modify].
  rewrite Hitem. cbn [bind]. rewrite Hip.
  remember (<[item := set_next (Some a) it]> h) as h1 eqn:Eh1.
  assert (Hlk1 : links_only h h1)
    by (rewrite Eh1; now apply (links_only_insert h item it)).
  destruct (proj1 Hlk1 array arr Ha) as (arr1 & Ha1 & Hp1).
  assert (Hchild1 : child arr1 = child arr).
  { rewrite Eh1 in Ha1. destruct (decide (array = item)) as [->|Hne].
    - rewrite lookup_insert_eq in Ha1. injection Ha1 as <-.
      cbn [child set_next]. congruence.
    - rewrite lookup_insert_ne in Ha1 by done. congruence. }
  cbn [load]. rewrite Ha1. cbn [bind]. rewrite Hchild1.
  assert (Hfirst : exists b, child arr = Some b /\ l !! 0%nat = Some b).
  { unfold l in *. destruct l1 as [|b l1]; simpl in Hc;
      destruct Hc as (Hc & _); eexists; split; try exact Hc; reflexivity. }
  destruct Hfirst as (b & Hb & Hb0). rewrite Hb. cbn [ptr_eqb].
  assert (Hab : (a =? b)%nat = false).
  { apply Nat.eqb_neq. intros ->.
    pose proof (NoDup_lookup _ _ _ _ Hnd Hia Hb0). lia. }
  rewrite Hab.
  assert (Hpl : exists itp, h !! p = Some itp /\ next itp = Some a).
  { pose proof (chain_suffix h l _ _ p Hc Hip) as Hs.
    unfold l in Hs. rewrite drop_app_length in Hs.
    destruct Hs as (_ & itp & Hp & Hs). destruct Hs as (Hs & _). eauto. }
  destruct Hpl as (itp & Hp & Hpn).
  assert (Hpi : p <> item).
  { intros ->. apply Hnotin. unfold l. apply elem_of_app. right.
    apply list_elem_of_here. }
  assert (Hp1' : h1 !! p = Some itp)
    by (rewrite Eh1; now rewrite lookup_insert_ne).
  cbn [modify]. rewrite Hp1'.
  remember (<[p := set_next (Some item) itp]> h1) as h' eqn:Eh'.
  assert (Hlk : links_only h h').
  { apply (links_only_trans h h1 h' Hlk1).
    rewrite Eh'. now apply (links_only_insert h1 p itp). }
  assert (Hap : array <> p).
  { intros ->. apply Harr. unfold l. apply elem_of_app. right.
    apply list_elem_of_here. }
  exists h', arr1. split; [done|]. split.
  { rewrite Eh'. now rewrite lookup_insert_ne. }
  split; [|done]. rewrite Hchild1.
  rewrite Eh', Eh1, <- Hpn.
  apply (chain_insert_after h l1 (a :: l2) p item itp it); done.
Qed.

Lemma take_drop_insert (l1 l2 : list nat) (p a item : nat) :
  take (S (List.length l1)) (l1 ++ p :: a :: l2)
  ++ item :: drop (S (List.length l1)) (l1 ++ p :: a :: l2)
  = l1 ++ p :: item :: a :: l2.
Proof.
  replace (S (List.length l1)) with (List.length (l1 ++ [p]))
    by (rewrite length_app; simpl; lia).
  replace (l1 ++ p :: a :: l2) with ((l1 ++ [p]) ++ a :: l2)
    by now rewrite <- app_assoc.
  rewrite take_app_length, drop_app_length, <- app_assoc. reflexivity.
Qed.

Lemma insert_item_spec (h : heap) (array item : nat) (arr it : cJSON)
    (l : list nat) (i : nat) :
  h !! array = Some arr -> chain h (child arr) l -> array ∉ l ->
  h !! item = Some it -> item ∉ l -> (i < List.length l)%nat ->
  exists h' arr',
    cJSON_InsertItemInArray h (Some array) i (Some item) = Done h'
    /\ h' !! array = Some arr'
    /\ chain h' (child arr') (take i l ++ item :: drop i l)
    /\ links_only h h'.
Proof.
  intros Ha Hc Harr Hitem Hnotin Hi.
  destruct i as [|j].
  - destruct l as [|a l]; [simpl in Hi; lia|].
    now apply (insert_item_front h array item a arr it l).
  - assert (Hsplit : exists l1 p a l2,
               l = l1 ++ p :: a :: l2 /\ List.length l1 = j).
    { destruct (lookup_lt_is_Some_2 l j) as [p Hp]; [lia|].
      destruct (lookup_lt_is_Some_2 l (S j)) as [a Ha']; [lia|].
      exists (take j l), p, a, (drop (S (S j)) l). split.
      - rewrite <- (take_drop j l) at 1. f_equal.
        rewrite (drop_S l p j Hp). f_equal.
        now rewrite (drop_S l a (S j) Ha').
      - rewrite length_take. lia. }
    destruct Hsplit as (l1 & p & a & l2 & -> & <-).
    rewrite take_drop_insert.
    now apply (insert_item_inside h array item p a arr it l1 l2).
Qed.

End InsertFacts.

(** X9.  [cJSON_InsertItemInArray] at an index below the number of children
    puts the item in front of the child at that index: the item is then the
    child at the index, the array is one longer, and only links have
    changed.  At an index that is not below the number of children it
    appends the item, as [cJSON_AddItemToArray] does. *)
Theorem insert_item_in_array_places_item (h : Tree.heap) (array item : nat)
    (arr it : Tree.cJSON) (l : list nat) (i : nat) :
  h !! array = Some arr -> Tree.chain h (Tree.child arr) l -> array ∉ l ->
  h !! item = Some it -> item ∉ l ->
  ((i < List.length l)%nat ->
   exists h' arr',
     Tree.cJSON_InsertItemInArray h (Some array) i (Some item) = Done h'
     /\ h' !! array = Some arr'
     /\ Tree.chain h' (Tree.child arr') (take i l ++ item :: drop i l)
     /\ Tree.links_only h h'
     /\ Tree.cJSON_GetArrayItem h' (Some array) i = Done (Some item)
     /\ Tree.cJSON_GetArraySize h' (Some array) = Done (S (List.length l)))
  /\ ((List.length l <= i)%nat -> Tree.next it = None ->
      exists h' arr',
        Tree.cJSON_InsertItemInArray h (Some array) i (Some item) = Done h'
        /\ h' !! array = Some arr'
        /\ Tree.chain h' (Tree.child arr') (l ++ [item])
        /\ Tree.links_only h h').
Proof.
  intros Ha Hc Harr Hitem Hnotin. split.
  - intros Hi.
    destruct (insert_item_spec h array item arr it l i Ha Hc Harr Hitem
                Hnotin Hi) as (h' & arr' & Hrun & Ha' & Hc' & Hlk).
    exists h', arr'. split_and!; try done.
    + unfold Tree.cJSON_GetArrayItem, Tree.load. rewrite Ha'. cbn [bind].
      rewrite (item_walk_spec h' _ _ _ Hc').
      rewrite lookup_app_r by (rewrite length_take; lia).
      rewrite length_take. now replace (i - i `min` List.length l)%nat
        with 0%nat by lia.
    + unfold Tree.cJSON_GetArraySize, Tree.load. rewrite Ha'. cbn [bind].
      rewrite (count_chain_spec h' _ _ _ 0%nat Hc').
      * rewrite length_app, length_take. simpl. rewrite length_drop.
        f_equal. lia.
      * pose proof (chain_length_size _ _ _ Hc'). lia.
  - intros Hi Hn.
    destruct (add_item_spec h array item arr it l Ha Hc Hitem Hn Hnotin)
      as (h' & arr' & Hrun & Ha' & Hc' & Hlk).
    exists h', arr'. split; [|done].
    unfold Tree.cJSON_InsertItemInArray. cbn [Tree.load]. rewrite Ha.
    cbn [bind].
    destruct (detach_walk_past_end h l _ None i Hc Hi) as [q Hq].
    rewrite Hq. cbn [bind]. exact Hrun.
Qed.

Lemma insert_item_in_array_places_item_witness :
  (exists h' arr',
     Tree.cJSON_InsertItemInArray
       (<[5%nat := Tree.example_member "d" 4%float None]> Tree.example_object)
       (Some 1%nat) 1 (Some 5%nat) = Done h'
     /\ h' !! 1%nat = Some arr'
     /\ Tree.chain h' (Tree.child arr') [2; 5; 3; 4]%nat
     /\ Tree.links_only
          (<[5%nat := Tree.example_member "d" 4%float None]>
             Tree.example_object) h'
     /\ Tree.cJSON_GetArrayItem h' (Some 1%nat) 1 = Done (Some 5%nat)
     /\ Tree.cJSON_GetArraySize h' (Some 1%nat) = Done 4%nat)
  /\ (exists h' arr',
        Tree.cJSON_InsertItemInArray
          (<[5%nat := Tree.example_member "d" 4%float None]>
             Tree.example_object)
          (Some 1%nat) 7 (Some 5%nat) = Done h'
        /\ h' !! 1%nat = Some arr'
        /\ Tree.chain h' (Tree.child arr') [2; 3; 4; 5]%nat
        /\ Tree.links_only
             (<[5%nat := Tree.example_member "d" 4%float None]>
                Tree.example_object) h').
Proof.
  destruct (insert_item_in_array_places_item
              (<[5%nat := Tree.example_member "d" 4%float None]>
                 Tree.example_object) 1 5
              (Tree.mkItem None (Some 2%nat) Tree.cJSON_Object None 0%float
                           None false false)
              (Tree.example_member "d" 4%float None) [2; 3; 4]%nat 1)
    as [Hin _].
  { reflexivity. }
  { simpl. repeat (split; [reflexivity|]; eexists; split; [reflexivity|]).
    reflexivity. }
  { intros Hin. repeat (apply elem_of_cons in Hin as [Hin|Hin]; [lia|]).
    now apply elem_of_nil in Hin. }
  { reflexivity. }
  { intros Hin. repeat (apply elem_of_cons in Hin as [Hin|Hin]; [lia|]).
    now apply elem_of_nil in Hin. }
  destruct (insert_item_in_array_places_item
              (<[5%nat := Tree.example_member "d" 4%float None]>
                 Tree.example_object) 1 5
              (Tree.mkItem None (Some 2%nat) Tree.cJSON_Object None 0%float
                           None false false)
              (Tree.example_member "d" 4%float None) [2; 3; 4]%nat 7)
    as [_ Hout].
  { reflexivity. }
  { simpl. repeat (split; [reflexivity|]; eexists; split; [reflexivity|]).
    reflexivity. }
  { intros Hin'. repeat (apply elem_of_cons in Hin' as [Hin'|Hin']; [lia|]).
    now apply elem_of_nil in Hin'. }
  { reflexivity. }
  { intros Hin'. repeat (apply elem_of_cons in Hin' as [Hin'|Hin']; [lia|]).
    now apply elem_of_nil in Hin'. }
  split.
  - apply Hin. simpl. lia.
  - apply Hout; [simpl; lia|reflexivity].
Defined.

(** X10.  Inserting an item at an index and detaching the child at that
    index gives the item back, with a NULL [next], and leaves the children
    as they were before. *)
Theorem insert_then_detach_round_trip (h : Tree.heap) (array item : nat)
    (arr it : Tree.cJSON) (l : list nat) (i : nat) :
  h !! array = Some arr -> Tree.chain h (Tree.child arr) l -> array ∉ l ->
  h !! item = Some it -> item ∉ l -> item <> array ->
  (i < List.length l)%nat ->
  exists h1 h2 arr2 it2,
    Tree.cJSON_InsertItemInArray h (Some array) i (Some item) = Done h1
    /\ Tree.cJSON_DetachItemFromArray h1 (Some array) i = Done (h2, Some item)
    /\ h2 !! array = Some arr2 /\ Tree.chain h2 (Tree.child arr2) l
    /\ h2 !! item = Some it2 /\ Tree.next it2 = None
    /\ Tree.links_only h h2.
Proof.
  intros Ha Hc Harr Hitem Hnotin Hne Hi.
  destruct (insert_item_spec h array item arr it l i Ha Hc Harr Hitem
              Hnotin Hi) as (h1 & arr1 & Hrun & Ha1 & Hc1 & Hlk1).
  assert (Hlen : List.length (take i l) = i) by (rewrite length_take; lia).
  destruct (detach_array_spec h1 array arr1 (take i l ++ item :: drop i l)
              i item Ha1 Hc1)
    as (h2 & Hrun2 & (it2 & Hit2 & Hn2) & (arr2 & Ha2 & Hc2) & Hpay & Hnone
        & _).
  { intros Hin. apply elem_of_app in Hin as [Hin|Hin].
    - apply Harr. now apply (subseteq_take i l).
    - apply elem_of_cons in Hin as [Hin|Hin]; [congruence|].
      apply Harr. now apply (subseteq_drop i l). }
  { rewrite lookup_app_r by lia. now rewrite Hlen, Nat.sub_diag. }
  exists h1, h2, arr2, it2. split_and!; try done.
  - replace (delete i (take i l ++ item :: drop i l)) with l in Hc2;
      [done|].
    rewrite <- Hlen at 1. rewrite delete_middle. now rewrite take_drop.
  - apply (links_only_trans h h1 h2 Hlk1). split; [exact Hpay|exact Hnone].
Qed.

Lemma insert_then_detach_round_trip_witness :
  exists h1 h2 arr2 it2,
    Tree.cJSON_InsertItemInArray
      (<[5%nat := Tree.example_member "d" 4%float None]> Tree.example_object)
      (Some 1%nat) 1 (Some 5%nat) = Done h1
    /\ Tree.cJSON_DetachItemFromArray h1 (Some 1%nat) 1
       = Done (h2, Some 5%nat)
    /\ h2 !! 1%nat = Some arr2
    /\ Tree.chain h2 (Tree.child arr2) [2; 3; 4]%nat
    /\ h2 !! 5%nat = Some it2 /\ Tree.next it2 = None
    /\ Tree.links_only
         (<[5%nat := Tree.example_member "d" 4%float None]>
            Tree.example_object) h2.
Proof.
  apply (insert_then_detach_round_trip
           (<[5%nat := Tree.example_member "d" 4%float None]>
              Tree.example_object) 1 5
           (Tree.mkItem None (Some 2%nat) Tree.cJSON_Object None 0%float None
                        false false)
           (Tree.example_member "d" 4%float None) [2; 3; 4]%nat 1).
  - reflexivity.
  - simpl. repeat (split; [reflexivity|]; eexists; split; [reflexivity|]).
    reflexivity.
  - intros Hin. repeat (apply elem_of_cons in Hin as [Hin|Hin]; [lia|]).
    now apply elem_of_nil in Hin.
  - reflexivity.
  - intros Hin. repeat (apply elem_of_cons in Hin as [Hin|Hin]; [lia|]).
    now apply elem_of_nil in Hin.
  - lia.
  - simpl. lia.
Defined.

(** ** Deleting items *)

Section DeleteFacts.

Import Tree.

Lemma no_reference_unfold (f : cJSON) (ks : list tree) :
  no_reference (Node f ks)
  = (is_reference f = false /\ no_reference_chain ks).
Proof. reflexivity. Qed.

Lemma owns_chain_null (h : heap) (ks : list tree) (fp : gset nat) :
  owns_chain h None ks fp -> ks = [] /\ fp = ∅.
Proof. inversion 1. done. Qed.

(** [internal_cJSON_Delete] releases the items of a chain of subtrees
    without references, and nothing else. *)
Lemma internal_cJSON_Delete_spec (fuel : nat) :
  forall (h : heap) (c : ptr) (ks : list tree) (fp : gset nat),
    owns_chain h c ks fp -> no_reference_chain ks -> (size fp < fuel)%nat ->
    exists h',
      internal_cJSON_Delete fuel h c = Done h'
      /\ (forall b, b ∈ fp -> h' !! b = None)
      /\ (forall b, b ∉ fp -> h' !! b = h !! b).
Proof.
  induction fuel as [|fuel IH]; intros h c ks fp Hown Hnr Hf; [lia|].
  destruct Hown as [|b itb k ks fp1 fp2 Hb Hk Hks Hdis].
  - exists h. split; [reflexivity|]. split; [set_solver|done].
  - destruct Hnr as [Hnk Hnks].
    destruct Hk as [b itb' f kids fpk Hb' Hp Hkids Hbk].
    assert (itb' = itb) by congruence. subst itb'.
    rewrite no_reference_unfold in Hnk. destruct Hnk as [Hf0 Hnkids].
    assert (Href : is_reference itb = false).
    { destruct Hp as (_ & _ & _ & _ & -> & _). exact Hf0. }
    assert (Hsize : size ({[b]} ∪ fpk ∪ fp2) = S (size fpk + size fp2)).
    { rewrite size_union by done. rewrite size_union by set_solver.
      rewrite size_singleton. lia. }
    rewrite Hsize in Hf.
    assert (Hchild : exists h1,
               (if negb (is_reference itb) && negb (is_null (child itb))
                then internal_cJSON_Delete fuel h (child itb)
                else Done h) = Done h1
               /\ (forall x, x ∈ fpk -> h1 !! x = None)
               /\ (forall x, x ∉ fpk -> h1 !! x = h !! x)).
    { rewrite Href. cbn [negb andb].
      destruct (child itb) as [c|] eqn:Ec.
      - cbn [is_null negb]. apply (IH h (Some c) kids fpk); [done|done|lia].
      - cbn [is_null negb]. apply owns_chain_null in Hkids as [_ ->].
        exists h. split; [reflexivity|]. split; [set_solver|done]. }
    destruct Hchild as (h1 & Hrun1 & Hgone1 & Hkept1).
    destruct (IH (delete b h1) (next itb) ks fp2) as (h' & Hrun & Hgone & Hkept);
      [|done|lia|].
    { apply (proj2 (owns_agree h (delete b h1)) _ _ _ Hks). intros x Hx.
      rewrite lookup_delete_ne by set_solver. apply Hkept1. set_solver. }
    exists h'. split; [|split].
    + cbn [internal_cJSON_Delete load bind]. rewrite Hb. cbn [bind].
      rewrite Hrun1. cbn [bind]. rewrite (Hkept1 b Hbk), Hb. cbn [bind].
      exact Hrun.
    + intros x Hx. destruct (decide (x ∈ fp2)) as [Hx2|Hx2]; [auto|].
      rewrite (Hkept x Hx2). destruct (decide (x = b)) as [->|Hxb].
      * apply lookup_delete_eq.
      * rewrite lookup_delete_ne by done. apply Hgone1. set_solver.
    + intros x Hx. rewrite Hkept by set_solver.
      rewrite lookup_delete_ne by set_solver. apply Hkept1. set_solver.
Qed.

Lemma cJSON_Delete_spec (h : heap) (a : nat) (it : cJSON) (t : tree)
    (fp : gset nat) :
  owns h a t fp -> h !! a = Some it -> next it = None -> no_reference t ->
  exists h',
    cJSON_Delete h (Some a) = Done h'
    /\ (forall b, b ∈ fp -> h' !! b = None)
    /\ (forall b, b ∉ fp -> h' !! b = h !! b).
Proof.
  intros Hown Ha Hn Hnr.
  destruct (internal_cJSON_Delete_spec (S (size h)) h (Some a) [t] (fp ∪ ∅))
    as (h' & Hrun & Hgone & Hkept).
  - econstructor; [exact Ha|exact Hown| |set_solver].
    rewrite Hn. constructor.
  - split; [exact Hnr|exact I].
  - rewrite (right_id_L ∅ (∪)). rewrite <- size_dom.
    pose proof (proj1 (owns_dom h) _ _ _ Hown) as Hsub.
    apply subseteq_size in Hsub. lia.
  - exists h'. split; [exact Hrun|].
    split; intros b Hb; [apply Hgone|apply Hkept]; set_solver.
Qed.

Lemma cJSON_Delete_reference (h : heap) (r : nat) (itr : cJSON) :
  h !! r = Some itr -> is_reference itr = true -> next itr = None ->
  cJSON_Delete h (Some r) = Done (delete r h).
Proof.
  intros Hr Href Hn. unfold cJSON_Delete.
  assert (Hs : exists n, size h = S n).
  { destruct (size h) eqn:E; [|eauto].
    apply map_size_empty_inv in E. subst h. now rewrite lookup_empty in Hr. }
  destruct Hs as [n ->].
  cbn [internal_cJSON_Delete load bind]. rewrite Hr. cbn [bind].
  rewrite Href. cbn [negb andb bind load]. rewrite Hr. cbn [bind].
  now rewrite Hn.
Qed.

End DeleteFacts.

(** X11.  [cJSON_Delete] of an item whose [next] is NULL, and that owns a
    subtree without references, releases every item of that subtree and
    nothing else: the rest of the store is as before.  The traversal ends
    within the budget the size of the store gives.  [cJSON_Delete(NULL)]
    does nothing. *)
Theorem delete_releases_exactly_the_subtree (h : Tree.heap) (a : nat)
    (it : Tree.cJSON) (t : Tree.tree) (fp : gset nat) :
  Tree.owns h a t fp -> h !! a = Some it -> Tree.next it = None ->
  Tree.no_reference t ->
  (exists h',
     Tree.cJSON_Delete h (Some a) = Done h'
     /\ (forall b, b ∈ fp -> h' !! b = None)
     /\ (forall b, b ∉ fp -> h' !! b = h !! b))
  /\ Tree.cJSON_Delete h None = Done h.
Proof.
  intros Hown Ha Hn Hnr. split; [|reflexivity].
  now apply (cJSON_Delete_spec h a it t fp).
Qed.

Lemma delete_releases_exactly_the_subtree_witness :
  exists h',
    Tree.cJSON_Delete
      (<[9%nat := Tree.zero_item]> Tree.example_object) (Some 1%nat)
    = Done h'
    /\ (forall b, b ∈ ({[1; 2; 3; 4]} : gset nat)%nat -> h' !! b = None)
    /\ h' !! 9%nat = Some Tree.zero_item.
Proof.
  destruct (delete_releases_exactly_the_subtree
              (<[9%nat := Tree.zero_item]> Tree.example_object) 1
              (Tree.mkItem None (Some 2%nat) Tree.cJSON_Object None 0%float
                           None false false)
              Tree.example_tree
              ({[1%nat]} ∪ (({[2%nat]} ∪ ∅) ∪ (({[3%nat]} ∪ ∅)
                                              ∪ (({[4%nat]} ∪ ∅) ∪ ∅)))))
    as [(h' & Hrun & Hgone & Hkept) _].
  - eapply Tree.owns_node; [reflexivity|apply same_payload_refl| |].
    + eapply Tree.owns_chain_cons; [reflexivity| | |].
      * eapply Tree.owns_node;
          [reflexivity|apply same_payload_refl|apply Tree.owns_chain_nil|].
        set_solver.
      * eapply Tree.owns_chain_cons; [reflexivity| | |].
        -- eapply Tree.owns_node;
             [reflexivity|apply same_payload_refl|apply Tree.owns_chain_nil|].
           set_solver.
        -- eapply Tree.owns_chain_cons;
             [reflexivity| |apply Tree.owns_chain_nil|set_solver].
           eapply Tree.owns_node;
             [reflexivity|apply same_payload_refl|apply Tree.owns_chain_nil|].
           set_solver.
        -- set_solver.
      * set_solver.
    + set_solver.
  - reflexivity.
  - reflexivity.
  - simpl. tauto.
  - exists h'. split; [exact Hrun|]. split.
    + intros b Hb. apply Hgone. set_solver.
    + rewrite Hkept; [reflexivity|]. set_solver.
Defined.

(** X12.  [cJSON_Delete] of a reference whose [next] is NULL releases the
    reference alone: the children it points to, and every other item, stay
    in the store. *)
Theorem delete_reference_keeps_children (h : Tree.heap) (r : nat)
    (itr : Tree.cJSON) :
  h !! r = Some itr -> Tree.is_reference itr = true ->
  Tree.next itr = None ->
  Tree.cJSON_Delete h (Some r) = Done (delete r h).
Proof. apply cJSON_Delete_reference. Qed.

Lemma delete_reference_keeps_children_witness :
  Tree.cJSON_Delete
    (<[7%nat := Tree.mkItem None (Some 2%nat) Tree.cJSON_Object None 0%float
                            None true false]> Tree.example_object)
    (Some 7%nat)
  = Done (delete 7%nat
            (<[7%nat := Tree.mkItem None (Some 2%nat) Tree.cJSON_Object None
                                    0%float None true false]>
               Tree.example_object)).
Proof.
  apply (delete_reference_keeps_children
           (<[7%nat := Tree.mkItem None (Some 2%nat) Tree.cJSON_Object None
                                   0%float None true false]>
              Tree.example_object) 7
           (Tree.mkItem None (Some 2%nat) Tree.cJSON_Object None 0%float None
                        true false)); reflexivity.
Defined.

(** ** Deleting and replacing children *)

Section DeleteItemFacts.

Import Tree.

Lemma lookup_set_next_child (h : heap) (k : nat) (it : cJSON) (v : ptr)
    (b : nat) :
  h !! k = Some it ->
  child <$> (<[k := set_next v it]> h !! b) = child <$> (h !! b).
Proof.
  intros Hk. destruct (decide (b = k)) as [->|Hne].
  - rewrite lookup_insert_eq, Hk. reflexivity.
  - now rewrite lookup_insert_ne.
Qed.

(** Detaching leaves the [child] field of every item but the array as it
    was. *)
Lemma detach_keeps_children (h h' : heap) (array : nat) (i : nat)
    (r : ptr) :
  cJSON_DetachItemFromArray h (Some array) i = Done (h', r) ->
  forall b, b <> array -> child <$> (h' !! b) = child <$> (h !! b).
Proof.
  unfold cJSON_DetachItemFromArray. cbn [load].
  destruct (h !! array) as [arr|] eqn:Ha; [|discriminate]. cbn [bind].
  destruct (detach_walk h (child arr) None i) as [[c previous]| |];
    [|discriminate|discriminate].
  cbn [bind]. destruct c as [c|]; [|intros [= <- _]; done].
  cbn [load]. destruct (h !! c) as [itc|] eqn:Hc; [|discriminate].
  cbn [bind]. intros Hrun b Hb.
  destruct (ptr_eqb (Some c) (child arr)).
  - cbn [modify] in Hrun. rewrite Ha in Hrun. cbn [bind] in Hrun.
    destruct (<[array:=set_child (next itc) arr]> h !! c) as [itc'|] eqn:Hc';
      [|discriminate].
    injection Hrun as <- _.
    rewrite (lookup_set_next_child _ c itc' None b Hc').
    now rewrite lookup_insert_ne.
  - destruct previous as [p|]; [|discriminate].
    cbn [modify] in Hrun. destruct (h !! p) as [itp|] eqn:Hp; [|discriminate].
    cbn [bind] in Hrun.
    destruct (<[p:=set_next (next itc) itp]> h !! c) as [itc'|] eqn:Hc';
      [|discriminate].
    injection Hrun as <- _.
    rewrite (lookup_set_next_child _ c itc' None b Hc').
    now rewrite (lookup_set_next_child h p itp _ b Hp).
Qed.

Lemma elem_of_delete_NoDup (l : list nat) (i a b : nat) :
  NoDup l -> l !! i = Some a -> b ∈ delete i l -> b ∈ l /\ b <> a.
Proof.
  intros Hnd Hi Hb.
  rewrite <- (take_drop_middle l i a Hi) in Hnd.
  assert (Hlen : List.length (take i l) = i).
  { rewrite length_take. apply lookup_lt_Some in Hi. lia. }
  assert (Hd : delete i l = take i l ++ drop (S i) l).
  { rewrite <- (take_drop_middle l i a Hi) at 1. rewrite <- Hlen at 1.
    apply delete_middle. }
  rewrite Hd in Hb. apply NoDup_app in Hnd as (_ & H1 & H2).
  apply NoDup_cons in H2 as [H2 _].
  apply elem_of_app in Hb as [Hb|Hb].
  - split; [now apply (subseteq_take i l)|].
    intros ->. apply (H1 a Hb). apply list_elem_of_here.
  - split; [now apply (subseteq_drop (S i) l)|]. intros ->. done.
Qed.

Lemma same_payload_sym (a b : cJSON) : same_payload a b -> same_payload b a.
Proof.
  intros (H1 & H2 & H3 & H4 & H5 & H6). unfold same_payload.
  split_and!; congruence.
Qed.

(** An owned subtree survives changes outside its footprint and changes of
    the links of its root that keep the [child] field. *)
Lemma owns_root_relinked (h h' : heap) (a : nat) (it' : cJSON) (t : tree)
    (fp : gset nat) :
  owns h a t fp -> h' !! a = Some it' ->
  (forall it, h !! a = Some it -> same_payload it it' /\ child it' = child it) ->
  (forall b, b ∈ fp -> b <> a -> h' !! b = h !! b) ->
  owns h' a t fp.
Proof.
  intros Hown Ha' Hroot Hag.
  destruct Hown as [a it f kids fpk Ha Hp Hkids Hn].
  destruct (Hroot it Ha) as [Hp' Hc'].
  econstructor; [exact Ha'| | |exact Hn].
  - eapply same_payload_trans; [apply same_payload_sym; exact Hp'|exact Hp].
  - rewrite Hc'. apply (proj2 (owns_agree h h') _ _ _ Hkids).
    intros b Hb. apply Hag; [set_solver|]. intros ->. done.
Qed.

Lemma delete_item_spec (h : heap) (array : nat) (arr : cJSON)
    (l : list nat) (i a : nat) (t : tree) (fp : gset nat) :
  h !! array = Some arr -> chain h (child arr) l -> array ∉ l ->
  l !! i = Some a -> owns h a t fp -> no_reference t -> array ∉ fp ->
  (forall b, b ∈ l -> b <> a -> b ∉ fp) ->
  exists h' arr',
    cJSON_DeleteItemFromArray h (Some array) i = Done h'
    /\ h' !! array = Some arr' /\ chain h' (child arr') (delete i l)
    /\ (forall b, b ∈ fp -> h' !! b = None)
    /\ (forall b, b ∉ fp -> b <> array -> b ∉ l -> h' !! b = h !! b)
    /\ (forall b it, b ∉ fp -> h !! b = Some it ->
          exists it', h' !! b = Some it' /\ same_payload it it').
Proof.
  intros Ha Hc Harr Hi Hown Hnr Hafp Hothers.
  pose proof (chain_NoDup _ _ _ Hc) as Hnd.
  destruct (detach_array_spec h array arr l i a Ha Hc Harr Hi)
    as (h1 & Hrun1 & (it1 & Ha1 & Hn1) & (arr1 & Harr1 & Hc1) & Hpay & Hnone
        & Hout).
  assert (Hne : a <> array).
  { intros ->. apply Harr. eapply list_elem_of_lookup_2; eauto. }
  assert (Hown1 : owns h1 a t fp).
  { apply (owns_root_relinked h h1 a it1 t fp Hown Ha1).
    - intros it Hit. destruct (Hpay a it Hit) as (it' & Hit' & Hp).
      assert (it' = it1) by congruence. subst it'. split; [exact Hp|].
      pose proof (detach_keeps_children h h1 array i _ Hrun1 a Hne) as Hk.
      rewrite Ha1, Hit in Hk. cbn in Hk. congruence.
    - intros b Hb Hba. apply Hout.
      + intros ->. done.
      + intros Hbl. now apply (Hothers b Hbl Hba). }
  destruct (cJSON_Delete_spec h1 a it1 t fp Hown1 Ha1 Hn1 Hnr)
    as (h' & Hrun & Hgone & Hkept).
  exists h', arr1. split.
  { unfold cJSON_DeleteItemFromArray. rewrite Hrun1. cbn [bind]. exact Hrun. }
  split; [rewrite Hkept; done|]. split; [|split; [|split]].
  - apply (chain_agree h1 h' _ _); [|exact Hc1].
    intros b Hb. apply Hkept.
    destruct (elem_of_delete_NoDup l i a b Hnd Hi Hb) as [Hbl Hba]. auto.
  - exact Hgone.
  - intros b Hb1 Hb2 Hb3. rewrite Hkept by done. now apply Hout.
  - intros b it Hb Hit. rewrite Hkept by done. now apply Hpay.
Qed.

End DeleteItemFacts.

(** X13.  [cJSON_DeleteItemFromArray] removes the child at the index from
    the children and releases the subtree that child owns: the other
    children keep their order, no other item is released and no payload
    changes. *)
Theorem delete_item_from_array_releases_child (h : Tree.heap) (array : nat)
    (arr : Tree.cJSON) (l : list nat) (i a : nat) (t : Tree.tree)
    (fp : gset nat) :
  h !! array = Some arr -> Tree.chain h (Tree.child arr) l -> array ∉ l ->
  l !! i = Some a -> Tree.owns h a t fp -> Tree.no_reference t ->
  array ∉ fp -> (forall b, b ∈ l -> b <> a -> b ∉ fp) ->
  exists h' arr',
    Tree.cJSON_DeleteItemFromArray h (Some array) i = Done h'
    /\ h' !! array = Some arr'
    /\ Tree.chain h' (Tree.child arr') (delete i l)
    /\ (forall b, b ∈ fp -> h' !! b = None)
    /\ (forall b, b ∉ fp -> b <> array -> b ∉ l -> h' !! b = h !! b)
    /\ (forall b it, b ∉ fp -> h !! b = Some it ->
          exists it', h' !! b = Some it' /\ Tree.same_payload it it').
Proof. apply delete_item_spec. Qed.

Lemma delete_item_from_array_releases_child_witness :
  exists h' arr',
    Tree.cJSON_DeleteItemFromArray Tree.example_object (Some 1%nat) 1
    = Done h'
    /\ h' !! 1%nat = Some arr'
    /\ Tree.chain h' (Tree.child arr') [2; 4]%nat
    /\ h' !! 3%nat = None.
Proof.
  destruct (delete_item_from_array_releases_child Tree.example_object 1
              (Tree.mkItem None (Some 2%nat) Tree.cJSON_Object None 0%float
                           None false false)
              [2; 3; 4]%nat 1 3
              (Tree.Node (Tree.example_member "b" 2%float (Some 4%nat)) [])
              ({[3%nat]} ∪ ∅))
    as (h' & arr' & Hrun & Ha & Hc & Hgone & _).
  - reflexivity.
  - simpl. repeat (split; [reflexivity|]; eexists; split; [reflexivity|]).
    reflexivity.
  - intros Hin. repeat (apply elem_of_cons in Hin as [Hin|Hin]; [lia|]).
    now apply elem_of_nil in Hin.
  - reflexivity.
  - eapply Tree.owns_node;
      [reflexivity|apply same_payload_refl|apply Tree.owns_chain_nil|].
    set_solver.
  - simpl. tauto.
  - set_solver.
  - intros b Hb Hne. set_solver.
  - exists h', arr'. split; [exact Hrun|]. split; [exact Ha|].
    split; [exact Hc|]. apply Hgone. set_solver.
Defined.

Section ReplaceFacts.

Import Tree.

(** Putting [item] in the place of the item [c] that follows [p]. *)
Lemma chain_replace_after (h : heap) (l1 l2 : list nat) (p c item : nat)
    (itp itc it : cJSON) :
  forall c0,
    chain h c0 (l1 ++ p :: c :: l2) -> item ∉ l1 ++ p :: c :: l2 ->
    h !! p = Some itp -> h !! c = Some itc -> h !! item = Some it ->
    chain (<[c := set_next None itc]>
             (<[p := set_next (Some item) itp]>
                (<[item := set_next (next itc) it]> h)))
          c0 (l1 ++ p :: item :: l2).
Proof.
  induction l1 as [|a l1 IH]; intros c0 Hc Hnotin Hp Hitc Hitem.
  - pose proof (chain_NoDup _ _ _ Hc) as Hnd. simpl in *.
    apply NoDup_cons in Hnd as [Hp2 Hnd].
    apply NoDup_cons in Hnd as [Hc2 _].
    destruct Hc as (-> & itp' & Hp' & Hnx & itc' & Hc' & Hc).
    assert (itc' = itc) by congruence. subst itc'.
    assert (Hpc : p <> c).
    { intros ->. apply Hp2. apply list_elem_of_here. }
    assert (Hpi : p <> item).
    { intros ->. apply Hnotin. apply list_elem_of_here. }
    assert (Hci : c <> item).
    { intros ->. apply Hnotin. apply list_elem_of_further, list_elem_of_here. }
    split; [done|]. eexists. split.
    { rewrite lookup_insert_ne by done. apply lookup_insert_eq. }
    cbn [next set_next]. split; [done|]. eexists. split.
    { rewrite !lookup_insert_ne by done. apply lookup_insert_eq. }
    cbn [next set_next].
    apply (chain_agree h _ l2); [|done]. intros b Hb.
    rewrite !lookup_insert_ne; [done| | |].
    + intros ->. apply Hnotin. now do 2 apply list_elem_of_further.
    + intros ->. apply Hp2. now apply list_elem_of_further.
    + intros ->. done.
  - pose proof (chain_NoDup _ _ _ Hc) as Hnd. simpl in *.
    apply NoDup_cons in Hnd as [Hal _].
    destruct Hc as (-> & ita & Ha & Hc).
    split; [done|]. exists ita. split.
    + rewrite !lookup_insert_ne; [done| | |].
      * intros ->. apply Hnotin. apply list_elem_of_here.
      * intros ->. apply Hal. apply elem_of_app. right.
        apply list_elem_of_here.
      * intros ->. apply Hal. apply elem_of_app. right.
        apply list_elem_of_further, list_elem_of_here.
    + apply IH; try done. intros Hin. apply Hnotin.
      now apply list_elem_of_further.
Qed.

(** The store of [cJSON_ReplaceItemInArray] when it calls
    [internal_cJSON_Delete] on the replaced child [c]. *)
Lemma replace_relinks (h : heap) (array item : nat) (arr it : cJSON)
    (l : list nat) (i c : nat) :
  h !! array = Some arr -> chain h (child arr) l -> array ∉ l ->
  l !! i = Some c -> h !! item = Some it -> item ∉ l -> item <> array ->
  exists h3 arr3 itc,
    cJSON_ReplaceItemInArray h (Some array) i (Some item)
      = cJSON_Delete h3 (Some c)
    /\ h !! c = Some itc /\ h3 !! c = Some (set_next None itc)
    /\ h3 !! array = Some arr3 /\ chain h3 (child arr3) (<[i := item]> l)
    /\ links_only h h3
    /\ (forall b, b <> array -> b ∉ l -> b <> item -> h3 !! b = h !! b).
Proof.
  intros Ha Hc Harr Hi Hitem Hnotin Hne.
  pose proof (chain_NoDup _ _ _ Hc) as Hnd.
  assert (Hcin : c ∈ l) by (eapply list_elem_of_lookup_2; eauto).
  assert (Hca : c <> array) by (intros ->; done).
  assert (Hci : c <> item) by (intros ->; done).
  pose proof (chain_suffix _ _ _ _ _ Hc Hi) as Hs.
  rewrite (drop_S _ _ _ Hi) in Hs. destruct Hs as (_ & itc & Hitc & Hs).
  unfold cJSON_ReplaceItemInArray. cbn [load]. rewrite Ha. cbn [bind].
  rewrite (detach_walk_spec _ _ _ _ _ _ Hc Hi). cbn [bind load].
  rewrite Hitc. cbn [bind modify]. rewrite Hitem. cbn [bind load].
  rewrite lookup_insert_ne by done. rewrite Ha. cbn [bind].
  remember (<[item := set_next (next itc) it]> h) as h1 eqn:Eh1.
  assert (Hlk1 : links_only h h1)
    by (rewrite Eh1; now apply (links_only_insert h item it)).
  destruct i as [|j].
  - destruct l as [|c' l2]; [done|]. simpl in Hi. injection Hi as ->.
    destruct Hc as (Hch & itc' & Hc' & Hc).
    assert (itc' = itc) by congruence. subst itc'.
    rewrite Hch. cbn [ptr_eqb]. rewrite Nat.eqb_refl. cbn [modify bind].
    assert (Ha1 : h1 !! array = Some arr)
      by (rewrite Eh1; now rewrite lookup_insert_ne).
    remember (<[array := set_child (Some item) arr]> h1) as h2 eqn:Eh2.
    assert (Hc2 : h2 !! c = Some itc)
      by (rewrite Eh2, Eh1; now rewrite !lookup_insert_ne).
    rewrite Hc2. cbn [bind].
    exists (<[c := set_next None itc]> h2), (set_child (Some item) arr), itc.
    split; [reflexivity|]. split; [done|].
    split; [apply lookup_insert_eq|]. split.
    { rewrite lookup_insert_ne by done. rewrite Eh2. apply lookup_insert_eq. }
    apply NoDup_cons in Hnd as [Hcl2 _].
    split; [|split].
    + cbn [child set_child]. simpl. split; [done|]. eexists. split.
      { rewrite Eh2, Eh1. rewrite !lookup_insert_ne by done.
        apply lookup_insert_eq. }
      cbn [next set_next]. apply (chain_agree h _ l2); [|done].
      intros b Hb. rewrite Eh2, Eh1. rewrite !lookup_insert_ne; [done| | |].
      * intros ->. apply Hnotin. now apply list_elem_of_further.
      * intros ->. apply Harr. now apply list_elem_of_further.
      * intros ->. done.
    + apply (links_only_trans h h1 _ Hlk1).
      apply (links_only_trans h1 h2).
      * rewrite Eh2. now apply (links_only_insert h1 array arr).
      * now apply (links_only_insert h2 c itc).
    + intros b Hb1 Hb2 Hb3. rewrite Eh2, Eh1.
      rewrite !lookup_insert_ne; [done|done|done|].
      intros ->. apply Hb2. apply list_elem_of_here.
  - destruct (lookup_lt_is_Some_2 l j) as [p Hp];
      [apply lookup_lt_Some in Hi; lia|].
    assert (Hl : l = take j l ++ p :: c :: drop (S (S j)) l).
    { rewrite <- (take_drop_middle l j p Hp) at 1.
      now rewrite (drop_S _ _ _ Hi). }
    assert (Hins : <[S j := item]> l
                   = take j l ++ p :: item :: drop (S (S j)) l).
    { rewrite insert_take_drop by (apply lookup_lt_Some in Hi; lia).
      rewrite (take_S_r _ _ _ Hp), <- app_assoc. done. }
    rewrite Hins. clear Hins.
    assert (Hlen : List.length (take j l) = j).
    { rewrite length_take. apply lookup_lt_Some in Hp. lia. }
    set (l1 := take j l) in *. set (l2 := drop (S (S j)) l) in *.
    clearbody l1 l2. subst l.
    assert (Hpc : p <> c).
    { intros ->. apply NoDup_app in Hnd as (_ & _ & Hnd).
      apply NoDup_cons in Hnd as [Hnd _]. apply Hnd, list_elem_of_here. }
    assert (Hpin : p ∈ l1 ++ p :: c :: l2).
    { apply elem_of_app. right. apply list_elem_of_here. }
    assert (Hpr : p <> array) by (intros ->; done).
    assert (Hpi : p <> item) by (intros ->; done).
    pose proof (chain_suffix _ _ _ _ _ Hc Hp) as Hsp.
    rewrite (drop_S _ _ _ Hp) in Hsp. destruct Hsp as (_ & itp & Hpl & _).
    assert (Hhd : ptr_eqb (Some c) (child arr) = false).
    { destruct l1 as [|x l1]; simpl in Hc; destruct Hc as (-> & _); simpl.
      - apply Nat.eqb_neq. done.
      - apply Nat.eqb_neq. intros <-. apply NoDup_cons in Hnd as [Hnd _].
        apply Hnd. apply elem_of_app. right.
        apply list_elem_of_further, list_elem_of_here. }
    rewrite Hhd. rewrite Hp. cbn [modify].
    assert (Hp1 : h1 !! p = Some itp)
      by (rewrite Eh1; now rewrite lookup_insert_ne).
    rewrite Hp1. cbn [bind].
    remember (<[p := set_next (Some item) itp]> h1) as h2 eqn:Eh2.
    assert (Hc2 : h2 !! c = Some itc)
      by (rewrite Eh2, Eh1; now rewrite !lookup_insert_ne).
    rewrite Hc2. cbn [bind].
    exists (<[c := set_next None itc]> h2), arr, itc.
    split; [reflexivity|]. split; [done|].
    split; [apply lookup_insert_eq|]. split.
    { rewrite Eh2, Eh1. now rewrite !lookup_insert_ne. }
    split; [|split].
    + rewrite Eh2, Eh1.
      apply (chain_replace_after h l1 l2 p c item itp itc it); done.
    + apply (links_only_trans h h1 _ Hlk1).
      apply (links_only_trans h1 h2).
      * rewrite Eh2. now apply (links_only_insert h1 p itp).
      * now apply (links_only_insert h2 c itc).
    + intros b Hb1 Hb2 Hb3. rewrite Eh2, Eh1.
      rewrite !lookup_insert_ne; [done|done| |]; intros ->; apply Hb2.
      * exact Hpin.
      * exact Hcin.
Qed.

Lemma replace_item_spec (h : heap) (array item : nat) (arr it : cJSON)
    (l : list nat) (i c : nat) (t : tree) (fp : gset nat) :
  h !! array = Some arr -> chain h (child arr) l -> array ∉ l ->
  l !! i = Some c -> h !! item = Some it -> item ∉ l -> item <> array ->
  owns h c t fp -> no_reference t -> array ∉ fp -> item ∉ fp ->
  (forall b, b ∈ l -> b <> c -> b ∉ fp) ->
  exists h' arr',
    cJSON_ReplaceItemInArray h (Some array) i (Some item) = Done h'
    /\ h' !! array = Some arr'
    /\ chain h' (child arr') (<[i := item]> l)
    /\ (forall b, b ∈ fp -> h' !! b = None)
    /\ (forall b it, b ∉ fp -> h !! b = Some it ->
          exists it', h' !! b = Some it' /\ same_payload it it')
    /\ (forall b, b ∉ fp -> b <> array -> b ∉ l -> b <> item ->
          h' !! b = h !! b).
Proof.
  intros Ha Hc Harr Hi Hitem Hnotin Hne Hown Hnr Hafp Hifp Hothers.
  pose proof (chain_NoDup _ _ _ Hc) as Hnd.
  destruct (replace_relinks h array item arr it l i c Ha Hc Harr Hi Hitem
              Hnotin Hne)
    as (h3 & arr3 & itc & Hrun & Hitc & Hc3 & Ha3 & Hch3 & Hlk & Hout).
  assert (Hown3 : owns h3 c t fp).
  { apply (owns_root_relinked h h3 c _ t fp Hown Hc3).
    - intros it0 Hit0. assert (it0 = itc) by congruence. subst it0.
      split; [repeat split|reflexivity].
    - intros b Hb Hbc. apply Hout.
      + intros ->. done.
      + intros Hbl. now apply (Hothers b Hbl Hbc).
      + intros ->. done. }
  destruct (cJSON_Delete_spec h3 c _ t fp Hown3 Hc3 eq_refl Hnr)
    as (h' & Hdel & Hgone & Hkept).
  exists h', arr3. split; [now rewrite Hrun|].
  split; [rewrite Hkept; done|]. split; [|split; [|split]].
  - apply (chain_agree h3 h' _ _); [|exact Hch3].
    intros b Hb. apply Hkept.
    apply list_elem_of_lookup_1 in Hb as [k Hk].
    destruct (decide (k = i)) as [->|Hki].
    + rewrite list_lookup_insert_eq in Hk
        by (apply lookup_lt_Some in Hi; done).
      injection Hk as <-. done.
    + rewrite list_lookup_insert_ne in Hk by done.
      apply Hothers; [now apply list_elem_of_lookup_2 in Hk|].
      intros ->. apply Hki. eapply NoDup_lookup; eauto.
  - exact Hgone.
  - intros b it0 Hb Hit0. rewrite Hkept by done. now apply (proj1 Hlk).
  - intros b Hb1 Hb2 Hb3 Hb4. rewrite Hkept by done. now apply Hout.
Qed.

End ReplaceFacts.

(** X14.  [cJSON_ReplaceItemInArray] puts the new item in the place of the
    child at the index and releases the subtree the old child owns; the
    other children keep their places.  At an index that is not below the
    number of children it leaves the store as it is, and the new item stays
    with the caller. *)
Theorem replace_item_in_array_swaps_child (h : Tree.heap) (array item : nat)
    (arr it : Tree.cJSON) (l : list nat) (i : nat) :
  h !! array = Some arr -> Tree.chain h (Tree.child arr) l -> array ∉ l ->
  h !! item = Some it -> item ∉ l -> item <> array ->
  (forall c t fp,
     l !! i = Some c -> Tree.owns h c t fp -> Tree.no_reference t ->
     array ∉ fp -> item ∉ fp -> (forall b, b ∈ l -> b <> c -> b ∉ fp) ->
     exists h' arr',
       Tree.cJSON_ReplaceItemInArray h (Some array) i (Some item) = Done h'
       /\ h' !! array = Some arr'
       /\ Tree.chain h' (Tree.child arr') (<[i := item]> l)
       /\ (forall b, b ∈ fp -> h' !! b = None)
       /\ (forall b it, b ∉ fp -> h !! b = Some it ->
             exists it', h' !! b = Some it' /\ Tree.same_payload it it')
       /\ (forall b, b ∉ fp -> b <> array -> b ∉ l -> b <> item ->
             h' !! b = h !! b))
  /\ ((List.length l <= i)%nat ->
      Tree.cJSON_ReplaceItemInArray h (Some array) i (Some item) = Done h).
Proof.
  intros Ha Hc Harr Hitem Hnotin Hne. split.
  - intros c t fp Hi Hown Hnr Hafp Hifp Hothers.
    now apply (replace_item_spec h array item arr it l i c t fp).
  - intros Hi. unfold Tree.cJSON_ReplaceItemInArray. cbn [Tree.load].
    rewrite Ha. cbn [bind].
    destruct (detach_walk_past_end h l _ None i Hc Hi) as [q Hq].
    now rewrite Hq.
Qed.

Lemma replace_item_in_array_swaps_child_witness :
  (exists h' arr',
     Tree.cJSON_ReplaceItemInArray
       (<[5%nat := Tree.example_member "d" 4%float None]> Tree.example_object)
       (Some 1%nat) 1 (Some 5%nat) = Done h'
     /\ h' !! 1%nat = Some arr'
     /\ Tree.chain h' (Tree.child arr') [2; 5; 4]%nat
     /\ h' !! 3%nat = None)
  /\ Tree.cJSON_ReplaceItemInArray
       (<[5%nat := Tree.example_member "d" 4%float None]> Tree.example_object)
       (Some 1%nat) 3 (Some 5%nat)
     = Done (<[5%nat := Tree.example_member "d" 4%float None]>
               Tree.example_object).
Proof.
  destruct (replace_item_in_array_swaps_child
              (<[5%nat := Tree.example_member "d" 4%float None]>
                 Tree.example_object) 1 5
              (Tree.mkItem None (Some 2%nat) Tree.cJSON_Object None 0%float
                           None false false)
              (Tree.example_member "d" 4%float None) [2; 3; 4]%nat 1)
    as [Hin _].
  { reflexivity. }
  { simpl. repeat (split; [reflexivity|]; eexists; split; [reflexivity|]).
    reflexivity. }
  { intros H. repeat (apply elem_of_cons in H as [H|H]; [lia|]).
    now apply elem_of_nil in H. }
  { reflexivity. }
  { intros H. repeat (apply elem_of_cons in H as [H|H]; [lia|]).
    now apply elem_of_nil in H. }
  { lia. }
  destruct (replace_item_in_array_swaps_child
              (<[5%nat := Tree.example_member "d" 4%float None]>
                 Tree.example_object) 1 5
              (Tree.mkItem None (Some 2%nat) Tree.cJSON_Object None 0%float
                           None false false)
              (Tree.example_member "d" 4%float None) [2; 3; 4]%nat 3)
    as [_ Hout].
  { reflexivity. }
  { simpl. repeat (split; [reflexivity|]; eexists; split; [reflexivity|]).
    reflexivity. }
  { intros H. repeat (apply elem_of_cons in H as [H|H]; [lia|]).
    now apply elem_of_nil in H. }
  { reflexivity. }
  { intros H. repeat (apply elem_of_cons in H as [H|H]; [lia|]).
    now apply elem_of_nil in H. }
  { lia. }
  split.
  - destruct (Hin 3%nat
                (Tree.Node (Tree.example_member "b" 2%float (Some 4%nat)) [])
                ({[3%nat]} ∪ ∅))
      as (h' & arr' & Hrun & Ha & Hc & Hgone & _).
    + reflexivity.
    + eapply Tree.owns_node;
        [reflexivity|apply same_payload_refl|apply Tree.owns_chain_nil|].
      set_solver.
    + simpl. tauto.
    + set_solver.
    + set_solver.
    + intros b Hb Hne. set_solver.
    + exists h', arr'. split; [exact Hrun|]. split; [exact Ha|].
      split; [exact Hc|]. apply Hgone. set_solver.
  - apply Hout. simpl. lia.
Defined.

Section ObjectKeyFacts.

Import Tree.

Lemma find_name_missing (h : heap) (l : list nat) (key : bytes) :
  forall (fuel : nat) (c : ptr) (k : nat),
    chain h c l -> (forall b, b ∈ l -> has_other_key h key b) ->
    (List.length l < fuel)%nat ->
    find_name fuel h c key k = Done (None, (k + List.length l)%nat).
Proof.
  induction l as [|b l IH]; intros fuel c k Hc Hall Hf.
  - simpl in Hc. subst c. destruct fuel; [simpl in Hf; lia|].
    cbn. f_equal. f_equal. lia.
  - destruct Hc as (-> & it & Hb & Hc). simpl in Hf.
    destruct fuel as [|fuel]; [lia|]. cbn [find_name load bind].
    rewrite Hb. cbn [bind].
    destruct (Hall b) as (it' & n & Hb' & Hn & Hne); [apply list_elem_of_here|].
    assert (it' = it) by congruence. subst it'. rewrite Hn.
    unfold strcmp_differs. rewrite bool_decide_false by done. cbn [negb].
    rewrite (IH fuel (next it) (S k) Hc); [|
      intros b' Hb''; apply Hall; now apply list_elem_of_further|lia].
    f_equal. f_equal. simpl. lia.
Qed.

End ObjectKeyFacts.

(** X15.  [cJSON_DeleteItemFromObject] removes the first member whose name
    equals the key and releases the subtree it owns, the other members
    keeping their order; when no member has that name the store is left as
    it is. *)
Theorem delete_item_from_object_by_key (h : Tree.heap) (object : nat)
    (obj : Tree.cJSON) (l : list nat) (key : bytes) :
  h !! object = Some obj -> Tree.chain h (Tree.child obj) l -> object ∉ l ->
  (forall i a t fp,
     l !! i = Some a ->
     (forall j b, (j < i)%nat -> l !! j = Some b ->
                  Tree.has_other_key h key b) ->
     Tree.has_key h key a ->
     Tree.owns h a t fp -> Tree.no_reference t -> object ∉ fp ->
     (forall b, b ∈ l -> b <> a -> b ∉ fp) ->
     exists h' obj',
       Tree.cJSON_DeleteItemFromObject h (Some object) key = Done h'
       /\ h' !! object = Some obj'
       /\ Tree.chain h' (Tree.child obj') (delete i l)
       /\ (forall b, b ∈ fp -> h' !! b = None)
       /\ (forall b it, b ∉ fp -> h !! b = Some it ->
             exists it', h' !! b = Some it' /\ Tree.same_payload it it'))
  /\ ((forall b, b ∈ l -> Tree.has_other_key h key b) ->
      Tree.cJSON_DeleteItemFromObject h (Some object) key = Done h).
Proof.
  intros Ho Hc Hobj. pose proof (chain_length_size h l _ Hc) as Hlen. split.
  - intros i a t fp Hi Hbefore Hkey Hown Hnr Hofp Hothers.
    destruct (delete_item_spec h object obj l i a t fp Ho Hc Hobj Hi Hown Hnr
                Hofp Hothers)
      as (h' & obj' & Hrun & Ho' & Hc' & Hgone & _ & Hpay).
    exists h', obj'. split; [|done].
    unfold Tree.cJSON_DeleteItemFromObject, Tree.cJSON_DetachItemFromObject.
    cbn [Tree.load]. rewrite Ho. cbn [bind].
    rewrite (find_name_spec h l key i a _ _ 0%nat Hc Hi Hbefore Hkey)
      by (apply lookup_lt_Some in Hi; lia).
    cbn [bind]. exact Hrun.
  - intros Hall.
    unfold Tree.cJSON_DeleteItemFromObject, Tree.cJSON_DetachItemFromObject.
    cbn [Tree.load]. rewrite Ho. cbn [bind].
    rewrite (find_name_missing h l key _ _ 0%nat Hc Hall) by lia.
    reflexivity.
Qed.

Lemma delete_item_from_object_by_key_witness :
  (exists h' obj',
     Tree.cJSON_DeleteItemFromObject Tree.example_object (Some 1%nat)
       (bytes_of_string "b") = Done h'
     /\ h' !! 1%nat = Some obj'
     /\ Tree.chain h' (Tree.child obj') [2; 4]%nat
     /\ h' !! 3%nat = None)
  /\ Tree.cJSON_DeleteItemFromObject Tree.example_object (Some 1%nat)
       (bytes_of_string "x") = Done Tree.example_object.
Proof.
  destruct (delete_item_from_object_by_key Tree.example_object 1
              (Tree.mkItem None (Some 2%nat) Tree.cJSON_Object None 0%float
                           None false false) [2; 3; 4]%nat
              (bytes_of_string "b")) as [Hfound _].
  { reflexivity. }
  { simpl. repeat (split; [reflexivity|]; eexists; split; [reflexivity|]).
    reflexivity. }
  { intros H. repeat (apply elem_of_cons in H as [H|H]; [lia|]).
    now apply elem_of_nil in H. }
  destruct (delete_item_from_object_by_key Tree.example_object 1
              (Tree.mkItem None (Some 2%nat) Tree.cJSON_Object None 0%float
                           None false false) [2; 3; 4]%nat
              (bytes_of_string "x")) as [_ Hmissing].
  { reflexivity. }
  { simpl. repeat (split; [reflexivity|]; eexists; split; [reflexivity|]).
    reflexivity. }
  { intros H. repeat (apply elem_of_cons in H as [H|H]; [lia|]).
    now apply elem_of_nil in H. }
  split.
  - destruct (Hfound 1%nat 3%nat
                (Tree.Node (Tree.example_member "b" 2%float (Some 4%nat)) [])
                ({[3%nat]} ∪ ∅))
      as (h' & obj' & Hrun & Ho & Hc & Hgone & _).
    + reflexivity.
    + intros j b Hj Hb. destruct j as [|j]; [|lia].
      injection Hb as <-. eexists _, _.
      split; [reflexivity|]. split; [reflexivity|]. discriminate.
    + eexists _, _. split; [reflexivity|]. split; reflexivity.
    + eapply Tree.owns_node;
        [reflexivity|apply same_payload_refl|apply Tree.owns_chain_nil|].
      set_solver.
    + simpl. tauto.
    + set_solver.
    + intros b Hb Hne. set_solver.
    + exists h', obj'. split; [exact Hrun|]. split; [exact Ho|].
      split; [exact Hc|]. apply Hgone. set_solver.
  - apply Hmissing. intros b Hb.
    repeat (apply elem_of_cons in Hb as [->|Hb];
            [eexists _, _; split; [reflexivity|];
             split; [reflexivity|discriminate]|]).
    now apply elem_of_nil in Hb.
Defined.

(** ** Creating items *)

Section CreateFacts.

Import Tree.

Variable malloc_fn : malloc_hook.
Variable sizeof_cJSON : Z.

(** Releasing an item that was just allocated gives the store back. *)
Lemma delete_fresh_item (h : heap) (a : nat) (it : cJSON) :
  h !! a = None -> next it = None -> child it = None ->
  cJSON_Delete (<[a := it]> h) (Some a) = Done h.
Proof.
  intros Ha Hn Hc. unfold cJSON_Delete.
  rewrite map_size_insert_None by done.
  cbn [internal_cJSON_Delete load bind]. rewrite lookup_insert_eq.
  cbn [bind]. rewrite Hc. cbn [is_null negb]. rewrite andb_false_r.
  cbn [bind load]. rewrite lookup_insert_eq. cbn [bind]. rewrite Hn.
  now rewrite delete_insert_id.
Qed.

Lemma create_text_spec (t : cJSON_type) (text : option bytes) (h : heap) :
  create_text malloc_fn sizeof_cJSON t text h
  = match malloc_fn sizeof_cJSON, text with
    | Some _, Some s =>
      match malloc_fn (Z.of_nat (List.length (cstring s)) + 1) with
      | Some _ =>
        Done (<[fresh ({[0%nat]} ∪ dom h) :=
                  mkItem None None t (Some (cstring s)) 0%float None false
                         false]> h,
              Some (fresh ({[0%nat]} ∪ dom h)))
      | None => Done (h, None)
      end
    | _, _ => Done (h, None)
    end.
Proof.
  unfold create_text, cJSON_New_Item.
  destruct (malloc_fn sizeof_cJSON) as [block|]; [|reflexivity].
  pose proof (fresh_address h) as Hfresh.
  set (a := fresh ({[0%nat]} ∪ dom h)) in *.
  cbn [modify]. rewrite lookup_insert_eq. cbn [bind].
  rewrite insert_insert_eq, lookup_insert_eq. cbn [bind].
  rewrite insert_insert_eq. cbn [load]. rewrite lookup_insert_eq.
  cbn [bind string set_string].
  destruct text as [s|]; cbn [cJSON_strdup].
  - destruct (malloc_fn (Z.of_nat (List.length (cstring s)) + 1));
      [reflexivity|].
    rewrite delete_fresh_item by done. reflexivity.
  - rewrite delete_fresh_item by done. reflexivity.
Qed.

End CreateFacts.

(** X16.  [cJSON_CreateString] and [cJSON_CreateRaw] return a new item of
    their type that holds a copy of the text up to its terminator, at an
    address that was free.  When the text is NULL or one of the two
    allocations fails they return NULL and leave the store exactly as it
    was: the item allocated for a copy that then fails is released. *)
Theorem create_string_copies_or_leaves_store :
  forall (malloc_fn : malloc_hook) (sizeof_cJSON : Z) (text : option bytes)
         (h : Tree.heap),
    let a := fresh ({[0%nat]} ∪ dom h) in
    let made (t : Tree.cJSON_type) : run (Tree.heap * Tree.ptr) :=
      match malloc_fn sizeof_cJSON, text with
      | Some _, Some s =>
        match malloc_fn (Z.of_nat (List.length (cstring s)) + 1) with
        | Some _ =>
          Done (<[a := Tree.mkItem None None t (Some (cstring s)) 0%float
                                   None false false]> h, Some a)
        | None => Done (h, None)
        end
      | _, _ => Done (h, None)
      end in
    h !! a = None
    /\ Tree.cJSON_CreateString malloc_fn sizeof_cJSON text h
       = made Tree.cJSON_String
    /\ Tree.cJSON_CreateRaw malloc_fn sizeof_cJSON text h
       = made Tree.cJSON_Raw.
Proof.
  intros malloc_fn sizeof_cJSON text h a made.
  split; [apply fresh_address|].
  split; apply create_text_spec.
Qed.

(** X17.  [create_reference] makes, at an address that was free, a copy of
    the item that shares its child and its string, has no name and no
    neighbour, and is marked as a reference; deleting that copy gives the
    store back as it was, the item and its children untouched.  When the
    allocation fails nothing is created, and
    [cJSON_AddItemReferenceToArray] leaves the array as it is. *)
Theorem create_reference_shares_children :
  forall (malloc_fn : malloc_hook) (sizeof_cJSON : Z) (h : Tree.heap)
         (array : Tree.ptr) (item : nat) (it : Tree.cJSON),
    h !! item = Some it ->
    let r := fresh ({[0%nat]} ∪ dom h) in
    let ref := Tree.mkItem None (Tree.child it) (Tree.type it)
                 (Tree.string it) (Tree.number it) None true
                 (Tree.string_is_const it) in
    h !! r = None
    /\ (malloc_fn sizeof_cJSON <> None ->
        Tree.create_reference malloc_fn sizeof_cJSON h (Some item)
        = Done (<[r := ref]> h, Some r)
        /\ Tree.cJSON_Delete (<[r := ref]> h) (Some r) = Done h)
    /\ (malloc_fn sizeof_cJSON = None ->
        Tree.create_reference malloc_fn sizeof_cJSON h (Some item)
        = Done (h, None)
        /\ Tree.cJSON_AddItemReferenceToArray malloc_fn sizeof_cJSON h array
             (Some item) = Done h).
Proof.
  intros malloc_fn sizeof_cJSON h array item it Hitem r ref.
  pose proof (fresh_address h) as Hfresh. fold r in Hfresh.
  assert (Hir : item <> r) by (intros ->; congruence).
  split; [exact Hfresh|]. split.
  - intros Hm. split.
    + unfold Tree.create_reference, Tree.cJSON_New_Item.
      destruct (malloc_fn sizeof_cJSON); [|done]. fold r.
      cbn [Tree.load]. rewrite lookup_insert_ne by done. rewrite Hitem.
      cbn [bind Tree.modify]. rewrite lookup_insert_eq. cbn [bind].
      rewrite insert_insert_eq, lookup_insert_eq. cbn [bind].
      rewrite insert_insert_eq, lookup_insert_eq. cbn [bind].
      rewrite insert_insert_eq, lookup_insert_eq. cbn [bind].
      rewrite insert_insert_eq. reflexivity.
    + rewrite (cJSON_Delete_reference (<[r := ref]> h) r ref);
        [|apply lookup_insert_eq|reflexivity|reflexivity].
      now rewrite delete_insert_id.
  - intros Hm.
    assert (H : Tree.create_reference malloc_fn sizeof_cJSON h (Some item)
                = Done (h, None)).
    { unfold Tree.create_reference, Tree.cJSON_New_Item. now rewrite Hm. }
    split; [exact H|].
    unfold Tree.cJSON_AddItemReferenceToArray. rewrite H. reflexivity.
Qed.

Lemma create_reference_shares_children_witness :
  Tree.example_object !! 5%nat = None
  /\ Tree.create_reference (fun _ => Some []) 0 Tree.example_object
       (Some 1%nat)
     = Done (<[5%nat := Tree.mkItem None (Some 2%nat) Tree.cJSON_Object None
                                    0%float None true false]>
               Tree.example_object, Some 5%nat)
  /\ Tree.cJSON_Delete
       (<[5%nat := Tree.mkItem None (Some 2%nat) Tree.cJSON_Object None
                               0%float None true false]> Tree.example_object)
       (Some 5%nat) = Done Tree.example_object.
Proof.
  destruct (create_reference_shares_children (fun _ => Some []) 0
              Tree.example_object None 1
              (Tree.mkItem None (Some 2%nat) Tree.cJSON_Object None 0%float
                           None false false) eq_refl)
    as (Hfree & Hok & _).
  split; [exact Hfree|]. apply Hok. discriminate.
Defined.

Section CreateArrayFacts.

Import Tree.

Variable malloc_fn : malloc_hook.
Variable sizeof_cJSON : Z.
Hypothesis malloc_succeeds : malloc_fn sizeof_cJSON <> None.

Lemma cJSON_CreateNumber_spec (num : NumberCodec.double) (h : heap) :
  cJSON_CreateNumber malloc_fn sizeof_cJSON num h
  = Done (<[fresh ({[0%nat]} ∪ dom h) :=
              mkItem None None cJSON_Number None num None false false]> h,
          Some (fresh ({[0%nat]} ∪ dom h))).
Proof.
  unfold cJSON_CreateNumber, cJSON_New_Item.
  destruct (malloc_fn sizeof_cJSON); [|done].
  cbn [modify]. rewrite lookup_insert_eq. cbn [bind].
  rewrite insert_insert_eq, lookup_insert_eq. cbn [bind].
  now rewrite insert_insert_eq.
Qed.

Lemma cJSON_CreateArray_spec (h : heap) :
  cJSON_CreateArray malloc_fn sizeof_cJSON h
  = Done (<[fresh ({[0%nat]} ∪ dom h) :=
              mkItem None None cJSON_Array None 0%float None false false]> h,
          Some (fresh ({[0%nat]} ∪ dom h))).
Proof.
  unfold cJSON_CreateArray, create_typed, cJSON_New_Item.
  destruct (malloc_fn sizeof_cJSON); [|done].
  cbn [modify]. rewrite lookup_insert_eq. cbn [bind].
  now rewrite insert_insert_eq.
Qed.

Lemma holds_number_set_next (numbers : list NumberCodec.double) (h : heap)
    (z : nat) (itz : cJSON) (v : ptr) (k x : nat) :
  h !! z = Some itz -> holds_number numbers h k x ->
  holds_number numbers (<[z := set_next v itz]> h) k x.
Proof.
  intros Hz (itx & Hx & Ht & Hn). destruct (decide (x = z)) as [->|Hne].
  - exists (set_next v itz). rewrite lookup_insert_eq.
    assert (itx = itz) by congruence. subst itx. done.
  - exists itx. now rewrite lookup_insert_ne.
Qed.

Lemma double_array_loop_spec (numbers : list NumberCodec.double) (h0 : heap)
    (a : nat) :
  h0 !! a = None ->
  forall (n : nat) (h : heap) (i : nat) (p : ptr) (l : list nat)
         (arr : cJSON),
    h0 ⊆ h -> h !! a = Some arr -> chain h (child arr) l ->
    List.length l = i -> last l = p -> a ∉ l ->
    (forall b, b ∈ l -> h0 !! b = None) ->
    (forall k b, l !! k = Some b -> holds_number numbers h k b) ->
    (i + n <= List.length numbers)%nat ->
    exists h' arr' l',
      double_array_loop malloc_fn sizeof_cJSON n h (Some a) numbers i p
        = Done (h', Some a)
      /\ h0 ⊆ h' /\ h' !! a = Some arr' /\ same_payload arr arr'
      /\ chain h' (child arr') l' /\ List.length l' = (i + n)%nat
      /\ (forall b, b ∈ l' -> h0 !! b = None)
      /\ (forall k b, l' !! k = Some b -> holds_number numbers h' k b).
Proof.
  intros Ha0 n. induction n as [|n IH];
    intros h i p l arr Hsub Ha Hc Hlen Hlast Hal Hnew Hnum Hbound.
  - exists h, arr, l. split; [reflexivity|].
    split_and!; try done; first [apply same_payload_refl|lia].
  - destruct (lookup_lt_is_Some_2 numbers i) as [num Hi]; [lia|].
    cbn [double_array_loop]. rewrite Hi.
    rewrite cJSON_CreateNumber_spec. cbn [bind].
    pose proof (fresh_address h) as Hfresh.
    set (b := fresh ({[0%nat]} ∪ dom h)) in *.
    set (itb := mkItem None None cJSON_Number None num None false false).
    remember (<[b := itb]> h) as h1 eqn:Eh1.
    assert (Hba : b <> a) by (intros ->; congruence).
    assert (Hbl : b ∉ l).
    { intros Hin. apply (chain_live _ _ _ _ Hc), elem_of_dom in Hin.
      rewrite Hfresh in Hin. now destruct Hin. }
    assert (Hb0 : h0 !! b = None).
    { destruct (h0 !! b) eqn:E; [|done].
      rewrite (lookup_weaken _ _ _ _ E Hsub) in Hfresh. done. }
    assert (Hsub1 : h0 ⊆ h1).
    { rewrite Eh1. now apply insert_subseteq_r. }
    assert (Hc1 : chain h1 (child arr) l).
    { apply (chain_agree h h1 l); [|done]. intros x Hx. rewrite Eh1.
      apply lookup_insert_ne. intros ->. done. }
    assert (Ha1 : h1 !! a = Some arr).
    { rewrite Eh1. now rewrite lookup_insert_ne. }
    assert (Hb1 : h1 !! b = Some itb).
    { rewrite Eh1. apply lookup_insert_eq. }
    assert (Hnum1 : forall k x, (l ++ [b]) !! k = Some x ->
                                holds_number numbers h1 k x).
    { intros k x Hk. destruct (decide (k < List.length l)%nat) as [Hlt|Hge].
      - rewrite lookup_app_l in Hk by done.
        destruct (Hnum k x Hk) as (itx & Hx & Ht & Hn).
        exists itx. split; [|done]. rewrite Eh1, lookup_insert_ne; [done|].
        intros ->. apply Hbl. eapply list_elem_of_lookup_2; eauto.
      - rewrite lookup_app_r in Hk by lia.
        destruct (k - List.length l)%nat as [|m] eqn:Ek; [|done].
        injection Hk as <-. exists itb. split; [done|]. split; [done|].
        replace k with i by lia. exact Hi. }
    assert (Hstep : exists h2 arr2,
               match i with
               | O => modify h1 (Some a) (set_child (Some b))
               | S _ => suffix_object h1 p (Some b)
               end = Done h2
               /\ h0 ⊆ h2 /\ h2 !! a = Some arr2 /\ same_payload arr arr2
               /\ chain h2 (child arr2) (l ++ [b])
               /\ (forall k x, (l ++ [b]) !! k = Some x ->
                     holds_number numbers h2 k x)).
    { destruct i as [|j].
      - destruct l; [|discriminate]. cbn [modify]. rewrite Ha1.
        exists (<[a := set_child (Some b) arr]> h1), (set_child (Some b) arr).
        split; [reflexivity|]. split; [now apply insert_subseteq_r|].
        split; [apply lookup_insert_eq|]. split; [repeat split|]. split.
        + cbn [child set_child app chain]. split; [done|]. exists itb.
          rewrite lookup_insert_ne by done. now split.
        + intros k x Hk. destruct (Hnum1 k x Hk) as (itx & Hx & Ht & Hn).
          exists itx. split; [|done]. rewrite lookup_insert_ne; [done|].
          intros ->. destruct k as [|k]; [|done]. injection Hk as ->. done.
      - destruct l as [|z l' _] using rev_ind; [discriminate|].
        rewrite last_snoc in Hlast. subst p.
        destruct (chain_last _ _ _ _ Hc1) as (itz & Hz & Hzn).
        assert (Haz : a <> z).
        { intros ->. apply Hal. apply elem_of_app. right.
          apply list_elem_of_here. }
        cbn [suffix_object modify]. rewrite Hz.
        exists (<[z := set_next (Some b) itz]> h1), arr.
        split; [reflexivity|]. split.
        { apply insert_subseteq_r; [|done]. apply Hnew.
          apply elem_of_app. right. apply list_elem_of_here. }
        split; [now rewrite lookup_insert_ne|].
        split; [apply same_payload_refl|]. split.
        + apply (chain_snoc h1 l' z b itz itb); done.
        + intros k x Hk. apply holds_number_set_next; [done|].
          now apply Hnum1. }
    destruct Hstep as (h2 & arr2 & Hrun2 & Hsub2 & Ha2 & Hp2 & Hc2 & Hnum2).
    rewrite Hrun2. cbn [bind].
    destruct (IH h2 (S i) (Some b) (l ++ [b]) arr2)
      as (h' & arr' & l' & Hrun & Hsub' & Ha' & Hp' & Hc' & Hlen' & Hnew'
          & Hnum'); try done.
    + rewrite length_app. simpl. lia.
    + apply last_snoc.
    + intros Hin. apply elem_of_app in Hin as [Hin|Hin]; [done|].
      apply list_elem_of_singleton in Hin. congruence.
    + intros x Hx. apply elem_of_app in Hx as [Hx|Hx]; [auto|].
      apply list_elem_of_singleton in Hx. now subst x.
    + lia.
    + exists h', arr', l'. split; [exact Hrun|].
      split_and!; try done; first [lia|eapply same_payload_trans; eauto].
Qed.

Lemma cJSON_CreateDoubleArray_spec (numbers : list NumberCodec.double)
    (count : nat) (h : heap) :
  (count <= List.length numbers)%nat ->
  exists h' a arr l,
    cJSON_CreateDoubleArray malloc_fn sizeof_cJSON numbers count h
      = Done (h', Some a)
    /\ h ⊆ h' /\ h !! a = None /\ h' !! a = Some arr
    /\ type arr = cJSON_Array /\ chain h' (child arr) l
    /\ List.length l = count
    /\ (forall b, b ∈ l -> h !! b = None)
    /\ (forall k b, l !! k = Some b -> holds_number numbers h' k b).
Proof.
  intros Hcount. unfold cJSON_CreateDoubleArray.
  rewrite cJSON_CreateArray_spec. cbn [bind].
  pose proof (fresh_address h) as Hfresh.
  set (a := fresh ({[0%nat]} ∪ dom h)) in *.
  set (arr := mkItem None None cJSON_Array None 0%float None false false).
  destruct (double_array_loop_spec numbers h a Hfresh count (<[a := arr]> h)
              0 None [] arr)
    as (h' & arr' & l & Hrun & Hsub & Ha' & Hp & Hc & Hlen & Hnew & Hnum);
    try done.
  - now apply insert_subseteq.
  - apply lookup_insert_eq.
  - apply not_elem_of_nil.
  - intros b Hb. now apply elem_of_nil in Hb.
  - exists h', a, arr', l. split; [exact Hrun|]. split_and!; try done.
    destruct Hp as (<- & _). reflexivity.
Qed.

End CreateArrayFacts.

(** X18.  Where items can be allocated, [cJSON_CreateDoubleArray] on the
    first [count] of the given numbers returns a new Array item with
    [count] children, the child at index [k] a Number holding the [k]-th
    number; the items that were in the store are untouched. *)
Theorem create_double_array_holds_numbers (malloc_fn : malloc_hook)
    (sizeof_cJSON : Z) (numbers : list NumberCodec.double) (count : nat)
    (h : Tree.heap) :
  malloc_fn sizeof_cJSON <> None -> (count <= List.length numbers)%nat ->
  exists h' a arr,
    Tree.cJSON_CreateDoubleArray malloc_fn sizeof_cJSON numbers count h
      = Done (h', Some a)
    /\ h ⊆ h' /\ h !! a = None /\ h' !! a = Some arr
    /\ Tree.type arr = Tree.cJSON_Array
    /\ Tree.cJSON_GetArraySize h' (Some a) = Done count
    /\ forall k num,
         (k < count)%nat -> numbers !! k = Some num ->
         exists b itb,
           Tree.cJSON_GetArrayItem h' (Some a) k = Done (Some b)
           /\ h !! b = None /\ h' !! b = Some itb
           /\ Tree.type itb = Tree.cJSON_Number /\ Tree.number itb = num.
Proof.
  intros Hm Hcount.
  destruct (cJSON_CreateDoubleArray_spec malloc_fn sizeof_cJSON Hm numbers
              count h Hcount)
    as (h' & a & arr & l & Hrun & Hsub & Ha & Ha' & Ht & Hc & Hlen & Hnew
        & Hnum).
  exists h', a, arr. split; [exact Hrun|]. split_and!; try done.
  - unfold Tree.cJSON_GetArraySize, Tree.load. rewrite Ha'. cbn [bind].
    rewrite (count_chain_spec h' l _ _ 0%nat Hc); [now rewrite Hlen|].
    pose proof (chain_length_size _ _ _ Hc). lia.
  - intros k num Hk Hknum.
    destruct (lookup_lt_is_Some_2 l k) as [b Hb]; [lia|].
    destruct (Hnum k b Hb) as (itb & Hitb & Htb & Hnb).
    exists b, itb. split_and!; try done.
    + unfold Tree.cJSON_GetArrayItem, Tree.load. rewrite Ha'. cbn [bind].
      rewrite (item_walk_spec h' l _ _ Hc). now rewrite Hb.
    + apply Hnew. eapply list_elem_of_lookup_2; eauto.
    + congruence.
Qed.

Lemma create_double_array_holds_numbers_witness :
  exists h' a arr,
    Tree.cJSON_CreateDoubleArray (fun _ => Some []) 0
      [1.5%float; 2.5%float; 3.5%float] 2 ∅ = Done (h', Some a)
    /\ ∅ ⊆ h' /\ (∅ : Tree.heap) !! a = None /\ h' !! a = Some arr
    /\ Tree.type arr = Tree.cJSON_Array
    /\ Tree.cJSON_GetArraySize h' (Some a) = Done 2%nat
    /\ forall k num,
         (k < 2)%nat -> [1.5%float; 2.5%float; 3.5%float] !! k = Some num ->
         exists b itb,
           Tree.cJSON_GetArrayItem h' (Some a) k = Done (Some b)
           /\ (∅ : Tree.heap) !! b = None /\ h' !! b = Some itb
           /\ Tree.type itb = Tree.cJSON_Number /\ Tree.number itb = num.
Proof.
  apply (create_double_array_holds_numbers (fun _ => Some []) 0
           [1.5%float; 2.5%float; 3.5%float] 2 ∅).
  - discriminate.
  - simpl. lia.
Defined.

(** ** Duplicating and deleting *)

Section DuplicateExactFacts.

Import Tree.



Variable malloc_fn : malloc_hook.
Variable sizeof_cJSON : Z.
Hypothesis malloc_succeeds : forall n, malloc_fn n <> None.




End DuplicateExactFacts.



(** ** The parser, continued *)

(** Evaluate the words of the goal. *)
Ltac eval_words :=
  repeat match goal with
         | |- context [bytes_of_string ?w] =>
           let v := eval vm_compute in (bytes_of_string w) in
           change (bytes_of_string w) with v
         end.

Section SkipFacts.

Import Tree Parser.

Lemma byte_at_end (s : bytes) (i : nat) :
  (List.length s <= i)%nat -> byte_at s i = 0.
Proof. intros H. unfold byte_at. now rewrite lookup_ge_None_2. Qed.

Lemma skip_loop_spec (s : bytes) :
  forall (fuel i : nat),
    (List.length s <= i + fuel)%nat ->
    (i <= skip_loop fuel s i)%nat
    /\ (forall k, (i <= k < skip_loop fuel s i)%nat -> blank (byte_at s k))
    /\ (byte_at s (skip_loop fuel s i) = 0
        \/ 32 < byte_at s (skip_loop fuel s i)).
Proof.
  induction fuel as [|fuel IH]; intros i Hlen.
  - cbn [skip_loop]. split; [lia|]. split; [intros k Hk; lia|].
    left. apply byte_at_end. lia.
  - cbn [skip_loop].
    destruct (negb (byte_at s i =? 0) && (byte_at s i <=? 32)) eqn:E.
    + destruct (IH (S i)) as (H1 & H2 & H3); [lia|].
      split; [lia|]. split; [|exact H3].
      intros k Hk. destruct (decide (k = i)) as [->|Hne]; [|apply H2; lia].
      apply andb_true_iff in E as [E1 E2]. apply negb_true_iff in E1.
      split; lia.
    + split; [lia|]. split; [intros k Hk; lia|].
      apply andb_false_iff in E as [E|E].
      * apply negb_false_iff in E. left. lia.
      * right. lia.
Qed.

(** [skip] over a run of blanks in front of a text at which it stops. *)
Lemma skip_loop_blanks (pre ws rest : bytes) (fuel : nat) :
  Forall blank ws -> stops rest -> (List.length ws <= fuel)%nat ->
  skip_loop fuel (pre ++ ws ++ rest) (List.length pre)
  = (List.length pre + List.length ws)%nat.
Proof.
  revert pre fuel. induction ws as [|c ws IH]; intros pre fuel Hws Hr Hf.
  - rewrite Nat.add_0_r. cbn [app]. destruct fuel as [|fuel]; [done|].
    cbn [skip_loop].
    replace (byte_at (pre ++ rest) (List.length pre)) with (byte_at rest 0)
      by (rewrite <- (byte_at_app_r pre rest 0); f_equal; lia).
    destruct rest as [|g rest]; [reflexivity|]. unfold byte_at. cbn.
    destruct Hr as [->|Hg]; [reflexivity|].
    rewrite (proj2 (Z.leb_gt g 32)) by lia. now rewrite andb_false_r.
  - apply Forall_cons in Hws as [[Hc0 Hc32] Hws].
    destruct fuel as [|fuel]; [simpl in Hf; lia|]. cbn [skip_loop].
    replace (byte_at (pre ++ (c :: ws) ++ rest) (List.length pre)) with c.
    2:{ rewrite <- (Nat.add_0_r (List.length pre)), byte_at_app_r.
        reflexivity. }
    rewrite (proj2 (Z.eqb_neq c 0) Hc0), (proj2 (Z.leb_le c 32) Hc32).
    cbn [negb andb].
    replace (pre ++ (c :: ws) ++ rest) with ((pre ++ [c]) ++ ws ++ rest)
      by (rewrite <- app_assoc; reflexivity).
    replace (S (List.length pre)) with (List.length (pre ++ [c]))
      by (rewrite length_app; simpl; lia).
    rewrite IH; [|done|done|simpl in Hf; lia].
    rewrite length_app. simpl. lia.
Qed.

End SkipFacts.

(** X20.  [skip] moves to the first byte that is the terminator or above
    32 and never past it: every byte it passes over is a non-zero byte of
    at most 32.  A NULL pointer stays NULL. *)
Theorem skip_stops_at_first_non_blank :
  forall (s : bytes) (i : nat),
    Parser.skip s None = None
    /\ exists j,
         Parser.skip s (Some i) = Some j /\ (i <= j)%nat
         /\ (forall k, (i <= k < j)%nat -> Parser.blank (byte_at s k))
         /\ (byte_at s j = 0 \/ 32 < byte_at s j).
Proof.
  intros s i. split; [reflexivity|].
  exists (Parser.skip_loop (List.length s) s i). split; [reflexivity|].
  apply skip_loop_spec. lia.
Qed.

Section ParseFacts.

Import Tree Parser.

Variable malloc_fn : malloc_hook.
Variable sizeof_cJSON : Z.
Variable strtod : bytes -> nat -> NumberCodec.double * nat.

Lemma starts_with_here (pre word post : bytes) :
  starts_with (pre ++ word ++ post) (List.length pre) word = true.
Proof.
  revert pre. induction word as [|c word IH]; intros pre; [reflexivity|].
  cbn [starts_with].
  replace (byte_at (pre ++ (c :: word) ++ post) (List.length pre)) with c.
  2:{ rewrite <- (Nat.add_0_r (List.length pre)), byte_at_app_r.
      reflexivity. }
  rewrite Z.eqb_refl. cbn [andb].
  replace (pre ++ (c :: word) ++ post) with ((pre ++ [c]) ++ word ++ post)
    by (rewrite <- app_assoc; reflexivity).
  replace (S (List.length pre)) with (List.length (pre ++ [c]))
    by (rewrite length_app; simpl; lia).
  apply IH.
Qed.

Lemma starts_with_other (s : bytes) (v : nat) (c : byte) (word : bytes) :
  byte_at s v <> c -> starts_with s v (c :: word) = false.
Proof.
  intros H. cbn [starts_with]. now rewrite (proj2 (Z.eqb_neq _ _) H).
Qed.

(** At a byte that opens no value [parse_value] fails and points [ep] at
    it. *)
Lemma parse_value_at_terminator (fuel : nat) (st : pstate) (item : ptr)
    (s : bytes) (v : nat) :
  byte_at s v = 0 ->
  parse_value malloc_fn sizeof_cJSON strtod (S fuel) st item s (Some v)
  = Done (mkP (store st) (Some v), None).
Proof.
  intros Hz. cbn [parse_value]. eval_words.
  rewrite !starts_with_other by (rewrite Hz; discriminate).
  rewrite Hz. reflexivity.
Qed.

(** Releasing the root that [cJSON_ParseWithOpts] allocated. *)
Lemma release_root (h : heap) (c : nat) (it : cJSON) :
  h !! c = None -> next it = None -> child it = None ->
  internal_cJSON_Delete (S (size (<[c := it]> h))) (<[c := it]> h) (Some c)
  = Done h.
Proof. apply delete_fresh_item. Qed.

Lemma parse_fuel_S (s : bytes) :
  parse_fuel s = S (2 * List.length s + 3).
Proof. unfold parse_fuel. lia. Qed.

Lemma parse_blank_spec (h : heap) (global_ep0 : option nat) (s : bytes)
    (with_end require_null_terminated : bool) :
  malloc_fn sizeof_cJSON <> None -> Forall blank s ->
  exists r,
    cJSON_ParseWithOpts malloc_fn sizeof_cJSON strtod h global_ep0 s with_end
      require_null_terminated = Done r
    /\ root r = None /\ error_pointer r = Some (List.length s)
    /\ items r = h.
Proof.
  intros Hm Hs. unfold cJSON_ParseWithOpts, cJSON_New_Item.
  destruct (malloc_fn sizeof_cJSON); [|done].
  pose proof (fresh_address h) as Hfresh.
  set (c := fresh ({[0%nat]} ∪ dom h)) in *.
  assert (Hskip : skip s (Some 0%nat) = Some (List.length s)).
  { unfold skip. cbn [option_map]. f_equal.
    pose proof (skip_loop_blanks [] s [] (List.length s) Hs I) as H.
    cbn [app List.length] in H. rewrite app_nil_r in H. apply H. lia. }
  rewrite Hskip, parse_fuel_S.
  rewrite parse_value_at_terminator by (apply byte_at_end; lia).
  cbn [bind store ep]. rewrite release_root by done. cbn [bind].
  eexists. split; [reflexivity|]. destruct with_end; repeat split.
Qed.

Lemma parse_number_failure_spec (h : heap) (global_ep0 : option nat)
    (ws rest : bytes) (c0 : byte)
    (with_end require_null_terminated : bool) :
  malloc_fn sizeof_cJSON <> None -> Forall blank ws ->
  c0 = ch "-" \/ ch "0" <= c0 <= ch "9" ->
  snd (strtod (ws ++ c0 :: rest) (List.length ws)) = List.length ws ->
  exists r,
    cJSON_ParseWithOpts malloc_fn sizeof_cJSON strtod h global_ep0
      (ws ++ c0 :: rest) with_end require_null_terminated = Done r
    /\ root r = None /\ error_pointer r = None /\ items r = h.
Proof.
  intros Hm Hws Hc0 Hstrtod. unfold cJSON_ParseWithOpts, cJSON_New_Item.
  destruct (malloc_fn sizeof_cJSON); [|done].
  pose proof (fresh_address h) as Hfresh.
  set (c := fresh ({[0%nat]} ∪ dom h)) in *.
  set (s := ws ++ c0 :: rest) in *.
  assert (Hc032 : 32 < c0) by (revert Hc0; eval_ch; lia).
  assert (Hskip : skip s (Some 0%nat) = Some (List.length ws)).
  { unfold skip. cbn [option_map]. f_equal.
    pose proof (skip_loop_blanks [] ws (c0 :: rest) (List.length s) Hws) as H.
    cbn [app List.length] in H. apply H; [now right|].
    unfold s. rewrite length_app. lia. }
  assert (Hb : byte_at s (List.length ws) = c0).
  { unfold s. rewrite <- (Nat.add_0_r (List.length ws)), byte_at_app_r.
    reflexivity. }
  rewrite Hskip, parse_fuel_S. cbn [parse_value]. eval_words.
  rewrite !starts_with_other by (rewrite Hb; revert Hc0; eval_ch; lia).
  rewrite Hb.
  assert (Hq : (c0 =? QUOTE) = false).
  { apply Z.eqb_neq. revert Hc0. unfold QUOTE. eval_ch. lia. }
  rewrite Hq.
  assert (Hnum : (c0 =? ch "-") || ((ch "0" <=? c0) && (c0 <=? ch "9"))
                 = true).
  { revert Hc0. eval_ch. intros [->|H]; [reflexivity|].
    rewrite (proj2 (Z.leb_le 48 c0)), (proj2 (Z.leb_le c0 57)) by lia.
    apply orb_true_r. }
  rewrite Hnum. unfold parse_number.
  destruct (strtod s (List.length ws)) as [number endpointer].
  cbn [snd] in Hstrtod. subst endpointer. rewrite Nat.eqb_refl.
  cbn [bind store ep]. rewrite release_root by done. cbn [bind].
  eexists. split; [reflexivity|]. destruct with_end; repeat split.
Qed.

End ParseFacts.

(** X21.  Where the root item can be allocated, [cJSON_ParseWithOpts] on a
    text that holds nothing but bytes [skip] passes over, the empty text
    among them, returns NULL, points the error pointer at the terminator
    and gives the store back as it was. *)
Theorem parse_blank_text_fails_at_terminator (malloc_fn : malloc_hook)
    (sizeof_cJSON : Z) (strtod : bytes -> nat -> NumberCodec.double * nat)
    (h : Tree.heap) (global_ep0 : option nat) (s : bytes)
    (with_end require_null_terminated : bool) :
  malloc_fn sizeof_cJSON <> None -> Forall Parser.blank s ->
  exists r,
    Parser.cJSON_ParseWithOpts malloc_fn sizeof_cJSON strtod h global_ep0 s
      with_end require_null_terminated = Done r
    /\ Parser.root r = None
    /\ Parser.error_pointer r = Some (List.length s)
    /\ Parser.items r = h.
Proof. apply parse_blank_spec. Qed.

Lemma parse_blank_text_fails_at_terminator_witness :
  exists r,
    Parser.cJSON_ParseWithOpts (fun _ => Some []) 0 (fun _ i => (0%float, i))
      ∅ None [32; 10; 9] false true = Done r
    /\ Parser.root r = None /\ Parser.error_pointer r = Some 3%nat
    /\ Parser.items r = ∅.
Proof.
  apply (parse_blank_text_fails_at_terminator (fun _ => Some []) 0
           (fun _ i => (0%float, i)) ∅ None [32; 10; 9] false true).
  - discriminate.
  - repeat constructor; unfold Parser.blank; lia.
Defined.

(** X22.  When the text, after blanks, starts with a minus sign or a digit
    and [strtod] converts nothing there, [cJSON_ParseWithOpts] returns NULL
    and gives the store back, but leaves the error pointer NULL:
    [parse_number] does not say where it failed. *)
Theorem parse_number_failure_is_not_located (malloc_fn : malloc_hook)
    (sizeof_cJSON : Z) (strtod : bytes -> nat -> NumberCodec.double * nat)
    (h : Tree.heap) (global_ep0 : option nat) (ws rest : bytes) (c0 : byte)
    (with_end require_null_terminated : bool) :
  malloc_fn sizeof_cJSON <> None -> Forall Parser.blank ws ->
  c0 = ch "-" \/ ch "0" <= c0 <= ch "9" ->
  snd (strtod (ws ++ c0 :: rest) (List.length ws)) = List.length ws ->
  exists r,
    Parser.cJSON_ParseWithOpts malloc_fn sizeof_cJSON strtod h global_ep0
      (ws ++ c0 :: rest) with_end require_null_terminated = Done r
    /\ Parser.root r = None /\ Parser.error_pointer r = None
    /\ Parser.items r = h.
Proof. apply parse_number_failure_spec. Qed.

Lemma parse_number_failure_is_not_located_witness :
  exists r,
    Parser.cJSON_ParseWithOpts (fun _ => Some []) 0 (fun _ i => (0%float, i))
      ∅ None ([32] ++ ch "-" :: []) false true = Done r
    /\ Parser.root r = None /\ Parser.error_pointer r = None
    /\ Parser.items r = ∅.
Proof.
  apply (parse_number_failure_is_not_located (fun _ => Some []) 0
           (fun _ i => (0%float, i)) ∅ None [32] [] (ch "-") false true).
  - discriminate.
  - repeat constructor; unfold Parser.blank; lia.
  - now left.
  - reflexivity.
Defined.

Section LiteralFacts.

Import Tree Parser.

Variable malloc_fn : malloc_hook.
Variable sizeof_cJSON : Z.
Variable strtod : bytes -> nat -> NumberCodec.double * nat.

(** [parse_value] on one of the three literal names. *)
Lemma parse_value_literal (fuel : nat) (st : pstate) (item : nat)
    (it : cJSON) (pre post word : bytes) (ty : cJSON_type) :
  literal_name ty = Some word -> store st !! item = Some it ->
  parse_value malloc_fn sizeof_cJSON strtod (S fuel) st (Some item)
    (pre ++ word ++ post) (Some (List.length pre))
  = Done (mkP (<[item := set_type ty it]> (store st)) (ep st),
          Some (List.length pre + List.length word)%nat).
Proof.
  intros Hty Hit. cbn [parse_value].
  assert (Hhd : forall c w,
                  byte_at (pre ++ (c :: w) ++ post) (List.length pre) = c).
  { intros c w. rewrite <- (Nat.add_0_r (List.length pre)), byte_at_app_r.
    reflexivity. }
  destruct ty; try discriminate; cbn [literal_name] in Hty;
    injection Hty as <-; eval_words.
  - rewrite (starts_with_other _ _ 110)
      by (rewrite Hhd; discriminate).
    rewrite starts_with_here. cbn [modify]. rewrite Hit. reflexivity.
  - rewrite (starts_with_other _ _ 110)
      by (rewrite Hhd; discriminate).
    rewrite (starts_with_other _ _ 102)
      by (rewrite Hhd; discriminate).
    rewrite starts_with_here. cbn [modify]. rewrite Hit. reflexivity.
  - rewrite starts_with_here. cbn [modify]. rewrite Hit. reflexivity.
Qed.

Lemma parse_literal_spec (h : heap) (global_ep0 : option nat)
    (ty : cJSON_type) (word ws1 ws2 rest : bytes)
    (with_end require_null_terminated : bool) :
  malloc_fn sizeof_cJSON <> None -> literal_name ty = Some word ->
  Forall blank ws1 -> Forall blank ws2 -> stops rest ->
  let c := fresh ({[0%nat]} ∪ dom h) in
  let after := (List.length ws1 + List.length word)%nat in
  let past := (after + List.length ws2)%nat in
  exists r,
    cJSON_ParseWithOpts malloc_fn sizeof_cJSON strtod h global_ep0
      (ws1 ++ word ++ ws2 ++ rest) with_end require_null_terminated = Done r
    /\ if require_null_terminated && garbage rest
       then root r = None /\ error_pointer r = Some past /\ items r = h
       else root r = Some c
            /\ items r = <[c := set_type ty zero_item]> h
            /\ error_pointer r
               = (if with_end
                  then Some (if require_null_terminated then past else after)
                  else None).
Proof.
  intros Hm Hty Hws1 Hws2 Hrest c after past.
  unfold cJSON_ParseWithOpts, cJSON_New_Item.
  destruct (malloc_fn sizeof_cJSON); [|done].
  pose proof (fresh_address h) as Hfresh. fold c in Hfresh. fold c.
  set (s := ws1 ++ word ++ ws2 ++ rest).
  assert (Hword : exists c0 w, word = c0 :: w /\ 32 < c0).
  { destruct ty; try discriminate; cbn [literal_name] in Hty;
      injection Hty as <-; eexists _, _; (split; [reflexivity|]);
      vm_compute; reflexivity. }
  destruct Hword as (c0 & w & Hw & Hc0).
  assert (Hskip : skip s (Some 0%nat) = Some (List.length ws1)).
  { unfold skip. cbn [option_map]. f_equal.
    pose proof (skip_loop_blanks [] ws1 (word ++ ws2 ++ rest) (List.length s)
                  Hws1) as H.
    cbn [app List.length] in H. apply H.
    - rewrite Hw. cbn. now right.
    - unfold s. rewrite length_app. lia. }
  rewrite Hskip, parse_fuel_S.
  unfold s at 1.
  rewrite (parse_value_literal _ _ c zero_item ws1 (ws2 ++ rest) word ty Hty)
    by apply lookup_insert_eq.
  cbn [bind store ep]. rewrite insert_insert_eq. fold after.
  assert (Hpast : skip_loop (List.length s) s after = past).
  { unfold s, past, after.
    replace (ws1 ++ word ++ ws2 ++ rest) with ((ws1 ++ word) ++ ws2 ++ rest)
      by now rewrite <- app_assoc.
    rewrite <- (length_app ws1 word).
    apply skip_loop_blanks; [done|done|].
    rewrite !length_app. lia. }
  assert (Hbyte : negb (byte_at s past =? 0) = garbage rest).
  { unfold s, past, after.
    replace (ws1 ++ word ++ ws2 ++ rest) with ((ws1 ++ word ++ ws2) ++ rest)
      by now rewrite <- !app_assoc.
    replace (List.length ws1 + List.length word + List.length ws2)%nat
      with (List.length (ws1 ++ word ++ ws2) + 0)%nat
      by (rewrite !length_app; lia).
    rewrite byte_at_app_r. destruct rest; reflexivity. }
  rewrite Hpast, Hbyte.
  destruct require_null_terminated; cbn [andb].
  - destruct (garbage rest).
    + rewrite release_root by done. cbn [bind].
      eexists. split; [reflexivity|]. destruct with_end; repeat split.
    + eexists. split; [reflexivity|]. destruct with_end; repeat split.
  - eexists. split; [reflexivity|]. destruct with_end; repeat split.
Qed.

End LiteralFacts.

(** X23.  [cJSON_ParseWithOpts] on one of the words null, false and true,
    with blanks before and after it, returns a new item of that type at an
    address that was free.  When a terminator is required and a byte above
    32 follows the blanks after the word, it returns NULL instead, points
    the error pointer at that byte and gives the store back; when none is
    required what follows is not looked at.  A caller that passed an end
    pointer finds the position behind the word in it, or behind the blanks
    after the word when a terminator is required. *)
Theorem parse_literal_and_trailing_text (malloc_fn : malloc_hook)
    (sizeof_cJSON : Z) (strtod : bytes -> nat -> NumberCodec.double * nat)
    (h : Tree.heap) (global_ep0 : option nat) (ty : Tree.cJSON_type)
    (word ws1 ws2 rest : bytes) (with_end require_null_terminated : bool) :
  malloc_fn sizeof_cJSON <> None -> Parser.literal_name ty = Some word ->
  Forall Parser.blank ws1 -> Forall Parser.blank ws2 -> Parser.stops rest ->
  let c := fresh ({[0%nat]} ∪ dom h) in
  let after := (List.length ws1 + List.length word)%nat in
  let past := (after + List.length ws2)%nat in
  exists r,
    Parser.cJSON_ParseWithOpts malloc_fn sizeof_cJSON strtod h global_ep0
      (ws1 ++ word ++ ws2 ++ rest) with_end require_null_terminated = Done r
    /\ if require_null_terminated && Parser.garbage rest
       then Parser.root r = None /\ Parser.error_pointer r = Some past
            /\ Parser.items r = h
       else Parser.root r = Some c
            /\ Parser.items r = <[c := Tree.set_type ty Tree.zero_item]> h
            /\ Parser.error_pointer r
               = (if with_end
                  then Some (if require_null_terminated then past else after)
                  else None).
Proof. apply parse_literal_spec. Qed.

Lemma parse_literal_and_trailing_text_witness :
  exists r,
    Parser.cJSON_ParseWithOpts (fun _ => Some []) 0 (fun _ i => (0%float, i))
      ∅ None ([32] ++ bytes_of_string "true" ++ [10] ++ bytes_of_string "x")
      true true = Done r
    /\ Parser.root r = None /\ Parser.error_pointer r = Some 6%nat
    /\ Parser.items r = ∅.
Proof.
  apply (parse_literal_and_trailing_text (fun _ => Some []) 0
           (fun _ i => (0%float, i)) ∅ None Tree.cJSON_True
           (bytes_of_string "true") [32] [10] (bytes_of_string "x") true
           true).
  - discriminate.
  - reflexivity.
  - repeat constructor; unfold Parser.blank; lia.
  - repeat constructor; unfold Parser.blank; lia.
  - right. vm_compute. reflexivity.
Defined.

(** ** The string printer, continued *)

Section PrintStringFacts.

Import PrintBuffer StringCodec.

Variable w : N.
Variable malloc_fn : malloc_hook.

Lemma hex_char_printable (d : Z) : 0 <= d < 16 -> 32 <= hex_char d < 128.
Proof. intros H. unfold hex_char. eval_ch. destruct (d <? 10); lia. Qed.

(** What is written for one byte: its length and its bytes. *)
Lemma escape_byte_length (c : byte) :
  valid_byte c ->
  Z.of_nat (List.length (escape_byte c))
  = if has_shortcut c then 2 else 6.
Proof.
  intros Hc. unfold escape_byte, has_shortcut, QUOTE, BACKSLASH.
  repeat match goal with
         | |- context [?a =? ?b] => destruct (Z.eqb_spec a b); try lia
         end; reflexivity.
Qed.

Lemma escape_byte_printable (c : byte) :
  valid_byte c -> Forall (fun b => 32 <= b < 128) (escape_byte c).
Proof.
  intros Hc. unfold escape_byte, sprintf_u04x, QUOTE, BACKSLASH. eval_ch.
  assert (Hd : forall d, 32 <= hex_char (d mod 16) < 128).
  { intros d. apply hex_char_printable. apply Z.mod_pos_bound. lia. }
  repeat match goal with
         | |- context [?a =? ?b] => destruct (Z.eqb_spec a b)
         end; repeat constructor; try lia; apply Hd.
Qed.

Lemma print_escaped_printable (str : bytes) :
  Forall valid_byte str ->
  Forall (fun b => 32 <= b < 256) (print_escaped str).
Proof.
  induction 1 as [|c str Hc _ IH]; [constructor|]. cbn [print_escaped].
  destruct (Z.eqb_spec c 0); [constructor|].
  destruct ((c >? 31) && negb (c =? QUOTE) && negb (c =? BACKSLASH)) eqn:E.
  - constructor; [|exact IH]. unfold valid_byte in Hc.
    apply andb_true_iff in E as [E _]. apply andb_true_iff in E as [E _]. lia.
  - apply Forall_app. split; [|exact IH].
    eapply Forall_impl; [apply escape_byte_printable; exact Hc|].
    cbn. intros; lia.
Qed.

Lemma escaped_length_spec (str : bytes) :
  Forall valid_byte str ->
  forall len,
    0 <= len -> len + 6 * Z.of_nat (List.length str) < size_modulus w ->
    escaped_length w str len
    = len + Z.of_nat (List.length (print_escaped str)).
Proof.
  induction 1 as [|c str Hc _ IH]; intros len Hlen Hfit.
  - cbn. lia.
  - cbn [escaped_length print_escaped].
    destruct (Z.eqb_spec c 0); [unfold valid_byte in Hc; lia|].
    cbn [List.length] in Hfit.
    rewrite (wrap_small w (len + 1)) by lia.
    pose proof (escape_byte_length c Hc) as Hesc.
    assert (Hplain :
              (c >? 31) && negb (c =? QUOTE) && negb (c =? BACKSLASH) = true
              -> has_shortcut c = false /\ (c <? 32) = false).
    { unfold has_shortcut, QUOTE, BACKSLASH. intros E.
      apply andb_true_iff in E as [E E3]. apply andb_true_iff in E as [E1 E2].
      apply negb_true_iff in E2, E3.
      unfold QUOTE in E2. unfold BACKSLASH in E3. rewrite E2, E3.
      assert (31 < c) by lia.
      rewrite !(proj2 (Z.eqb_neq c _)) by lia. split; [reflexivity|lia]. }
    assert (Hesc2 :
              (c >? 31) && negb (c =? QUOTE) && negb (c =? BACKSLASH) = false
              -> has_shortcut c = false -> (c <? 32) = true).
    { unfold has_shortcut, QUOTE, BACKSLASH. intros E Hs.
      apply orb_false_iff in Hs as [Hs _]. apply orb_false_iff in Hs as [Hs _].
      apply orb_false_iff in Hs as [Hs _]. apply orb_false_iff in Hs as [Hs _].
      apply orb_false_iff in Hs as [Hs _]. apply orb_false_iff in Hs as [H1 H2].
      unfold QUOTE, BACKSLASH in E. rewrite H1, H2 in E. cbn [negb] in E.
      rewrite !andb_true_r in E. lia. }
    destruct ((c >? 31) && negb (c =? QUOTE) && negb (c =? BACKSLASH)) eqn:E.
    + destruct (Hplain eq_refl) as [-> ->].
      rewrite IH by lia. cbn [List.length]. lia.
    + rewrite length_app.
      destruct (has_shortcut c) eqn:Es.
      * rewrite (wrap_small w (len + 1 + 1)) by lia.
        rewrite IH by lia. lia.
      * rewrite (Hesc2 eq_refl eq_refl).
        rewrite (wrap_small w (len + 1 + 5)) by lia.
        rewrite IH by lia. lia.
Qed.

Lemma escape_flag_length (str : bytes) :
  Forall valid_byte str ->
  forall flag n,
    snd (escape_flag str flag n) = n + Z.of_nat (List.length str).
Proof.
  induction 1 as [|c str Hc _ IH]; intros flag n; cbn [escape_flag].
  - cbn. lia.
  - destruct (Z.eqb_spec c 0); [unfold valid_byte in Hc; lia|].
    rewrite IH. cbn [List.length]. lia.
Qed.

Lemma print_string_ptr_room (str : bytes) (p : option printbuffer) :
  Forall valid_byte str ->
  6 * Z.of_nat (List.length str) + 3 < size_modulus w ->
  print_string_ptr w malloc_fn (Some str) p
  = emit w malloc_fn p
      (Z.of_nat (List.length ([QUOTE] ++ print_escaped str ++ [QUOTE])) + 1)
      ([QUOTE] ++ print_escaped str ++ [QUOTE]).
Proof.
  intros Hv Hfit. unfold print_string_ptr.
  pose proof (escape_flag_length str Hv false 0) as Hlen.
  pose proof (escape_flag_false str Hv false 0) as Hflag.
  destruct (escape_flag str false 0) as [flag len]. cbn [fst snd] in *.
  destruct flag; cbn [negb].
  - rewrite (escaped_length_spec str Hv 0) by lia.
    assert (Hb : Z.of_nat (List.length (print_escaped str))
                 <= 6 * Z.of_nat (List.length str)).
    { clear -Hv. induction Hv as [|c str Hc _ IH]; [cbn; lia|].
      cbn [print_escaped]. destruct (Z.eqb_spec c 0); [cbn; lia|].
      destruct ((c >? 31) && negb (c =? QUOTE) && negb (c =? BACKSLASH)).
      - cbn [List.length]. lia.
      - rewrite length_app. pose proof (escape_byte_length c Hc).
        destruct (has_shortcut c); cbn [List.length]; lia. }
    rewrite wrap_small by lia. f_equal.
    rewrite !length_app. cbn [List.length]. lia.
  - destruct (Hflag eq_refl) as [_ Heq]. rewrite Heq, (cstring_valid str Hv).
    rewrite wrap_small by lia. f_equal.
    rewrite !length_app. cbn [List.length]. lia.
Qed.

End PrintStringFacts.

(** X24.  For a string of non-zero bytes that is short enough for its
    escaped length to fit [size_t], [print_string_ptr] asks for exactly as
    many bytes as it writes: the two quotes, the escaped bytes and the
    terminator.  What it writes between the quotes holds no control byte
    and no byte outside a byte's range. *)
Theorem print_string_requests_what_it_writes (w : N)
    (malloc_fn : malloc_hook) (str : bytes)
    (p : option PrintBuffer.printbuffer) :
  Forall StringCodec.valid_byte str ->
  6 * Z.of_nat (List.length str) + 3 < PrintBuffer.size_modulus w ->
  StringCodec.print_string_ptr w malloc_fn (Some str) p
  = StringCodec.emit w malloc_fn p
      (Z.of_nat (List.length
                   ([QUOTE] ++ StringCodec.print_escaped str ++ [QUOTE])) + 1)
      ([QUOTE] ++ StringCodec.print_escaped str ++ [QUOTE])
  /\ Forall (fun b => 32 <= b < 256) (StringCodec.print_escaped str).
Proof.
  intros Hv Hfit. split.
  - now apply print_string_ptr_room.
  - now apply print_escaped_printable.
Qed.

Lemma print_string_requests_what_it_writes_witness :
  StringCodec.print_string_ptr 32 (fun _ => Some []) (Some [97; 10; 34]) None
  = StringCodec.emit 32 (fun _ => Some []) None
      (Z.of_nat (List.length
                   ([QUOTE] ++ StringCodec.print_escaped [97; 10; 34]
                    ++ [QUOTE])) + 1)
      ([QUOTE] ++ StringCodec.print_escaped [97; 10; 34] ++ [QUOTE])
  /\ Forall (fun b => 32 <= b < 256)
            (StringCodec.print_escaped [97; 10; 34]).
Proof.
  apply (print_string_requests_what_it_writes 32 (fun _ => Some [])
           [97; 10; 34] None).
  - repeat constructor; unfold StringCodec.valid_byte; lia.
  - vm_compute. reflexivity.
Defined.

(** ** The print buffer, continued *)

(** X25.  As long as [offset + needed] fits [size_t], a call of [ensure]
    that returns a pointer returns [buffer + offset] of a buffer with room
    for [needed] more bytes behind the offset; the offset and the mode are
    unchanged, and so are the first [length] bytes of the buffer, also when
    it was replaced by a larger one. *)
Theorem ensure_gives_room_and_keeps_content (w : N) (malloc_fn : malloc_hook)
    (p p' : PrintBuffer.printbuffer) (old : bytes) (n off : Z) :
  PrintBuffer.buffer p = Some old ->
  List.length old = Z.to_nat (PrintBuffer.length p) ->
  0 <= PrintBuffer.offset p + n < PrintBuffer.size_modulus w ->
  PrintBuffer.ensure w malloc_fn p n = (p', Some off) ->
  off = PrintBuffer.offset p
  /\ PrintBuffer.offset p' = PrintBuffer.offset p
  /\ PrintBuffer.noalloc p' = PrintBuffer.noalloc p
  /\ PrintBuffer.offset p + n <= PrintBuffer.length p'
  /\ PrintBuffer.length p <= PrintBuffer.length p'
  /\ exists new,
       PrintBuffer.buffer p' = Some new
       /\ take (Z.to_nat (PrintBuffer.length p)) new = old.
Proof.
  intros Hb Hlen Hfit Hrun.
  rewrite (ensure_spec w malloc_fn p old n Hb Hfit) in Hrun.
  destruct (Z.leb_spec (PrintBuffer.offset p + n) (PrintBuffer.length p)).
  - injection Hrun as <- <-. split_and!; try done; try lia.
    exists old. split; [done|]. rewrite <- Hlen. apply firstn_all.
  - destruct (PrintBuffer.noalloc p); [discriminate|]. cbv zeta in Hrun.
    destruct (Z.leb_spec
                (PrintBuffer.wrap w
                   (Z.max (PrintBuffer.length p) (PrintBuffer.offset p + n)
                    * 2))
                (PrintBuffer.offset p + n)); [discriminate|].
    destruct (malloc_fn _) as [newbuffer|]; [|discriminate].
    injection Hrun as <- <-. cbn. split_and!; try done; try lia.
    eexists. split; [reflexivity|].
    rewrite take_app_le by (rewrite length_take; lia).
    rewrite take_take, Nat.min_id, <- Hlen. apply firstn_all.
Qed.

Lemma ensure_gives_room_and_keeps_content_witness :
  let p := PrintBuffer.mkPB (Some [1; 2]) 2 0 false in
  let p' := PrintBuffer.mkPB
              (Some ([1; 2] ++ drop 2 [7; 7; 7; 7; 7; 7; 7; 7])) 8 0 false in
  PrintBuffer.ensure 32 (fun _ => Some [7; 7; 7; 7; 7; 7; 7; 7]) p 4
  = (p', Some 0)
  /\ PrintBuffer.offset p' = PrintBuffer.offset p
  /\ PrintBuffer.noalloc p' = PrintBuffer.noalloc p
  /\ PrintBuffer.offset p + 4 <= PrintBuffer.length p'
  /\ PrintBuffer.length p <= PrintBuffer.length p'
  /\ exists new,
       PrintBuffer.buffer p' = Some new
       /\ take (Z.to_nat (PrintBuffer.length p)) new = [1; 2].
Proof.
  intros p p'. split; [reflexivity|].
  apply (ensure_gives_room_and_keeps_content 32
           (fun _ => Some [7; 7; 7; 7; 7; 7; 7; 7]) p p' [1; 2] 4 0).
  - reflexivity.
  - reflexivity.
  - vm_compute. split; [discriminate|reflexivity].
  - reflexivity.
Defined.

(** X26.  With [noalloc] set, as [cJSON_PrintPreallocated] sets it,
    [ensure] never replaces, releases or changes the buffer: it hands out
    [buffer + offset] when the request, taken modulo the range of [size_t],
    fits the length, and NULL otherwise.  A buffer that is NULL stays
    NULL. *)
Theorem ensure_keeps_preallocated_buffer :
  forall (w : N) (malloc_fn : malloc_hook) (p : PrintBuffer.printbuffer)
         (n : Z),
    (PrintBuffer.noalloc p = true ->
     PrintBuffer.ensure w malloc_fn p n
     = (p, match PrintBuffer.buffer p with
           | None => None
           | Some _ =>
             if PrintBuffer.wrap w (n + PrintBuffer.offset p)
                <=? PrintBuffer.length p
             then Some (PrintBuffer.offset p) else None
           end))
    /\ (PrintBuffer.buffer p = None ->
        PrintBuffer.ensure w malloc_fn p n = (p, None)).
Proof.
  intros w malloc_fn p n. split.
  - intros Hn. unfold PrintBuffer.ensure.
    destruct (PrintBuffer.buffer p); [|reflexivity].
    destruct (_ <=? _); [reflexivity|]. now rewrite Hn.
  - intros Hb. unfold PrintBuffer.ensure. now rewrite Hb.
Qed.

Lemma ensure_keeps_preallocated_buffer_witness :
  PrintBuffer.ensure 32 (fun _ => Some [])
    (PrintBuffer.mkPB (Some [0; 0; 0]) 3 1 true) 5
  = (PrintBuffer.mkPB (Some [0; 0; 0]) 3 1 true, None).
Proof.
  apply (proj1 (ensure_keeps_preallocated_buffer 32 (fun _ => Some [])
                  (PrintBuffer.mkPB (Some [0; 0; 0]) 3 1 true) 5)).
  reflexivity.
Defined.

(** ** The minifier, continued *)

Section InPlaceFacts.

Import Minify.

Variable b0 : bytes.

Lemma copy_byte_in_place (st st' : cursors) :
  in_place b0 st -> copy_byte st = Done st' ->
  in_place b0 st' /\ (json st <= json st')%nat.
Proof.
  intros (Hlen & Hle & Hag). unfold copy_byte.
  destruct (block st !! json st) as [c|]; [|discriminate].
  intros [= <-]. unfold in_place. cbn [block json into].
  split; [|lia]. split_and!.
  - now rewrite length_insert.
  - lia.
  - intros k Hk. rewrite list_lookup_insert_ne by lia. apply Hag. lia.
Qed.

Lemma skip_line_comment_ge (fuel : nat) (buf : bytes) :
  forall j j', skip_line_comment fuel buf j = Done j' -> (j <= j')%nat.
Proof.
  induction fuel as [|fuel IH]; intros j j'; [discriminate|].
  cbn [skip_line_comment]. destruct (buf !! j) as [c|]; [|discriminate].
  destruct (negb (c =? 0) && negb (c =? 10)).
  - intros H. apply IH in H. lia.
  - intros [= <-]. lia.
Qed.

Lemma skip_block_comment_ge (fuel : nat) (buf : bytes) :
  forall j j', skip_block_comment fuel buf j = Done j' -> (j <= j')%nat.
Proof.
  induction fuel as [|fuel IH]; intros j j'; [discriminate|].
  cbn [skip_block_comment]. destruct (buf !! j) as [c|]; [|discriminate].
  destruct (c =? 0); [intros [= <-]; lia|].
  destruct (c =? ch "*").
  - destruct (buf !! S j) as [c1|]; [|discriminate].
    destruct (c1 =? ch "/"); [intros [= <-]; lia|].
    intros H. apply IH in H. lia.
  - intros H. apply IH in H. lia.
Qed.

Lemma copy_string_body_in_place (fuel : nat) :
  forall st st',
    in_place b0 st -> copy_string_body fuel st = Done st' ->
    in_place b0 st' /\ (json st <= json st')%nat.
Proof.
  induction fuel as [|fuel IH]; intros st st' Hin; [discriminate|].
  cbn [copy_string_body].
  destruct (block st !! json st) as [c|]; [|discriminate].
  destruct (negb (c =? 0) && negb (c =? QUOTE)); [|intros [= <-]; split; [done|lia]].
  destruct (c =? BACKSLASH).
  - destruct (copy_byte st) as [st1| |] eqn:E1; try discriminate.
    destruct (copy_byte_in_place st st1 Hin E1) as [Hin1 Hj1].
    destruct (copy_byte st1) as [st2| |] eqn:E2; try discriminate.
    destruct (copy_byte_in_place st1 st2 Hin1 E2) as [Hin2 Hj2].
    intros H. destruct (IH st2 st' Hin2 H). split; [done|lia].
  - destruct (copy_byte st) as [st2| |] eqn:E2; try discriminate.
    destruct (copy_byte_in_place st st2 Hin E2) as [Hin2 Hj2].
    intros H. destruct (IH st2 st' Hin2 H). split; [done|lia].
Qed.

Lemma moved_in_place (st : cursors) (j : nat) :
  in_place b0 st -> (json st <= j)%nat ->
  in_place b0 (mkCursors (block st) j (into st)).
Proof.
  intros (Hlen & Hle & Hag) Hj. unfold in_place. cbn [block json into].
  split_and!; [done|lia|done].
Qed.

Lemma minify_step_in_place (st st' : cursors) (c : byte) :
  in_place b0 st -> minify_step st c = Done st' -> in_place b0 st'.
Proof.
  intros Hin. unfold minify_step.
  destruct ((c =? ch " ") || (c =? 9) || (c =? 13) || (c =? 10)).
  { intros [= <-]. apply moved_in_place; [done|cbn; lia]. }
  destruct (slash_then st c (ch "/")) as [[|]| |]; try discriminate.
  { destruct (skip_line_comment _ _ _) as [j| |] eqn:E; try discriminate.
    intros [= <-]. apply moved_in_place; [done|].
    now apply skip_line_comment_ge in E. }
  destruct (slash_then st c (ch "*")) as [[|]| |]; try discriminate.
  { destruct (skip_block_comment _ _ _) as [j| |] eqn:E; try discriminate.
    intros [= <-]. apply moved_in_place; [done|].
    apply skip_block_comment_ge in E. lia. }
  destruct (c =? QUOTE).
  - unfold copy_string_literal.
    destruct (copy_byte st) as [st1| |] eqn:E1; try discriminate.
    destruct (copy_byte_in_place st st1 Hin E1) as [Hin1 _].
    destruct (copy_string_body _ st1) as [st2| |] eqn:E2; try discriminate.
    destruct (copy_string_body_in_place _ st1 st2 Hin1 E2) as [Hin2 _].
    intros H. now destruct (copy_byte_in_place st2 st' Hin2 H).
  - intros H. now destruct (copy_byte_in_place st st' Hin H).
Qed.

Lemma minify_loop_in_place (fuel : nat) :
  forall st st',
    in_place b0 st -> minify_loop fuel st = Done st' ->
    in_place b0 st' /\ b0 !! json st' = Some 0.
Proof.
  induction fuel as [|fuel IH]; intros st st' Hin; [discriminate|].
  cbn [minify_loop].
  destruct (block st !! json st) as [c|] eqn:Ec; [|discriminate].
  destruct (Z.eqb_spec c 0) as [->|Hc].
  - intros [= <-]. split; [done|].
    destruct Hin as (_ & Hle & Hag). now rewrite <- Hag.
  - destruct (minify_step st c) as [st1| |] eqn:E; try discriminate.
    intros H. apply (IH st1 st'); [|done].
    now apply (minify_step_in_place st st1 c).
Qed.

End InPlaceFacts.

Section MinifyLength.

Lemma cstring_length_zero (l : bytes) (k : nat) :
  l !! k = Some 0 -> (List.length (cstring l) <= k)%nat.
Proof.
  revert k. induction l as [|c l IH]; intros k Hk; [done|].
  cbn [cstring]. destruct (Z.eqb_spec c 0); [cbn; lia|].
  destruct k as [|k]; [cbn in Hk; congruence|].
  cbn [List.length]. apply IH in Hk. lia.
Qed.

Lemma only_terminator (T : bytes) (k : nat) :
  Forall (fun c => c <> 0) T -> (T ++ [0]) !! k = Some 0 ->
  k = List.length T.
Proof.
  intros HT Hk. destruct (decide (k < List.length T)%nat) as [Hlt|Hge].
  - rewrite lookup_app_l in Hk by done.
    apply (Forall_lookup_1 _ _ _ _ HT) in Hk. done.
  - apply lookup_lt_Some in Hk. rewrite length_app in Hk. simpl in Hk. lia.
Qed.

End MinifyLength.

(** X27.  [cJSON_Minify] works in place: on a block that holds a text and
    its terminator, a run that returns leaves a block of the same length
    whose C string is no longer than the text was. *)
Theorem minify_in_place_never_grows (T b : bytes) :
  Forall (fun c => c <> 0) T ->
  Minify.cJSON_Minify (Minify.c_block T) = Done b ->
  List.length b = List.length (Minify.c_block T)
  /\ (List.length (cstring b) <= List.length T)%nat.
Proof.
  intros HT. unfold Minify.cJSON_Minify.
  destruct (Minify.minify_loop _ _) as [st| |] eqn:E; try discriminate.
  intros [= <-].
  assert (Hstart : Minify.in_place (Minify.c_block T)
                     (Minify.mkCursors (Minify.c_block T) 0 0)).
  { unfold Minify.in_place. cbn. split_and!; [done|lia|done]. }
  destruct (minify_loop_in_place (Minify.c_block T) _ _ st Hstart E)
    as [(Hlen & Hle & Hag) Hz].
  apply (only_terminator T _ HT) in Hz.
  split; [now rewrite length_insert|].
  transitivity (Minify.into st); [|lia].
  apply cstring_length_zero. apply list_lookup_insert_eq.
  rewrite Hlen. unfold Minify.c_block. rewrite length_app. simpl. lia.
Qed.

Lemma minify_in_place_never_grows_witness :
  Minify.cJSON_Minify (Minify.c_block (bytes_of_string "[ 1 , 2 ]"))
  = Done [91; 49; 44; 50; 93; 0; 50; 32; 93; 0]
  /\ List.length [91; 49; 44; 50; 93; 0; 50; 32; 93; 0]
     = List.length (Minify.c_block (bytes_of_string "[ 1 , 2 ]"))
  /\ (List.length (cstring [91; 49; 44; 50; 93; 0; 50; 32; 93; 0]%Z)
      <= List.length (bytes_of_string "[ 1 , 2 ]"))%nat.
Proof.
  split; [reflexivity|].
  apply (minify_in_place_never_grows (bytes_of_string "[ 1 , 2 ]")
           [91; 49; 44; 50; 93; 0; 50; 32; 93; 0]).
  - repeat constructor; discriminate.
  - reflexivity.
Defined.


(** ** The printer without a print buffer *)

Section PrinterFacts.

Import Tree Printer.

Variable w : N.
Variable malloc_fn : malloc_hook.
Variable sprintf : NumberCodec.format -> bytes.
Variable sizeof_pointer : Z.

Ltac closed_nonzero :=
  vm_compute; repeat constructor; intros ?; discriminate.

Lemma cstring_zero_free (l : bytes) :
  Forall (fun c => c <> 0) l -> cstring l = l.
Proof.
  induction 1 as [|c l Hc _ IH]; [reflexivity|]. cbn [cstring].
  rewrite (proj2 (Z.eqb_neq c 0) Hc). now rewrite IH.
Qed.

Lemma cstring_no_zero (s : bytes) : Forall (fun c => c <> 0) (cstring s).
Proof.
  induction s as [|c s IH]; cbn [cstring]; [constructor|].
  destruct (Z.eqb_spec c 0); [constructor|]. now constructor.
Qed.

Lemma quoted_zero_free (s : option bytes) :
  text_ok s -> Forall (fun c => c <> 0) (quoted s).
Proof.
  destruct s as [s|]; cbn [text_ok quoted]; intros Hs.
  - apply Forall_app. split; [closed_nonzero|].
    apply Forall_app. split; [|closed_nonzero].
    eapply Forall_impl; [apply print_escaped_printable, Hs|].
    cbn. intros c Hc. lia.
  - closed_nonzero.
Qed.

Lemma quoted_length (s : bytes) :
  Forall StringCodec.valid_byte s ->
  (List.length s + 2 <= List.length (quoted (Some s)))%nat.
Proof.
  intros Hs. cbn [quoted]. rewrite !length_app. cbn [List.length].
  enough (List.length s <= List.length (StringCodec.print_escaped s))%nat
    by lia.
  induction Hs as [|c s Hc _ IH]; [cbn; lia|].
  cbn [StringCodec.print_escaped]. unfold StringCodec.valid_byte in Hc.
  destruct (Z.eqb_spec c 0); [lia|].
  destruct ((c >? 31) && negb (c =? QUOTE) && negb (c =? BACKSLASH)).
  - cbn [List.length]. lia.
  - rewrite length_app.
    pose proof (escape_byte_length c Hc) as Hl.
    cbn [List.length]. destruct (StringCodec.has_shortcut c); lia.
Qed.

Lemma render_array (fmt : bool) (d : nat) (f : cJSON) (kids : list tree) :
  type f = cJSON_Array ->
  render sprintf fmt d (Node f kids)
  = [ch "["] ++ render_elements sprintf fmt (S d) kids ++ [ch "]"].
Proof.
  intros H. cbn [render]. rewrite H. f_equal. f_equal.
  induction kids as [|k ks IH]; [reflexivity|].
  cbn [render_elements]. now rewrite IH.
Qed.

Lemma render_object (fmt : bool) (d : nat) (f : cJSON) (kids : list tree) :
  type f = cJSON_Object ->
  render sprintf fmt d (Node f kids)
  = [ch "{"] ++ (if fmt then [10] else [])
    ++ render_members sprintf fmt (S d) kids
    ++ (if fmt then repeat 9 d else []) ++ [ch "}"].
Proof.
  intros H. cbn [render]. rewrite H. do 2 f_equal. f_equal.
  induction kids as [|k ks IH]; [reflexivity|].
  cbn [render_members]. now rewrite IH.
Qed.

Lemma printable_array (f : cJSON) (kids : list tree) :
  type f = cJSON_Array ->
  printable sprintf (Node f kids) = printable_elements sprintf kids.
Proof. intros H. cbn [printable]. rewrite H. reflexivity. Qed.

Lemma printable_object (f : cJSON) (kids : list tree) :
  type f = cJSON_Object ->
  printable sprintf (Node f kids) = printable_members sprintf kids.
Proof. intros H. cbn [printable]. rewrite H. reflexivity. Qed.

Lemma comma_zero_free {A : Type} (rest : list A) (after : bytes) :
  Forall (fun c => c <> 0) after ->
  Forall (fun c => c <> 0) (comma rest after).
Proof.
  intros H. destruct rest; cbn [comma]; [constructor|].
  constructor; [now vm_compute|exact H].
Qed.

Lemma tabs_zero_free (n : nat) : Forall (fun c : Z => c <> 0) (repeat 9 n).
Proof. induction n; cbn [repeat]; constructor; [lia|done]. Qed.

Lemma render_zero_free (fmt : bool) (t : tree) :
  forall d, printable sprintf t ->
            Forall (fun c => c <> 0) (render sprintf fmt d t).
Proof.
  induction t as [f kids IH] using tree_forall_ind. intros d Hp.
  destruct (type f) eqn:Ht.
  - cbn [printable] in Hp. rewrite Ht in Hp. destruct Hp.
  - cbn [render]. rewrite Ht. closed_nonzero.
  - cbn [render]. rewrite Ht. closed_nonzero.
  - cbn [render]. rewrite Ht. closed_nonzero.
  - cbn [render printable] in *. rewrite Ht in *. exact Hp.
  - cbn [render printable] in *. rewrite Ht in *.
    now apply quoted_zero_free.
  - rewrite (render_array _ _ _ _ Ht).
    rewrite (printable_array _ _ Ht) in Hp.
    apply Forall_app. split; [closed_nonzero|].
    apply Forall_app. split; [|closed_nonzero].
    generalize (S d). intros d'.
    induction IH as [|k ks Hk _ IHks]; cbn [render_elements];
      [constructor|].
    destruct Hp as [Hpk Hps].
    apply Forall_app. split; [now apply Hk|].
    apply Forall_app. split; [|now apply IHks].
    apply comma_zero_free. destruct fmt; closed_nonzero.
  - rewrite (render_object _ _ _ _ Ht).
    rewrite (printable_object _ _ Ht) in Hp.
    apply Forall_app. split; [closed_nonzero|].
    apply Forall_app. split; [destruct fmt; closed_nonzero|].
    apply Forall_app. split.
    2:{ apply Forall_app. split; [|closed_nonzero].
        destruct fmt; [apply tabs_zero_free|constructor]. }
    generalize (S d). intros d'.
    induction IH as [|k ks Hk _ IHks]; cbn [render_members];
      [constructor|].
    destruct Hp as [[Hn Hpk] Hps].
    repeat (apply Forall_app; split).
    + destruct fmt; [apply tabs_zero_free|constructor].
    + now apply quoted_zero_free.
    + closed_nonzero.
    + destruct fmt; closed_nonzero.
    + now apply Hk.
    + apply comma_zero_free. constructor.
    + destruct fmt; closed_nonzero.
    + now apply IHks.
  - cbn [render printable] in *. rewrite Ht in *.
    destruct (string f) as [s|]; [apply cstring_no_zero|constructor].
Qed.

Lemma strlen_render (fmt : bool) (d : nat) (t : tree) :
  printable sprintf t ->
  strlen (render sprintf fmt d t)
  = Z.of_nat (List.length (render sprintf fmt d t)).
Proof.
  intros Hp. unfold strlen.
  now rewrite (cstring_zero_free _ (render_zero_free fmt t d Hp)).
Qed.

Lemma elements_room_bounds (fmt : bool) (d : nat) (ks : list tree) :
  Z.of_nat (List.length (render_elements sprintf fmt d ks))
  <= elements_room sprintf fmt d ks
  /\ elements_room sprintf fmt d ks
     <= 3 * Z.of_nat (List.length (render_elements sprintf fmt d ks)) + 3.
Proof.
  induction ks as [|k ks IH]; cbn [render_elements elements_room];
    [cbn; lia|].
  rewrite !length_app.
  destruct ks as [|k' ks]; cbn [comma] in *.
  - cbn [render_elements elements_room List.length] in *.
    destruct fmt; lia.
  - rewrite length_app. cbn [List.length] in *.
    destruct fmt; cbn [List.length]; lia.
Qed.

Lemma members_room_bounds (fmt : bool) (d : nat) (ks : list tree) :
  Z.of_nat (List.length (render_members sprintf fmt d ks))
  <= members_room sprintf fmt d ks
  /\ members_room sprintf fmt d ks
     <= Z.of_nat (List.length (render_members sprintf fmt d ks)) + 1.
Proof.
  induction ks as [|k ks IH]; cbn [render_members members_room];
    [cbn; lia|].
  rewrite !length_app.
  destruct ks as [|k' ks]; cbn [comma] in *.
  - cbn [render_members members_room List.length] in *.
    destruct fmt; rewrite ?repeat_length; cbn [app List.length]; lia.
  - cbn [List.length] in *.
    destruct fmt; rewrite ?repeat_length; cbn [app List.length]; lia.
Qed.

Lemma repr_chain_chain (h : heap) (c : ptr) (ks : list tree) :
  repr_chain h c ks ->
  exists l, chain h c l /\ List.length l = List.length ks.
Proof.
  revert c. induction ks as [|k ks IH]; intros c Hc.
  - inversion Hc; subst. exists []. split; reflexivity.
  - inversion Hc as [|b itb k' ks' Hb Hk Hks]; subst.
    destruct (IH _ Hks) as (l & Hl & Hlen).
    exists (b :: l). split; [|cbn; lia].
    split; [reflexivity|]. exists itb. split; assumption.
Qed.

Lemma count_children (h : heap) (c : ptr) (ks : list tree) :
  repr_chain h c ks ->
  count_chain (S (size h)) h c 0 = Done (List.length ks).
Proof.
  intros Hc. destruct (repr_chain_chain h c ks Hc) as (l & Hl & Hlen).
  rewrite (count_chain_spec h l (S (size h)) c 0%nat Hl).
  - now rewrite Hlen.
  - pose proof (chain_length_size h l c Hl). lia.
Qed.

Lemma all_printed_some {A : Type} (l : list A) :
  all_printed (map Some l) = Some l.
Proof.
  induction l as [|a l IH]; [reflexivity|].
  cbn [map all_printed]. now rewrite IH.
Qed.

Lemma compose_array_render (fmt : bool) (d : nat) (ks : list tree) :
  printable_elements sprintf ks ->
  compose_array fmt (map (render sprintf fmt d) ks)
  = render_elements sprintf fmt d ks.
Proof.
  induction ks as [|k ks IH]; [reflexivity|]. intros [Hk Hks].
  cbn [map compose_array render_elements].
  rewrite (cstring_zero_free _ (render_zero_free fmt k d Hk)), (IH Hks).
  destruct ks; reflexivity.
Qed.

Lemma compose_object_render (fmt : bool) (dz : Z) (d : nat)
    (ks : list tree) :
  (fmt = true -> dz = Z.of_nat d) ->
  printable_members sprintf ks ->
  compose_object fmt dz
    (map (fun k => (quoted (name (root_item k)), render sprintf fmt d k)) ks)
  = render_members sprintf fmt d ks.
Proof.
  intros Hd. induction ks as [|k ks IH]; [reflexivity|].
  intros [[Hn Hk] Hks].
  cbn [map compose_object render_members].
  rewrite (cstring_zero_free _ (render_zero_free fmt k d Hk)), (IH Hks).
  rewrite (cstring_zero_free _ (quoted_zero_free _ Hn)).
  destruct fmt; [|destruct ks; reflexivity].
  rewrite (Hd eq_refl). unfold tabs. rewrite Nat2Z.id.
  destruct ks; reflexivity.
Qed.

Lemma levels_array (f : cJSON) (kids : list tree) :
  type f = cJSON_Array \/ type f = cJSON_Object ->
  levels (Node f kids) = S (deepest kids).
Proof. intros [H|H]; cbn [levels]; rewrite H; reflexivity. Qed.

Lemma levels_render (fmt : bool) (t : tree) :
  forall d, (levels t <= List.length (render sprintf fmt d t))%nat.
Proof.
  induction t as [f kids IH] using tree_forall_ind. intros d.
  destruct (type f) eqn:Ht;
    try (cbn [levels]; rewrite Ht; lia).
  - rewrite (levels_array _ _ (or_introl Ht)), (render_array _ _ _ _ Ht).
    rewrite !length_app. cbn [List.length].
    enough (deepest kids
            <= List.length (render_elements sprintf fmt (S d) kids))%nat
      by lia.
    generalize (S d). intros d'.
    induction IH as [|k ks Hk _ IHks]; cbn [deepest render_elements];
      [lia|].
    rewrite !length_app. specialize (Hk d'). lia.
  - rewrite (levels_array _ _ (or_intror Ht)), (render_object _ _ _ _ Ht).
    rewrite !length_app. cbn [List.length].
    enough (deepest kids
            <= List.length (render_members sprintf fmt (S d) kids))%nat
      by lia.
    generalize (S d). intros d'.
    induction IH as [|k ks Hk _ IHks]; cbn [deepest render_members];
      [lia|].
    rewrite !length_app. specialize (Hk d'). lia.
Qed.


Lemma both_printed_some (fmt : bool) (d : nat) (ks : list tree) :
  all_printed
    (map both_printed
       (map (fun k => (Some (quoted (name (root_item k))),
                       Some (render sprintf fmt d k))) ks))
  = Some (map (fun k => (quoted (name (root_item k)),
                         render sprintf fmt d k)) ks).
Proof.
  induction ks as [|k ks IH]; [reflexivity|].
  cbn [map both_printed all_printed]. now rewrite IH.
Qed.

Lemma print_value_unfold (fuel : nat) (h : heap) (a : nat) (it : cJSON)
    (d : Z) (fmt : bool) :
  h !! a = Some it ->
  print_value w malloc_fn sprintf sizeof_pointer (S fuel) h (Some a) d fmt
  = match type it with
    | cJSON_NULL =>
      Done (cJSON_strdup malloc_fn (Some (bytes_of_string "null")))
    | cJSON_False =>
      Done (cJSON_strdup malloc_fn (Some (bytes_of_string "false")))
    | cJSON_True =>
      Done (cJSON_strdup malloc_fn (Some (bytes_of_string "true")))
    | cJSON_Number =>
      Done (snd (NumberCodec.print_number w malloc_fn sprintf (number it)
                   None))
    | cJSON_Raw => Done (cJSON_strdup malloc_fn (string it))
    | cJSON_String => Done (print_string w malloc_fn it)
    | cJSON_Array =>
      print_array w malloc_fn sizeof_pointer h it fmt
        (array_entries w malloc_fn sprintf sizeof_pointer fuel h (child it)
           (PrintBuffer.wrap w (d + 1)) fmt 5)
    | cJSON_Object =>
      print_object w malloc_fn sizeof_pointer h it d fmt
        (object_entries w malloc_fn sprintf sizeof_pointer fuel h (child it)
           (PrintBuffer.wrap w (d + 1)) fmt
           (if fmt then PrintBuffer.wrap w (7 + PrintBuffer.wrap w (d + 1))
            else 7))
    | cJSON_Invalid => Done None
    end.
Proof.
  intros Ha. cbn [print_value]. unfold load. rewrite Ha. cbn [bind].
  destruct (type it); reflexivity.
Qed.

Lemma array_entries_step (fuel : nat) (h : heap) (b : nat) (itb : cJSON)
    (d : Z) (fmt : bool) (len len' : Z) (text : bytes)
    (rest : list (option bytes)) :
  h !! b = Some itb ->
  print_value w malloc_fn sprintf sizeof_pointer fuel h (Some b) d fmt
  = Done (Some text) ->
  array_entries w malloc_fn sprintf sizeof_pointer fuel h (next itb) d fmt
    (PrintBuffer.wrap w (len + strlen text + 2 + (if fmt then 1 else 0)))
  = Done (rest, len') ->
  array_entries w malloc_fn sprintf sizeof_pointer (S fuel) h (Some b) d fmt
    len
  = Done (Some text :: rest, len').
Proof.
  intros Hb Hv Hrest.
  change (array_entries w malloc_fn sprintf sizeof_pointer (S fuel) h
            (Some b) d fmt len)
    with (let* ret := print_value w malloc_fn sprintf sizeof_pointer fuel h
                        (Some b) d fmt in
          match ret with
          | None => Done ([None], len)
          | Some text =>
            let len :=
              PrintBuffer.wrap w
                (len + strlen text + 2 + (if fmt then 1 else 0)) in
            let* ch := load h (Some b) in
            let* (rest, len) :=
              array_entries w malloc_fn sprintf sizeof_pointer fuel h
                (next ch) d fmt len in
            Done (Some text :: rest, len)
          end).
  rewrite Hv. cbn [bind]. unfold load. rewrite Hb. cbn [bind].
  rewrite Hrest. reflexivity.
Qed.

Lemma object_entries_step (fuel : nat) (h : heap) (b : nat) (itb : cJSON)
    (d : Z) (fmt : bool) (len len' : Z) (s text : bytes)
    (rest : list (option bytes * option bytes)) :
  h !! b = Some itb ->
  snd (StringCodec.print_string_ptr w malloc_fn (name itb) None) = Some s ->
  print_value w malloc_fn sprintf sizeof_pointer fuel h (Some b) d fmt
  = Done (Some text) ->
  object_entries w malloc_fn sprintf sizeof_pointer fuel h (next itb) d fmt
    (PrintBuffer.wrap w
       (len + strlen text + strlen s + 2 + (if fmt then 2 + d else 0)))
  = Done (rest, len') ->
  object_entries w malloc_fn sprintf sizeof_pointer (S fuel) h (Some b) d
    fmt len
  = Done ((Some s, Some text) :: rest, len').
Proof.
  intros Hb Hs Hv Hrest.
  change (object_entries w malloc_fn sprintf sizeof_pointer (S fuel) h
            (Some b) d fmt len)
    with (let* ch := load h (Some b) in
          let str := snd (StringCodec.print_string_ptr w malloc_fn (name ch)
                            None) in
          let* ret := print_value w malloc_fn sprintf sizeof_pointer fuel h
                        (Some b) d fmt in
          match str, ret with
          | Some s, Some text =>
            let len :=
              PrintBuffer.wrap w
                (len + strlen text + strlen s + 2
                 + (if fmt then 2 + d else 0)) in
            let* (rest, len) :=
              object_entries w malloc_fn sprintf sizeof_pointer fuel h
                (next ch) d fmt len in
            Done ((str, ret) :: rest, len)
          | _, _ => Done ([(str, ret)], len)
          end).
  unfold load. rewrite Hb. cbn [bind]. cbv zeta. rewrite Hs, Hv.
  cbn [bind]. rewrite Hrest. reflexivity.
Qed.

Hypothesis malloc_succeeds : forall n, malloc_fn n <> None.

Lemma write_out_spec (len : Z) (text : bytes) :
  Z.of_nat (List.length text) + 1 <= len ->
  write_out malloc_fn len text = Done (Some text).
Proof.
  intros Hlen. unfold write_out.
  destruct (malloc_fn len) eqn:E; [|now apply malloc_succeeds in E].
  destruct (Z.ltb_spec len (Z.of_nat (List.length text) + 1)); [lia|done].
Qed.

Lemma strdup_spec (s : bytes) :
  cJSON_strdup malloc_fn (Some s) = Some (cstring s).
Proof.
  unfold cJSON_strdup.
  destruct (malloc_fn _) eqn:E; [done|now apply malloc_succeeds in E].
Qed.

Lemma emit_unbuffered (size : Z) (text : bytes) :
  StringCodec.emit w malloc_fn None size text = (None, Some text).
Proof.
  unfold StringCodec.emit.
  destruct (malloc_fn size) eqn:E; [done|now apply malloc_succeeds in E].
Qed.

Lemma print_quoted (s : option bytes) :
  text_ok s ->
  6 * Z.of_nat (List.length (quoted s)) < PrintBuffer.size_modulus w ->
  snd (StringCodec.print_string_ptr w malloc_fn s None) = Some (quoted s).
Proof.
  intros Hs Hfit. destruct s as [s|].
  - cbn [text_ok] in Hs. pose proof (quoted_length s Hs) as Hl.
    rewrite (print_string_ptr_room w malloc_fn s None Hs) by lia.
    now rewrite emit_unbuffered.
  - cbn [StringCodec.print_string_ptr]. now rewrite emit_unbuffered.
Qed.


Lemma chain_weight_pos (ks : list tree) : (1 <= chain_weight ks)%nat.
Proof. destruct ks; cbn [chain_weight]; lia. Qed.

(** What [print_value] and the two loops over the children deliver within
    the budget [fuel].  The value [dz] of [depth] matters with [fmt] only,
    where it is the level [d] and has room to grow by the nesting of the
    subtree. *)
Lemma print_contracts (fmt : bool) (fuel : nat) :
  (forall h a t dz d,
      repr h a t -> printable sprintf t -> (weight t <= fuel)%nat ->
      6 * Z.of_nat (List.length (render sprintf fmt d t))
      < PrintBuffer.size_modulus w ->
      (fmt = true ->
       dz = Z.of_nat d
       /\ Z.of_nat d + Z.of_nat (levels t) < PrintBuffer.size_modulus w) ->
      print_value w malloc_fn sprintf sizeof_pointer fuel h (Some a) dz fmt
      = Done (Some (render sprintf fmt d t)))
  /\ (forall ks h c dz d len,
      repr_chain h c ks -> printable_elements sprintf ks ->
      (chain_weight ks <= fuel)%nat ->
      6 * Z.of_nat (List.length (render_elements sprintf fmt d ks))
      < PrintBuffer.size_modulus w ->
      (fmt = true ->
       dz = Z.of_nat d
       /\ Z.of_nat d + Z.of_nat (deepest ks) < PrintBuffer.size_modulus w) ->
      0 <= len ->
      len + elements_room sprintf fmt d ks < PrintBuffer.size_modulus w ->
      array_entries w malloc_fn sprintf sizeof_pointer fuel h c dz fmt len
      = Done (map Some (map (render sprintf fmt d) ks),
              len + elements_room sprintf fmt d ks))
  /\ (forall ks h c dz d len,
      repr_chain h c ks -> printable_members sprintf ks ->
      (chain_weight ks <= fuel)%nat ->
      6 * Z.of_nat (List.length (render_members sprintf fmt d ks))
      < PrintBuffer.size_modulus w ->
      (fmt = true ->
       dz = Z.of_nat d
       /\ Z.of_nat d + Z.of_nat (deepest ks) < PrintBuffer.size_modulus w) ->
      0 <= len ->
      len + members_room sprintf fmt d ks < PrintBuffer.size_modulus w ->
      object_entries w malloc_fn sprintf sizeof_pointer fuel h c dz fmt len
      = Done (map (fun k => (Some (quoted (name (root_item k))),
                             Some (render sprintf fmt d k))) ks,
              len + members_room sprintf fmt d ks)).
Proof.
  induction fuel as [|fuel (IHv & IHa & IHo)].
  { split_and!.
    - intros h a [f kids] dz d _ _ Hw. rewrite weight_unfold in Hw. lia.
    - intros ks h c dz d len _ _ Hw. pose proof (chain_weight_pos ks). lia.
    - intros ks h c dz d len _ _ Hw. pose proof (chain_weight_pos ks). lia. }
  pose proof (size_modulus_pos w) as Hpos.
  split_and!.
  - intros h a t dz d Hr Hp Hw Hfit Hd.
    inversion Hr as [a' it f kids Ha Hpay Hkids]; subst a' t.
    rewrite weight_unfold in Hw.
    rewrite (print_value_unfold fuel h a it _ fmt Ha).
    destruct Hpay as (Hty & Hstr & Hnum & Hnm & _).
    rewrite Hty. destruct (type f) eqn:Ht.
    + cbn [printable] in Hp. rewrite Ht in Hp. destruct Hp.
    + rewrite strdup_spec. cbn [render]. rewrite Ht. reflexivity.
    + rewrite strdup_spec. cbn [render]. rewrite Ht. reflexivity.
    + rewrite strdup_spec. cbn [render]. rewrite Ht. reflexivity.
    + rewrite print_number_select, emit_unbuffered. cbn [snd render].
      rewrite Ht, Hnum. reflexivity.
    + unfold print_string. cbn [render printable] in *. rewrite Ht in *.
      rewrite Hstr. now rewrite print_quoted.
    + rewrite (render_array _ _ _ _ Ht) in *.
      rewrite (printable_array _ _ Ht) in Hp.
      rewrite (levels_array _ _ (or_introl Ht)) in Hd.
      unfold print_array. rewrite (count_children h _ kids Hkids).
      cbn [bind]. destruct kids as [|k ks].
      { destruct (malloc_fn 3) eqn:E; [done|now apply malloc_succeeds in E]. }
      cbn [List.length].
      destruct (malloc_fn _) eqn:E; [clear E|now apply malloc_succeeds in E].
      rewrite !length_app in Hfit. cbn [List.length] in Hfit.
      pose proof (elements_room_bounds fmt (S d) (k :: ks)) as [Hlo Hhi].
      assert (Hd' : fmt = true ->
                    PrintBuffer.wrap w (dz + 1) = Z.of_nat (S d)
                    /\ Z.of_nat (S d) + Z.of_nat (deepest (k :: ks))
                       < PrintBuffer.size_modulus w).
      { intros Hf. destruct (Hd Hf) as [-> Hl].
        rewrite wrap_small by lia. lia. }
      rewrite (IHa (k :: ks) h (child it) _ (S d) 5 Hkids Hp) by (done || lia).
      cbn [bind]. rewrite all_printed_some, write_out_spec.
      * now rewrite compose_array_render.
      * rewrite compose_array_render by done.
        rewrite !length_app. cbn [List.length]. lia.
    + rewrite (render_object _ _ _ _ Ht) in *.
      rewrite (printable_object _ _ Ht) in Hp.
      rewrite (levels_array _ _ (or_intror Ht)) in Hd.
      unfold print_object. rewrite (count_children h _ kids Hkids).
      cbn [bind]. destruct kids as [|k ks].
      { cbn [List.length render_members] in *.
        rewrite !length_app in Hfit.
        destruct fmt; cbn [app List.length] in *.
        - destruct (Hd eq_refl) as [-> _].
          rewrite repeat_length in Hfit.
          rewrite write_out_spec.
          + unfold tabs. rewrite Nat2Z.id. reflexivity.
          + rewrite wrap_small by lia. cbn [List.length].
            rewrite length_app. unfold tabs.
            rewrite repeat_length, Nat2Z.id. cbn [List.length]. lia.
        - rewrite write_out_spec; [reflexivity|cbn; lia]. }
      cbn [List.length].
      destruct (malloc_fn _) eqn:E; [clear E|now apply malloc_succeeds in E].
      pose proof (members_room_bounds fmt (S d) (k :: ks)) as [Hlo Hhi].
      rewrite !length_app in Hfit.
      assert (Hfit' :
                6 * Z.of_nat (List.length
                                (render_members sprintf fmt (S d) (k :: ks)))
                + 12 + (if fmt then 6 * Z.of_nat (S d) else 0)
                < PrintBuffer.size_modulus w).
      { destruct fmt; rewrite ?repeat_length in Hfit;
          cbn [List.length] in Hfit; lia. }
      assert (Hd' : fmt = true ->
                    PrintBuffer.wrap w (dz + 1) = Z.of_nat (S d)
                    /\ Z.of_nat (S d) + Z.of_nat (deepest (k :: ks))
                       < PrintBuffer.size_modulus w).
      { intros Hf. destruct (Hd Hf) as [-> Hl].
        rewrite wrap_small by lia. lia. }
      remember (PrintBuffer.wrap w (dz + 1)) as dz' eqn:Edz.
      replace (if fmt then PrintBuffer.wrap w (7 + dz') else 7)
        with (7 + (if fmt then Z.of_nat (S d) else 0)).
      2:{ destruct fmt; [|lia]. destruct (Hd' eq_refl) as [-> _].
          rewrite wrap_small; lia. }
      rewrite (IHo (k :: ks) h (child it) dz' (S d) _ Hkids Hp)
        by (done || destruct fmt; lia).
      cbn [bind]. rewrite both_printed_some.
      rewrite (compose_object_render fmt dz' (S d))
        by (done || apply Hd').
      rewrite write_out_spec.
      * destruct fmt; [|reflexivity]. destruct (Hd' eq_refl) as [-> _].
        rewrite wrap_small by lia. unfold tabs.
        replace (Z.to_nat (Z.of_nat (S d) - 1)) with d by lia.
        reflexivity.
      * rewrite !length_app.
        destruct fmt; [|cbn [List.length]; lia].
        destruct (Hd' eq_refl) as [-> _].
        rewrite wrap_small by lia. unfold tabs.
        replace (Z.to_nat (Z.of_nat (S d) - 1)) with d by lia.
        rewrite ?repeat_length; cbn [List.length]; lia.
    + rewrite Hstr. cbn [render printable] in *. rewrite Ht in *.
      destruct (string f) as [s|]; [|done]. now rewrite strdup_spec.
  - intros ks h c dz d len Hc Hp Hw Hfit Hd Hlen Hroom.
    destruct ks as [|k ks].
    + inversion Hc; subst. cbn [array_entries map elements_room].
      now rewrite Z.add_0_r.
    + inversion Hc as [|b itb k' ks' Hb Hk Hks]; subst.
      destruct Hp as [Hpk Hps].
      cbn [chain_weight] in Hw. cbn [deepest] in Hd.
      cbn [elements_room] in Hroom.
      cbn [render_elements] in Hfit. rewrite !length_app in Hfit.
      pose proof (elements_room_bounds fmt d ks) as [Hlo Hhi].
      assert (Hv : print_value w malloc_fn sprintf sizeof_pointer fuel h
                     (Some b) dz fmt
                   = Done (Some (render sprintf fmt d k))).
      { apply IHv; [done|done|lia|lia|].
        intros Hf. destruct (Hd Hf) as [-> Hl]. split; [done|lia]. }
      eapply array_entries_step; [exact Hb|exact Hv|].
      rewrite (strlen_render fmt d k Hpk).
      rewrite wrap_small by (destruct fmt; lia).
      rewrite (IHa ks h (next itb) dz d _ Hks Hps).
      * cbn [map elements_room]. do 2 f_equal. lia.
      * lia.
      * lia.
      * intros Hf. destruct (Hd Hf) as [-> Hl]. split; [done|lia].
      * destruct fmt; lia.
      * destruct fmt; lia.
  - intros ks h c dz d len Hc Hp Hw Hfit Hd Hlen Hroom.
    destruct ks as [|k ks].
    + inversion Hc; subst. cbn [object_entries map members_room].
      now rewrite Z.add_0_r.
    + inversion Hc as [|b itb k' ks' Hb Hk Hks]; subst.
      destruct Hp as [[Hn Hpk] Hps].
      cbn [chain_weight] in Hw. cbn [deepest] in Hd.
      cbn [members_room] in Hroom.
      cbn [render_members] in Hfit. rewrite !length_app in Hfit.
      pose proof (members_room_bounds fmt d ks) as [Hlo Hhi].
      assert (Hnm : name itb = name (root_item k)).
      { inversion Hk as [a' it f kids Ha Hpay _]; subst.
        rewrite Hb in Ha. injection Ha as <-. cbn [root_item].
        apply Hpay. }
      assert (Hv : print_value w malloc_fn sprintf sizeof_pointer fuel h
                     (Some b) dz fmt
                   = Done (Some (render sprintf fmt d k))).
      { apply IHv; [done|done|lia|lia|].
        intros Hf. destruct (Hd Hf) as [-> Hl]. split; [done|lia]. }
      eapply object_entries_step; [exact Hb| |exact Hv|].
      { rewrite Hnm. apply print_quoted; [done|lia]. }
      rewrite (strlen_render fmt d k Hpk).
      unfold strlen at 1.
      rewrite (cstring_zero_free _ (quoted_zero_free _ Hn)).
      replace (if fmt then 2 + dz else 0)
        with (if fmt then 2 + Z.of_nat d else 0)
        by (destruct fmt; [now destruct (Hd eq_refl) as [-> _]|done]).
      rewrite wrap_small by (destruct fmt; lia).
      rewrite (IHo ks h (next itb) dz d _ Hks Hps).
      * cbn [map members_room]. do 2 f_equal. lia.
      * lia.
      * lia.
      * intros Hf. destruct (Hd Hf) as [-> Hl]. split; [done|lia].
      * destruct fmt; lia.
      * destruct fmt; lia.
Qed.

Lemma owns_repr (h : heap) (a : nat) (t : tree) (fp : gset nat) :
  owns h a t fp -> repr h a t.
Proof.
  intros o.
  exact (owns_mut h (fun a t _ _ => repr h a t)
           (fun c ks _ _ => repr_chain h c ks)
           (fun a it f kids fpk Ha Hp _ IH _ => repr_node h a it f kids Ha Hp IH)
           (repr_chain_nil h)
           (fun b itb k ks fp1 fp2 Hb _ IHk _ IHks _ =>
              repr_chain_cons h b itb k ks Hb IHk IHks)
           a t fp o).
Qed.

Lemma owns_weight (h : heap) (a : nat) (t : tree) (fp : gset nat) :
  owns h a t fp -> (weight t <= 2 * size fp)%nat.
Proof.
  intros o.
  refine (owns_mut h (fun a t fp _ => (weight t <= 2 * size fp)%nat)
            (fun c ks fp _ => (chain_weight ks <= 2 * size fp + 1)%nat)
            _ _ _ a t fp o).
  - intros b it f kids fpk _ _ _ IH Hb. rewrite weight_unfold.
    rewrite size_union by set_solver. rewrite size_singleton. lia.
  - rewrite size_empty. cbn. lia.
  - intros b itb [f kids] ks fp1 fp2 _ _ IHk _ IHks Hdis.
    cbn [chain_weight]. rewrite size_union by exact Hdis.
    rewrite weight_unfold in *. lia.
Qed.

(** [print_value] as the two entry points call it. *)
Lemma print_entry (fmt : bool) (h : heap) (a : nat) (t : tree)
    (fp : gset nat) :
  owns h a t fp -> printable sprintf t ->
  6 * Z.of_nat (List.length (render sprintf fmt 0 t))
  < PrintBuffer.size_modulus w ->
  print_value w malloc_fn sprintf sizeof_pointer (print_fuel h) h (Some a) 0
    fmt
  = Done (Some (render sprintf fmt 0 t)).
Proof.
  intros Hown Hp Hfit.
  destruct (print_contracts fmt (print_fuel h)) as [Hv _].
  apply (Hv h a t 0 0%nat);
    [exact (owns_repr h a t fp Hown)|exact Hp| |exact Hfit|].
  - pose proof (owns_weight h a t fp Hown) as Hw.
    pose proof (proj1 (owns_dom h) _ _ _ Hown) as Hsub.
    apply subseteq_size in Hsub. rewrite size_dom in Hsub.
    unfold print_fuel. lia.
  - intros _. split; [reflexivity|].
    pose proof (levels_render fmt t 0). pose proof (size_modulus_pos w). lia.
Qed.

End PrinterFacts.

(** X28. [cJSON_PrintUnformatted] on a subtree that shares no item and that
    the printer has a text for returns the compact text of the subtree: no
    whitespace, commas between the elements and between the members, every
    member as its quoted and escaped key, a colon and its value.  It does so
    whenever every allocation succeeds and six times the length of the text
    fits [size_t]. *)
Theorem print_unformatted_renders_tree (w : N) (malloc_fn : malloc_hook)
    (sprintf : NumberCodec.format -> bytes) (sizeof_pointer : Z)
    (h : Tree.heap) (a : nat) (t : Tree.tree) (fp : gset nat) :
  (forall n, malloc_fn n <> None) ->
  Tree.owns h a t fp -> Printer.printable sprintf t ->
  6 * Z.of_nat (List.length (Printer.render sprintf false 0 t))
  < PrintBuffer.size_modulus w ->
  Printer.cJSON_PrintUnformatted w malloc_fn sprintf sizeof_pointer h (Some a)
  = Done (Some (Printer.render sprintf false 0 t)).
Proof.
  intros Hm Hown Hp Hfit. unfold Printer.cJSON_PrintUnformatted.
  now apply (print_entry w malloc_fn sprintf sizeof_pointer Hm false h a t fp).
Qed.

Lemma example_object_owned :
  Tree.owns Tree.example_object 1 Tree.example_tree
    ({[1%nat]} ∪ (({[2%nat]} ∪ ∅) ∪ (({[3%nat]} ∪ ∅)
                                    ∪ (({[4%nat]} ∪ ∅) ∪ ∅)))).
Proof.
  eapply Tree.owns_node; [reflexivity|apply same_payload_refl| |].
  - eapply Tree.owns_chain_cons; [reflexivity| | |].
    + eapply Tree.owns_node;
        [reflexivity|apply same_payload_refl|apply Tree.owns_chain_nil|].
      set_solver.
    + eapply Tree.owns_chain_cons; [reflexivity| | |].
      * eapply Tree.owns_node;
          [reflexivity|apply same_payload_refl|apply Tree.owns_chain_nil|].
        set_solver.
      * eapply Tree.owns_chain_cons;
          [reflexivity| |apply Tree.owns_chain_nil|set_solver].
        eapply Tree.owns_node;
          [reflexivity|apply same_payload_refl|apply Tree.owns_chain_nil|].
        set_solver.
      * set_solver.
    + set_solver.
  - set_solver.
Qed.

Lemma print_unformatted_renders_tree_witness :
  Printer.cJSON_PrintUnformatted 64 (fun _ => Some [])
    (fun f => match f with NumberCodec.Fmt_d v => [48 + v] | _ => [63] end)
    8 Tree.example_object (Some 1%nat)
  = Done (Some [123; 34; 97; 34; 58; 49; 44; 34; 98; 34; 58; 50; 44; 34; 99;
                34; 58; 51; 125]).
Proof.
  apply (print_unformatted_renders_tree 64 (fun _ => Some [])
           (fun f => match f with NumberCodec.Fmt_d v => [48 + v] | _ => [63] end)
           8 Tree.example_object 1 Tree.example_tree
           ({[1%nat]} ∪ (({[2%nat]} ∪ ∅) ∪ (({[3%nat]} ∪ ∅)
                                           ∪ (({[4%nat]} ∪ ∅) ∪ ∅))))).
  - intros n. discriminate.
  - exact example_object_owned.
  - vm_compute. repeat split; repeat constructor; discriminate.
  - vm_compute. reflexivity.
Defined.

(** X29. [cJSON_Print] on such a subtree returns the indented text: a
    space after every comma of an array, every member of an object on a
    line of its own behind one tabulator per level of nesting, a tabulator
    between the colon and the value, and the closing brace indented as the
    line its object starts on.  An object without members still takes a
    line break. *)
Theorem print_formatted_renders_tree (w : N) (malloc_fn : malloc_hook)
    (sprintf : NumberCodec.format -> bytes) (sizeof_pointer : Z)
    (h : Tree.heap) (a : nat) (t : Tree.tree) (fp : gset nat) :
  (forall n, malloc_fn n <> None) ->
  Tree.owns h a t fp -> Printer.printable sprintf t ->
  6 * Z.of_nat (List.length (Printer.render sprintf true 0 t))
  < PrintBuffer.size_modulus w ->
  Printer.cJSON_Print w malloc_fn sprintf sizeof_pointer h (Some a)
  = Done (Some (Printer.render sprintf true 0 t)).
Proof.
  intros Hm Hown Hp Hfit. unfold Printer.cJSON_Print.
  now apply (print_entry w malloc_fn sprintf sizeof_pointer Hm true h a t fp).
Qed.

Lemma print_formatted_renders_tree_witness :
  Printer.cJSON_Print 64 (fun _ => Some [])
    (fun f => match f with NumberCodec.Fmt_d v => [48 + v] | _ => [63] end)
    8 Tree.example_object (Some 1%nat)
  = Done (Some [123; 10; 9; 34; 97; 34; 58; 9; 49; 44; 10; 9; 34; 98; 34; 58;
                9; 50; 44; 10; 9; 34; 99; 34; 58; 9; 51; 10; 125]).
Proof.
  apply (print_formatted_renders_tree 64 (fun _ => Some [])
           (fun f => match f with NumberCodec.Fmt_d v => [48 + v] | _ => [63] end)
           8 Tree.example_object 1 Tree.example_tree
           ({[1%nat]} ∪ (({[2%nat]} ∪ ∅) ∪ (({[3%nat]} ∪ ∅)
                                           ∪ (({[4%nat]} ∪ ∅) ∪ ∅))))).
  - intros n. discriminate.
  - exact example_object_owned.
  - vm_compute. repeat split; repeat constructor; discriminate.
  - vm_compute. reflexivity.
Defined.
